(** * GUI-Docker-Env: the quota tests, the concurrency client and the
      container janitor, embedded in Rocq.

    The development follows the Python sources:
    - [scripts/remove_all.py]          -> [Module Janitor]
    - [tests/concurrency_test.py]      -> [Module ConcurrencyTest]
    - [env_load_test.py]               -> [Module LoadTest]
    - [env_load_test_multi.py]         -> [Module MultiLoadTest]
    - [env_release_reallocate_test.py] -> [Module ReleaseTest]
    - [env_test_parallel_test.py]      -> [Module ParallelTest]
    The allocation service the test scripts talk to is not part of these
    sources; [Module Broker] models it from the design document.  The
    modules named [...Facts] hold the properties. *)

From Stdlib Require Import ZArith Lia Bool Ascii String Floats.
From stdpp Require Import gmap strings list sorting.

Open Scope string_scope.
Open Scope list_scope.
Open Scope Z_scope.
Open Scope nat_scope.

(** ** Python string operations used by the scripts *)

Module PyStr.

(** [needle in hay] on [str]: some suffix of [hay] starts with [needle]. *)
Fixpoint contains (needle hay : string) : bool :=
  String.prefix needle hay ||
  match hay with
  | EmptyString => false
  | String _ rest => contains needle rest
  end.

(** [str.lower] on one character.  Only the letters A-Z change; bytes of
    non-ASCII characters are kept, which cannot create or destroy an
    occurrence of an all-ASCII lower-case phrase without the letters i and k
    (the only ASCII results of lower-casing non-ASCII characters). *)
Definition lower_ascii (c : ascii) : ascii :=
  let n := nat_of_ascii c in
  if (65 <=? n) && (n <=? 90) then ascii_of_nat (n + 32) else c.

Fixpoint lower (s : string) : string :=
  match s with
  | EmptyString => EmptyString
  | String c rest => String (lower_ascii c) (lower rest)
  end.

(** [marker] occurs in [msg]; [phrase] occurs in [msg] whatever the case of
    the letters A-Z of [msg]. *)
Definition occurs (marker msg : string) : Prop :=
  exists before after, msg = before +:+ marker +:+ after.

Definition occurs_ignoring_case (phrase msg : string) : Prop :=
  occurs phrase (lower msg).

End PyStr.

(** ** scripts/remove_all.py *)

Module Janitor.

(** A [datetime] as [datetime.fromisoformat] returns it: the wall-clock time
    in microseconds since the epoch and the UTC offset in microseconds, absent
    for a naive value. *)
Record datetime := {
  wall_us : Z;
  utcoffset_us : option Z;
}.

(** Outcome of evaluating [container.image]: the SDK looks the image up and
    raises when it is gone; a container without image id yields [None]. *)
Inductive image_lookup :=
| ImageRaises
| ImageNone
| ImageTags (tags : list string).

(** The container object as the script observes it.  [created_dt] is the
    outcome of lines 59-63 ([attrs['Created']] read, 'Z' replaced, parsed):
    [None] when the key is missing or the text is not ISO 8601.
    [remove_raises] tells whether [container.remove(force=True)] raises. *)
Record Container := {
  id : string;
  image : image_lookup;
  created_dt : option datetime;
  remove_raises : bool;
}.

(** What [docker.from_env()] and [client.containers.list(all=True)] give. *)
Inductive DockerEnv :=
| Unreachable
| ListRaises
| Running (all_containers : list Container).

Definition us_per_minute : Z := 60 * 1000000.

(** *** Python floats

    [age_seconds] and [age_seconds / 60] are Python floats, that is IEEE 754
    binary64 numbers, and both divisions round to nearest, ties to even.  A
    finite double is kept as the pair [(m, e)] of its value [m * 2^e], with
    a mantissa [m] of 53 bits, [(0, 0)] being zero.  The ages of containers
    stay far from the overflow and the subnormal range, which the
    definitions below leave out. *)

(** [floor (log2 (a / b))] for positive integers. *)
Definition quot_log2 (a b : Z) : Z :=
  let d := (Z.log2 a - Z.log2 b)%Z in
  if (a * 2 ^ Z.max 0 (- d) <? b * 2 ^ Z.max 0 d)%Z then (d - 1)%Z else d.

(** The integer nearest to [a / b], the even one of two equally near. *)
Definition round_half_even (a b : Z) : Z :=
  let q := (a / b)%Z in
  let r := (a mod b)%Z in
  if (2 * r <? b)%Z then q
  else if (b <? 2 * r)%Z then (q + 1)%Z
  else if Z.even q then q else (q + 1)%Z.

(** [a / b] for positive integers, rounded to a mantissa of 53 bits. *)
Definition round_quotient_pos (a b : Z) : Z * Z :=
  let e := (quot_log2 a b - 52)%Z in
  (round_half_even (a * 2 ^ Z.max 0 (- e)) (b * 2 ^ Z.max 0 e), e).

(** The double nearest to [a / b], for an integer [a] and a positive
    integer [b]: the true division of two [int], which is correctly rounded
    whatever their size. *)
Definition round_quotient (a b : Z) : Z * Z :=
  if (a =? 0)%Z then (0%Z, 0%Z)
  else if (0 <? a)%Z then round_quotient_pos a b
  else let '(m, e) := round_quotient_pos (- a) b in ((- m)%Z, e).

(** [timedelta.total_seconds()]: the microseconds of the difference, an
    [int], divided by [10**6]. *)
Definition total_seconds (age_us : Z) : Z * Z :=
  round_quotient age_us 1000000.

(** [x / d] for a double [x] and a positive [int] [d] that converts to a
    double exactly. *)
Definition float_div_int (x : Z * Z) (d : Z) : Z * Z :=
  let '(m, e) := x in
  round_quotient (m * 2 ^ Z.max 0 e) (d * 2 ^ Z.max 0 (- e)).

(** [int(x)]: truncation toward zero. *)
Definition int_of_float (x : Z * Z) : Z :=
  let '(m, e) := x in
  Z.quot (m * 2 ^ Z.max 0 e) (2 ^ Z.max 0 (- e)).

(** A double in the notation of the Standard Library, and the machine
    double of an integer that converts exactly; they serve to compare the
    definitions above with the library's binary64 division and with the
    division of the machine. *)
Definition to_spec_float (x : Z * Z) : spec_float :=
  let '(m, e) := x in
  if (m =? 0)%Z then S754_zero false
  else if (m =? 2 ^ 53)%Z then S754_finite false (Z.to_pos (2 ^ 52)) (e + 1)
  else if (m =? - 2 ^ 53)%Z then S754_finite true (Z.to_pos (2 ^ 52)) (e + 1)
  else S754_finite (m <? 0)%Z (Z.to_pos (Z.abs m)) e.

Definition float_of_int (n : Z) : float :=
  if (n <? 0)%Z then PrimFloat.opp (PrimFloat.of_uint63 (Uint63.of_Z (- n)))
  else PrimFloat.of_uint63 (Uint63.of_Z n).

(** [get_container_age_minutes].  [now] is [datetime.now(timezone.utc)] in
    microseconds.  Subtracting a naive value from the aware [now] raises
    TypeError, which the handler turns into [None] like every other exception.
    [timedelta] has microsecond resolution; [total_seconds()] and the
    division by 60 are rounded to doubles, and [int] truncates toward
    zero. *)
Definition get_container_age_minutes (now : Z) (container : Container) : option Z :=
  match created_dt container with
  | None => None
  | Some dt =>
      match utcoffset_us dt with
      | None => None
      | Some off =>
          let age_seconds := total_seconds (now - (wall_us dt - off)) in
          let age_minutes := int_of_float (float_div_int age_seconds 60) in
          Some age_minutes
      end
  end.

(** One entry per processed container: what the loop body did with it. *)
Inductive Outcome :=
| Skipped                   (* line 129: age calculation failed *)
| WouldRemove               (* line 138: dry run *)
| RemoveCalled (ok : bool)  (* line 142: container.remove(force=True) *)
| TooYoung.                 (* line 149 *)

Record Sweep := {
  removed_count : nat;
  failed_count : nat;
  trace : list (Container * Outcome);
}.

Definition sweep0 : Sweep :=
  {| removed_count := 0; failed_count := 0; trace := [] |}.

Definition count_removed (c : Container) (o : Outcome) (s : Sweep) : Sweep :=
  {| removed_count := S (removed_count s);
     failed_count := failed_count s;
     trace := trace s ++ [(c, o)] |}.

Definition count_failed (c : Container) (o : Outcome) (s : Sweep) : Sweep :=
  {| removed_count := removed_count s;
     failed_count := S (failed_count s);
     trace := trace s ++ [(c, o)] |}.

Definition count_nothing (c : Container) (o : Outcome) (s : Sweep) : Sweep :=
  {| removed_count := removed_count s;
     failed_count := failed_count s;
     trace := trace s ++ [(c, o)] |}.

(** Body of the loop of lines 123-154.  The container id is a string and
    the age helper swallows its exceptions, so nothing reaches the outer
    handler of line 151. *)
Definition process_container (now min_age_minutes : Z) (dry_run : bool)
    (s : Sweep) (container : Container) : Sweep :=
  match get_container_age_minutes now container with
  | None => count_failed container Skipped s
  | Some age_minutes =>
      if (age_minutes >=? min_age_minutes)%Z then
        if dry_run then count_removed container WouldRemove s
        else if remove_raises container
             then count_failed container (RemoveCalled false) s
             else count_removed container (RemoveCalled true) s
      else count_nothing container TooYoung s
  end.

(** Lines 106-114: [any(image_name in tag for tag in image_tags)]; a lookup
    that raises is logged and the container left out. *)
Definition image_matches (image_name : string) (container : Container) : bool :=
  match image container with
  | ImageRaises => false
  | ImageNone => false
  | ImageTags tags => existsb (PyStr.contains image_name) tags
  end.

Definition matching_containers (image_name : string)
    (all_containers : list Container) : list Container :=
  filter (fun c => image_matches image_name c = true) all_containers.

(** [remove_old_containers]: the clock reading is taken as constant during
    one sweep. *)
Definition remove_old_containers (env : DockerEnv) (now : Z)
    (image_name : string) (min_age_minutes : Z) (dry_run : bool) : Sweep :=
  match env with
  | Unreachable => sweep0
  | ListRaises => sweep0
  | Running all_containers =>
      match matching_containers image_name all_containers with
      | [] => sweep0
      | matching =>
          fold_left (process_container now min_age_minutes dry_run) matching sweep0
      end
  end.

(** The pair the Python function returns. *)
Definition result (s : Sweep) : nat * nat := (removed_count s, failed_count s).

(** Containers the daemon no longer has after the sweep. *)
Definition removed (s : Sweep) : list Container :=
  omap (fun e => match snd e with RemoveCalled true => Some (fst e) | _ => None end) (trace s).

(** Containers on which the removal branch of line 136 was taken. *)
Definition selected (s : Sweep) : list Container :=
  omap (fun e => match snd e with
                 | WouldRemove | RemoveCalled _ => Some (fst e)
                 | _ => None end) (trace s).

(** Parsed command line of [parse_args]. *)
Record Args := {
  min_age : Z;
  dry_run : bool;
  image_arg : string;
}.

(** [main]: the status passed to [sys.exit]. *)
Definition main (env : DockerEnv) (now : Z) (args : Args) : Z :=
  let s := remove_old_containers env now (image_arg args) (min_age args) (dry_run args) in
  let '(removed, failed) := result s in
  if (0 <? failed) then 1%Z else 0%Z.

(** *** Derived notions used to state the properties of the sweep *)

(** Two sweeps run one after the other. *)
Definition sweep_plus (s1 s2 : Sweep) : Sweep :=
  {| removed_count := removed_count s1 + removed_count s2;
     failed_count := failed_count s1 + failed_count s2;
     trace := trace s1 ++ trace s2 |}.

(** What the loop body decides for one container. *)
Definition outcome (now min_age_minutes : Z) (dry_run : bool) (c : Container) : Outcome :=
  match get_container_age_minutes now c with
  | None => Skipped
  | Some age_minutes =>
      if (age_minutes >=? min_age_minutes)%Z then
        if dry_run then WouldRemove else RemoveCalled (negb (remove_raises c))
      else TooYoung
  end.

Definition is_failure (o : Outcome) : bool :=
  match o with Skipped | RemoveCalled false => true | _ => false end.

Definition is_removal (o : Outcome) : bool :=
  match o with WouldRemove | RemoveCalled true => true | _ => false end.

Definition process_all (now min_age_minutes : Z) (dry_run : bool)
    (l : list Container) : Sweep :=
  fold_left (process_container now min_age_minutes dry_run) l sweep0.

End Janitor.

(** ** tests/concurrency_test.py *)

Module ConcurrencyTest.

#[local] Set Warnings "-register-all".

(** Values [r.json()] can return.  A JSON object is kept as the list of
    its members in document order with distinct keys. *)
Inductive Json :=
| JNull
| JBool (b : bool)
| JInt (n : Z)
| JFloat (f : float)
| JStr (s : string)
| JList (items : list Json)
| JDict (members : list (string * Json)).

Abbreviation PyDict := (list (string * Json)).

(** [d.get(key)] on a dict, [None] when the key is absent. *)
Fixpoint dict_lookup (key : string) (d : PyDict) : option Json :=
  match d with
  | [] => None
  | (k, v) :: rest => if String.eqb k key then Some v else dict_lookup key rest
  end.

Definition dict_get (key : string) (d : PyDict) : Json :=
  match dict_lookup key d with Some v => v | None => JNull end.

(** [v == 0] *)
Definition py_eq_zero (v : Json) : bool :=
  match v with
  | JBool b => negb b
  | JInt n => (n =? 0)%Z
  | JFloat f => PrimFloat.eqb f PrimFloat.zero
  | _ => false
  end.

(** Truth value of [v] in a condition. *)
Definition truthy (v : Json) : bool :=
  match v with
  | JNull => false
  | JBool b => b
  | JInt n => negb (n =? 0)%Z
  | JFloat f => negb (PrimFloat.eqb f PrimFloat.zero)
  | JStr s => negb (String.eqb s "")
  | JList items => match items with [] => false | _ => true end
  | JDict members => match members with [] => false | _ => true end
  end.

Definition type_name (v : Json) : string :=
  match v with
  | JNull => "NoneType"
  | JBool _ => "bool"
  | JInt _ => "int"
  | JFloat _ => "float"
  | JStr _ => "str"
  | JList _ => "list"
  | JDict _ => "dict"
  end.

(** Computations that may raise; [Raise] carries [str(e)]. *)
Inductive Py (A : Type) :=
| Ret (a : A)
| Raise (msg : string).
Arguments Ret {A} a.
Arguments Raise {A} msg.

#[global] Instance Py_ret : MRet Py := @Ret.
#[global] Instance Py_bind : MBind Py := fun A B k m =>
  match m with
  | Ret a => k a
  | Raise msg => Raise msg
  end.

(** [v.get(key)]: only a dict has the method. *)
Definition attr_get (v : Json) (key : string) : Py Json :=
  match v with
  | JDict members => Ret (dict_get key members)
  | _ => Raise ("'" +:+ type_name v +:+ "' object has no attribute 'get'")
  end.

(** An HTTP response of [requests]: the status, the body text and what
    [r.json()] gives, [None] when it raises. *)
Record Response := {
  status_code : Z;
  text : string;
  json : option Json;
}.

(** [r.ok]: [raise_for_status] raises for 400 <= status < 600. *)
Definition ok (r : Response) : bool :=
  negb ((400 <=? status_code r)%Z && (status_code r <? 600)%Z).

(** [session.post(...)] either raises (connection error, timeout) or
    returns a response. *)
Inductive PostResult :=
| PostRaises (msg : string)
| PostReturns (r : Response).

(** Lines 79-82 *)
Definition body (r : Response) : Json :=
  match json r with
  | Some data => data
  | None => JDict [("text", JStr (text r))]
  end.

(** The condition of line 84, evaluated left to right with short circuit. *)
Definition is_success (r : Response) (data : Json) : Py bool :=
  if negb (ok r) then Ret false else
  match data with
  | JDict members =>
      if negb (py_eq_zero (dict_get "code" members)) then Ret false else
      let inner := match dict_lookup "data" members with
                   | Some v => v
                   | None => JDict []
                   end in
      emulator_id ← attr_get inner "emulator_id";
      mret (truthy emulator_id)
  | _ => Ret false
  end.

(** Line 85: [data["data"]["emulator_id"]], reached only once line 84 held. *)
Definition emulator_id_of (data : Json) : Json :=
  match data with
  | JDict members =>
      match dict_get "data" members with
      | JDict inner => dict_get "emulator_id" inner
      | _ => JNull
      end
  | _ => JNull
  end.

(** [start_emulator]: [(ok, details)]. *)
Definition start_emulator (post : PostResult) : bool * PyDict :=
  match post with
  | PostRaises msg => (false, [("error", JStr msg)])
  | PostReturns r =>
      let data := body r in
      match is_success r data with
      | Raise msg => (false, [("error", JStr msg)])
      | Ret true =>
          (true, [("status_code", JInt (status_code r)); ("data", data);
                  ("emulator_id", emulator_id_of data)])
      | Ret false =>
          (false, [("status_code", JInt (status_code r)); ("data", data)])
      end
  end.

End ConcurrencyTest.

(** ** What the quota scripts see of [desktop_env.DesktopEnv] and of the
       [/tokens] endpoint *)

Module DesktopEnv.

(** The provider attributes the scripts read: the backend the environment
    runs on, as the key ["ip:port"] the scripts format, and the emulator id. *)
Record Env := {
  remote_docker_server : string;
  emulator_id : nat;
}.

#[global] Instance Env_eq_dec : EqDecision Env.
Proof. solve_decision. Defined.

(** Outcome of the constructor [DesktopEnv(...)]. *)
Inductive Outcome :=
| Started (env : Env)
| RuntimeError (msg : string)
| OtherException (msg : string).

(** One entry of the JSON object [/tokens] returns. *)
Record TokenInfo := {
  current : Z;
  limit : Z;
}.

(** The service behind the client, over any state [St]:
    [new_env] is [DesktopEnv(...)], [close] is [env.close()] ([false] when
    it raises), [tokens] is a successful [GET /tokens] on one backend
    ([None] when the request fails or the status is not 200). *)
Record Service (St : Type) := {
  new_env : St -> Outcome * St;
  close : Env -> St -> bool * St;
  tokens : string -> St -> option (gmap string TokenInfo);
}.
Arguments new_env {St} _ _.
Arguments close {St} _ _ _.
Arguments tokens {St} _ _ _.

End DesktopEnv.

(** The two bytes-encoded characters of the Chinese marker the load tests
    accept besides the English phrase (U+8D85 U+8FC7, UTF-8). *)
Definition chao_guo : string :=
  String "232" (String "182" (String "133"
    (String "232" (String "191" (String "135" EmptyString))))).

(** ** env_load_test.py *)

Module LoadTest.
Import DesktopEnv.

Definition MAX_ATTEMPTS : nat := 10.
Definition TOTAL_ATTEMPTS (max_attempts : nat) : nat := max_attempts + 2.

(** Line 65 *)
Definition is_quota_error (error_msg : string) : bool :=
  PyStr.contains "quota exceeded" (PyStr.lower error_msg) ||
  PyStr.contains chao_guo error_msg.

(** What one iteration prints. *)
Inductive Line :=
| Launched (env : Env)
| QuotaLimit (error_msg : string)
| OtherError (error_msg : string)
| Unexpected (error_msg : string).

Record State := {
  environments : list Env;
  success_count : nat;
  failure_count : nat;
  printed : list Line;
}.

Definition state0 : State :=
  {| environments := []; success_count := 0; failure_count := 0; printed := [] |}.

Section Script.
Context {St : Type} (svc : Service St).

(** Body of the loop of lines 36-76. *)
Definition attempt (ts : State * St) : State * St :=
  let '(t, st) := ts in
  match new_env svc st with
  | (Started env, st') =>
      ({| environments := environments t ++ [env];
          success_count := S (success_count t);
          failure_count := failure_count t;
          printed := printed t ++ [Launched env] |}, st')
  | (RuntimeError error_msg, st') =>
      ({| environments := environments t;
          success_count := success_count t;
          failure_count := S (failure_count t);
          printed := printed t ++
            [if is_quota_error error_msg then QuotaLimit error_msg
             else OtherError error_msg] |}, st')
  | (OtherException error_msg, st') =>
      ({| environments := environments t;
          success_count := success_count t;
          failure_count := S (failure_count t);
          printed := printed t ++ [Unexpected error_msg] |}, st')
  end.

(** [for i in range(n)] *)
Fixpoint attempts (n : nat) (ts : State * St) : State * St :=
  match n with
  | O => ts
  | S n' => attempts n' (attempt ts)
  end.

(** Lines 88-93 *)
Definition passes (max_attempts : nat) (t : State) : bool :=
  let expected_success := max_attempts in
  let expected_failure := 2 in
  (success_count t =? expected_success) && (failure_count t =? expected_failure).

(** Lines 107-115: every started environment is closed. *)
Definition cleanup (envs : list Env) (st : St) : St :=
  fold_left (fun s env => snd (close svc env s)) envs st.

(** The script: the loop, the verdict, the cleanup. *)
Definition script (max_attempts : nat) (st : St) : State * bool * St :=
  let '(t, st') := attempts (TOTAL_ATTEMPTS max_attempts) (state0, st) in
  (t, passes max_attempts t, cleanup (environments t) st').
End Script.

End LoadTest.

(** ** env_load_test_multi.py *)

Module MultiLoadTest.
Import DesktopEnv.

Definition PER_URL_QUOTA : nat := 10.

Record State := {
  environments : list Env;
  success_count : nat;
  failure_count : nat;
  server_usage : gmap string nat;
}.

Definition state0 : State :=
  {| environments := []; success_count := 0; failure_count := 0;
     server_usage := ∅ |}.

(** Number of environments of [envs] that run on backend [key], and the
    usage dict the loop builds for the environments it started. *)
Definition count_on (key : string) (envs : list Env) : nat :=
  length (filter (fun env => remote_docker_server env = key) envs).

Definition tally (envs : list Env) : gmap string nat :=
  fold_left (fun m env =>
    <[remote_docker_server env := default 0 (m !! remote_docker_server env) + 1]> m)
    envs ∅.

Section Script.
Context {St : Type} (svc : Service St).
(** [URL_LIST], as backend keys. *)
Variable URL_LIST : list string.

Definition URL_COUNT : nat := length URL_LIST.
Definition MAX_ATTEMPTS : nat := PER_URL_QUOTA * URL_COUNT.
Definition TOTAL_ATTEMPTS : nat := MAX_ATTEMPTS + 2.

(** Body of the loop of lines 44-92. *)
Definition attempt (ts : State * St) : State * St :=
  let '(t, st) := ts in
  match new_env svc st with
  | (Started env, st') =>
      let server_key := remote_docker_server env in
      ({| environments := environments t ++ [env];
          success_count := S (success_count t);
          failure_count := failure_count t;
          server_usage :=
            <[server_key := default 0 (server_usage t !! server_key) + 1]>
              (server_usage t) |}, st')
  | (_, st') =>
      ({| environments := environments t;
          success_count := success_count t;
          failure_count := S (failure_count t);
          server_usage := server_usage t |}, st')
  end.

Fixpoint attempts (n : nat) (ts : State * St) : State * St :=
  match n with
  | O => ts
  | S n' => attempts n' (attempt ts)
  end.

(** Lines 107-112 *)
Definition passes (t : State) : bool :=
  let expected_success := MAX_ATTEMPTS in
  let expected_failure := 2 in
  (success_count t =? expected_success) && (failure_count t =? expected_failure).

(** Line 123 *)
Definition all_servers_used (t : State) : bool :=
  size (server_usage t) =? URL_COUNT.

(** Line 124 *)
Definition balanced_distribution (t : State) : bool :=
  if success_count t =? MAX_ATTEMPTS
  then bool_decide (map_Forall (fun _ count => count = PER_URL_QUOTA) (server_usage t))
  else false.

(** The three branches of lines 126-142. *)
Inductive Polling := PollingOk | PollingUneven | PollingBroken.

Definition polling_verdict (t : State) : Polling :=
  if all_servers_used t && balanced_distribution t then PollingOk
  else if all_servers_used t then PollingUneven
  else PollingBroken.

Definition script (st : St) : State * St :=
  attempts TOTAL_ATTEMPTS (state0, st).
End Script.

End MultiLoadTest.

(** ** env_release_reallocate_test.py *)

Module ReleaseTest.
Import DesktopEnv.

Definition PER_URL_QUOTA : nat := 10.
Definition RELEASE_COUNT : nat := 3.

Record Held := {
  all_envs : list Env;
  by_server : gmap string (list Env);
}.

Definition held0 : Held := {| all_envs := []; by_server := ∅ |}.

(** [by_server.setdefault(key, []).append(env); all_envs.append(env)] *)
Definition hold (env : Env) (h : Held) : Held :=
  let key := remote_docker_server env in
  {| all_envs := all_envs h ++ [env];
     by_server := <[key := default [] (by_server h !! key) ++ [env]]> (by_server h) |}.

(** [lst.remove(env)]: the first equal element goes. *)
Fixpoint list_remove (env : Env) (lst : list Env) : list Env :=
  match lst with
  | [] => []
  | e :: rest => if decide (e = env) then rest else e :: list_remove env rest
  end.

(** What [main] reports: the counters it prints and the three checks. *)
Record Report := {
  success_count : nat;
  released_count : nat;
  waited_ok : bool;
  second_wave_success : nat;
  second_wave_on_first : nat;
  test1_pass : bool;
  test2_pass : bool;
  test3_pass : bool;
}.

Definition all_pass (r : Report) : bool :=
  test1_pass r && test2_pass r && test3_pass r.

Section Script.
Context {St : Type} (svc : Service St).
(** [URL_LIST] as backend keys, the token, [RELEASE_COUNT], and the number
    of times the loop of [wait_available] runs before its deadline. *)
Variable URL_LIST : list string.
Variable OSWORLD_TOKEN : string.
Variable release_count : nat.
Variable polls : nat.

Definition URL_COUNT : nat := length URL_LIST.
Definition MAX_ATTEMPTS : nat := PER_URL_QUOTA * URL_COUNT.
Definition SECOND_WAVE_COUNT : nat := release_count + 1.
Definition first_key : string := hd "" URL_LIST.

(** [get_tokens_snapshot]: [data.get(token)], [None] on any exception. *)
Definition get_tokens_snapshot (key token : string) (st : St) : option TokenInfo :=
  match tokens svc key st with
  | Some data => data !! token
  | None => None
  end.

(** [wait_available]; the broker state does not change between polls. *)
Fixpoint wait_available (key token : string) (expect_available : Z)
    (remaining : nat) (st : St) : bool :=
  match remaining with
  | O => false
  | S remaining' =>
      match get_tokens_snapshot key token st with
      | Some info =>
          let current_available := (limit info - current info)%Z in
          if (current_available >=? expect_available)%Z then true
          else wait_available key token expect_available remaining' st
      | None => wait_available key token expect_available remaining' st
      end
  end.

(** Phase 1, lines 113-133: the loop stops at the first failure. *)
Fixpoint fill (n : nat) (count : nat) (h : Held) (st : St) : nat * Held * St :=
  match n with
  | O => (count, h, st)
  | S n' =>
      match new_env svc st with
      | (Started env, st') => fill n' (S count) (hold env h) st'
      | (_, st') => (count, h, st')
      end
  end.

(** Phase 2, lines 171-181. *)
Fixpoint release (to_release : list Env) (released : nat) (h : Held) (st : St)
    : nat * Held * St :=
  match to_release with
  | [] => (released, h, st)
  | env :: rest =>
      match close svc env st with
      | (true, st') =>
          let h' := {| all_envs := all_envs h;
                       by_server := <[first_key :=
                         list_remove env (default [] (by_server h !! first_key))]>
                         (by_server h) |} in
          release rest (S released) h' st'
      | (false, st') => release rest released h st'
      end
  end.

(** Phase 3, lines 206-226: a failure does not stop the loop. *)
Fixpoint second_wave (n : nat) (wave : list Env) (h : Held) (st : St)
    : list Env * Held * St :=
  match n with
  | O => (wave, h, st)
  | S n' =>
      match new_env svc st with
      | (Started env, st') => second_wave n' (wave ++ [env]) (hold env h) st'
      | (_, st') => second_wave n' wave h st'
      end
  end.

(** [main]: [None] when the first backend holds nothing to release
    (lines 154-162), else the report; the final state is after cleanup. *)
Definition main (st : St) : option Report * St :=
  let '(success, h, st1) := fill MAX_ATTEMPTS 0 held0 st in
  let to_release := take release_count (default [] (by_server h !! first_key)) in
  match to_release with
  | [] => (None, fold_left (fun s env => snd (close svc env s)) (all_envs h) st1)
  | _ =>
      let '(released, h2, st2) := release to_release 0 h st1 in
      let ok := wait_available first_key OSWORLD_TOKEN (Z.of_nat released) polls st2 in
      let '(wave, h3, st3) := second_wave SECOND_WAVE_COUNT [] h2 st2 in
      let on_first :=
        length (filter (fun env => remote_docker_server env = first_key) wave) in
      let test3 :=
        match get_tokens_snapshot first_key OSWORLD_TOKEN st3 with
        | Some final_info => (current final_info <=? limit final_info)%Z
        | None => false
        end in
      (Some {| success_count := success;
               released_count := released;
               waited_ok := ok;
               second_wave_success := length wave;
               second_wave_on_first := on_first;
               test1_pass := released <=? length wave;
               test2_pass := Nat.max 1 (released - 1) <=? on_first;
               test3_pass := test3 |},
       fold_left (fun s env => snd (close svc env s)) (all_envs h3) st3)
  end.
End Script.

End ReleaseTest.

(** ** env_test_parallel_test.py *)

Module ParallelTest.
Import DesktopEnv.

Record Result := {
  success : bool;
  error : option string;
}.

Record State := {
  environments : list Env;
  results : gmap string Result;
}.

Definition state0 : State :=
  {| environments := [];
     results := {[ "env1" := {| success := false; error := None |};
                   "concurrent_env2" := {| success := false; error := None |};
                   "concurrent_env3" := {| success := false; error := None |} ]} |}.

(** Line 82 *)
Definition is_quota_error (error_msg : string) : bool :=
  PyStr.contains "quota exceeded" (PyStr.lower error_msg) ||
  PyStr.contains "429" error_msg.

(** [results[result_key][field] = value] *)
Definition set_success (result_key : string) (t : State) : gmap string Result :=
  alter (fun r => {| success := true; error := error r |}) result_key (results t).

Definition set_error (result_key error_msg : string) (t : State) : gmap string Result :=
  alter (fun r => {| success := success r; error := Some error_msg |}) result_key (results t).

(** [start_env] once the constructor has returned or raised. *)
Definition start_env (result_key : string) (outcome : Outcome) (t : State) : State :=
  match outcome with
  | Started env =>
      {| environments := environments t ++ [env];
         results := set_success result_key t |}
  | RuntimeError error_msg =>
      {| environments := environments t;
         results := set_error result_key error_msg t |}
  | OtherException error_msg =>
      {| environments := environments t;
         results := set_error result_key error_msg t |}
  end.

(** [check_quota]: [data[TOKEN]] of a 200 answer, else [None]. *)
Definition check_quota (token : string) (answer : option (gmap string TokenInfo))
    : option TokenInfo :=
  match answer with
  | Some data => data !! token
  | None => None
  end.

(** Lines 142-143 *)
Definition success_count (t : State) : nat :=
  length (filter (fun kv => success (snd kv) = true) (map_to_list (results t))).

Definition failure_count (t : State) : nat :=
  length (filter (fun kv => success (snd kv) = false) (map_to_list (results t))).

(** What lines 156-173 print. *)
Inductive Verdict :=
| Passed (no_overcommit : option bool)
| Failed (overcommit_suspected : bool).

Definition verify (t : State) (quota_after_concurrent : option TokenInfo) : Verdict :=
  let expected_success := 2 in
  let expected_failure := 1 in
  if (success_count t =? expected_success) && (failure_count t =? expected_failure)
  then
    match quota_after_concurrent with
    | Some q =>
        if (current q =? 2)%Z then Passed (Some true)
        else if (current q >? 2)%Z then Passed (Some false)
        else Passed None
    | None => Passed None
    end
  else Failed (expected_success <? success_count t).

(** The script after the three constructor calls: [env1] first, then the two
    threads in the order [finished] in which they completed. *)
Definition script (env1 : Outcome) (finished : list (string * Outcome))
    (quota_after_concurrent : option TokenInfo) : Verdict :=
  let t := start_env "env1" env1 state0 in
  let t := fold_left (fun t kv => start_env (fst kv) (snd kv) t) finished t in
  verify t quota_after_concurrent.

End ParallelTest.

(** ** The allocation broker

    The broker and the backend servers are not among the sources above; the
    definitions of this module follow the design document. *)

Module Broker.

(** Modelled from the spec: the Token of section 3, missing with the
    service's sources: a limit and the count of instances held. *)
Record Quota := {
  current : nat;
  limit : nat;
}.

(** Modelled from the spec: one backend server, missing with the service's
    sources: its Quota Ledger (section 4.1) keyed by token, the default
    limit of unset tokens, and the instances of its Lifecycle Manager
    (section 4.3), each bound to the token it was admitted for. *)
Record Server := {
  ledger : gmap string Quota;
  default_limit : nat;
  instances : gmap nat string;
  next_id : nat;
}.

(** The server with its ledger replaced. *)
Definition set_ledger (l : gmap string Quota) (srv : Server) : Server :=
  {| ledger := l; default_limit := default_limit srv;
     instances := instances srv; next_id := next_id srv |}.

(** Modelled from the spec: [Snapshot(token) -> {current, limit}] of
    section 4.1, missing with the service's sources. *)
Definition Snapshot (token : string) (srv : Server) : Quota :=
  default {| current := 0; limit := default_limit srv |} (ledger srv !! token).

(** Modelled from the spec: [TryAdmit] of section 4.1, missing with the
    service's sources: one atomic check-and-increment, granted iff
    [current < limit]. *)
Definition TryAdmit (token : string) (srv : Server) : bool * Server :=
  let q := Snapshot token srv in
  if current q <? limit q
  then (true, set_ledger (<[token := {| current := S (current q); limit := limit q |}]>
                            (ledger srv)) srv)
  else (false, srv).

(** Modelled from the spec: [Release] of section 4.1, missing with the
    service's sources; the counter never goes below zero. *)
Definition Release (token : string) (srv : Server) : Server :=
  let q := Snapshot token srv in
  set_ledger (<[token := {| current := pred (current q); limit := limit q |}]>
                (ledger srv)) srv.

(** Modelled from the spec: [SetLimit] of section 4.1, missing with the
    service's sources; instances held are kept. *)
Definition SetLimit (token : string) (new_limit : nat) (srv : Server) : Server :=
  let q := Snapshot token srv in
  set_ledger (<[token := {| current := current q; limit := new_limit |}]>
                (ledger srv)) srv.

(** Modelled from the spec: the provisioning half of [Start] of section 4.3,
    missing with the service's sources; it runs after admission, outside the
    admission lock, and binds a fresh instance to the token. *)
Definition Provision (token : string) (srv : Server) : nat * Server :=
  (next_id srv,
   {| ledger := ledger srv; default_limit := default_limit srv;
      instances := <[next_id srv := token]> (instances srv);
      next_id := S (next_id srv) |}).

(** Modelled from the spec: the error taxonomy of section 7 as far as
    [/start_emulator] of section 4.4 is concerned. *)
Inductive StartResult :=
| Granted (emulator_id : nat)
| QuotaExceeded.

(** Modelled from the spec: a [/start_emulator] request in flight, missing
    with the service's sources: admission first, provisioning second
    (section 5). *)
Inductive Phase :=
| Pending
| Provisioning
| Done (r : StartResult).

(** Modelled from the spec: one atomic step of a request, missing with the
    service's sources: [TryAdmit] when pending (a denial ends the request
    there, section 4.3), provisioning once a slot is held. *)
Definition request_step (token : string) (ph : Phase) (srv : Server) : Phase * Server :=
  match ph with
  | Pending =>
      let '(granted, srv') := TryAdmit token srv in
      if granted then (Provisioning, srv') else (Done QuotaExceeded, srv')
  | Provisioning =>
      let '(emulator_id, srv') := Provision token srv in
      (Done (Granted emulator_id), srv')
  | Done r => (Done r, srv)
  end.

(** Modelled from the spec: [POST /start_emulator] of section 4.4 served
    without interference, missing with the service's sources. *)
Definition Start (token : string) (srv : Server) : StartResult * Server :=
  let '(ph1, srv1) := request_step token Pending srv in
  let '(ph2, srv2) := request_step token ph1 srv1 in
  match ph2 with
  | Done r => (r, srv2)
  | _ => (QuotaExceeded, srv2)
  end.

(** Modelled from the spec: [POST /stop_emulator] of section 4.4, missing
    with the service's sources; an unknown id is a successful no-op. *)
Definition Stop (emulator_id : nat) (srv : Server) : Server :=
  match instances srv !! emulator_id with
  | Some token =>
      Release token
        {| ledger := ledger srv; default_limit := default_limit srv;
           instances := delete emulator_id (instances srv);
           next_id := next_id srv |}
  | None => srv
  end.

(** Modelled from the spec: [GET /tokens] of section 4.4, missing with the
    service's sources. *)
Definition Tokens (srv : Server) : gmap string DesktopEnv.TokenInfo :=
  (fun q => {| DesktopEnv.current := Z.of_nat (current q);
               DesktopEnv.limit := Z.of_nat (limit q) |}) <$> ledger srv.

(** Modelled from the spec: two requests for one token served concurrently
    (section 5), missing with the service's sources.  A schedule names, step
    by step, the request that moves; [finished] lists the requests in the
    order they completed. *)
Record Race := {
  server : Server;
  phase2 : Phase;
  phase3 : Phase;
  finished : list (bool * StartResult);
}.

(** Appends the request to the completion order when the step ended it. *)
Definition note_done (who : bool) (before after : Phase)
    (l : list (bool * StartResult)) : list (bool * StartResult) :=
  match before, after with
  | Done _, _ => l
  | _, Done r => l ++ [(who, r)]
  | _, _ => l
  end.

(** Modelled from the spec: one step of the race, missing with the
    service's sources: the request [who] (false for thread 2, true for
    thread 3) takes its next atomic step on the shared server. *)
Definition race_step (token : string) (c : Race) (who : bool) : Race :=
  if who then
    let '(ph, srv) := request_step token (phase3 c) (server c) in
    {| server := srv; phase2 := phase2 c; phase3 := ph;
       finished := note_done who (phase3 c) ph (finished c) |}
  else
    let '(ph, srv) := request_step token (phase2 c) (server c) in
    {| server := srv; phase2 := ph; phase3 := phase3 c;
       finished := note_done who (phase2 c) ph (finished c) |}.

(** Modelled from the spec: the race under a schedule, missing with the
    service's sources; both requests start pending. *)
Definition race (token : string) (srv : Server) (schedule : list bool) : Race :=
  fold_left (race_step token) schedule
    {| server := srv; phase2 := Pending; phase3 := Pending; finished := [] |}.

(** Every merge of two step sequences. *)
Fixpoint interleavings (fuel : nat) (a b : list bool) : list (list bool) :=
  match fuel with
  | O => []
  | S fuel' =>
      match a, b with
      | [], _ => [b]
      | _, [] => [a]
      | x :: a', y :: b' =>
          map (cons x) (interleavings fuel' a' b) ++
          map (cons y) (interleavings fuel' a b')
      end
  end.

(** Modelled from the spec: the pool of backend servers of section 3 with
    the rotation cursor of the Server Selector (section 9), missing with
    the service's sources. *)
Record Pool := {
  backends : list (string * Server);
  cursor : nat;
}.

(** Modelled from the spec: the headroom [limit - current] of section 4.2,
    missing with the service's sources. *)
Definition headroom (token : string) (srv : Server) : nat :=
  limit (Snapshot token srv) - current (Snapshot token srv).

(** Modelled from the spec: the most headroom any backend has (section
    4.2), missing with the service's sources. *)
Definition most_headroom (token : string) (p : Pool) : nat :=
  foldr Nat.max 0 (map (fun b => headroom token (snd b)) (backends p)).

(** Modelled from the spec: the backend indices in rotation order from the
    cursor on (sections 4.2 and 9), missing with the service's sources. *)
Definition rotation (p : Pool) : list nat :=
  let n := length (backends p) in
  map (fun k => (cursor p + k) mod n) (seq 0 n).

(** Modelled from the spec: [Choose] of section 4.2, missing with the
    service's sources: among the backends not at capacity one with the most
    headroom, the first such from the cursor on in rotation order; none when
    every backend is at capacity. *)
Definition Choose (token : string) (p : Pool) : option nat :=
  let best := most_headroom token p in
  if best =? 0 then None
  else
    List.find (fun i => match backends p !! i with
                        | Some b => headroom token (snd b) =? best
                        | None => false
                        end) (rotation p).

(** Modelled from the spec: allocation through the pool (sections 2 and
    4.2), missing with the service's sources: placement, then [Start] on the
    chosen backend; the cursor moves past it. *)
Definition PoolStart (token : string) (p : Pool)
    : option (string * nat) * Pool :=
  match Choose token p with
  | None => (None, p)
  | Some i =>
      match backends p !! i with
      | None => (None, p)
      | Some (key, srv) =>
          match Start token srv with
          | (Granted emulator_id, srv') =>
              (Some (key, emulator_id),
               {| backends := <[i := (key, srv')]> (backends p);
                  cursor := S i mod length (backends p) |})
          | (QuotaExceeded, _) => (None, p)
          end
      end
  end.

(** Modelled from the spec: release through the pool, missing with the
    service's sources: [Stop] on the backend that runs the instance. *)
Definition PoolStop (key : string) (emulator_id : nat) (p : Pool) : Pool :=
  {| backends := map (fun b => if String.eqb (fst b) key
                               then (fst b, Stop emulator_id (snd b)) else b)
                     (backends p);
     cursor := cursor p |}.

(** Modelled from the spec: [GET /tokens] asked of the backend [key]
    (section 4.4), missing with the service's sources. *)
Definition PoolTokens (key : string) (p : Pool)
    : option (gmap string DesktopEnv.TokenInfo) :=
  match List.find (fun b => String.eqb (fst b) key) (backends p) with
  | Some b => Some (Tokens (snd b))
  | None => None
  end.

(** Modelled from the spec: the denial message of section 4.4, missing with
    the service's sources; the phrase callers match is the message. *)
Definition quota_message : string := "quota exceeded".

(** Modelled from the spec: what the constructor of the client makes of the
    broker's answer (section 6), missing with the [desktop_env] package: an
    environment on the chosen backend, or [RuntimeError] with the denial
    message. *)
Definition client_outcome (key : string) (r : StartResult) : DesktopEnv.Outcome :=
  match r with
  | Granted emulator_id =>
      DesktopEnv.Started {| DesktopEnv.remote_docker_server := key;
                            DesktopEnv.emulator_id := emulator_id |}
  | QuotaExceeded => DesktopEnv.RuntimeError quota_message
  end.

(** Modelled from the spec: the client side of section 6, missing with the
    [desktop_env] package: the constructor allocates with the caller's
    token, [close] releases, [tokens] asks one backend. *)
Definition service (token : string) : DesktopEnv.Service Pool :=
  {| DesktopEnv.new_env := fun p =>
       match PoolStart token p with
       | (Some (key, emulator_id), p') => (client_outcome key (Granted emulator_id), p')
       | (None, p') => (client_outcome "" QuotaExceeded, p')
       end;
     DesktopEnv.close := fun env p =>
       (true, PoolStop (DesktopEnv.remote_docker_server env)
                       (DesktopEnv.emulator_id env) p);
     DesktopEnv.tokens := PoolTokens |}.

(** Modelled from the spec: a backend just started, missing with the
    service's sources, where [/set_token_limit] gave [token] the limit [lim];
    the default limit of other tokens is some nonzero value (section 4.1). *)
Definition fresh_server (token : string) (lim : nat) : Server :=
  SetLimit token lim
    {| ledger := ∅; default_limit := 1; instances := ∅; next_id := 0 |}.

(** Modelled from the spec: a pool of such backends, one per key, missing
    with the service's sources; the cursor starts at the first. *)
Definition fresh_pool (token : string) (lim : nat) (keys : list string) : Pool :=
  {| backends := map (fun key => (key, fresh_server token lim)) keys;
     cursor := 0 |}.

(** *** The race seen through the counters

    What two racing requests can observe of a server is the quota of their
    token and the next instance id; [race_view] keeps just that. *)
Record RaceView := {
  view_quota : Quota;
  view_next_id : nat;
  view_phase2 : Phase;
  view_phase3 : Phase;
  view_finished : list (bool * StartResult);
}.

Definition race_view (token : string) (c : Race) : RaceView :=
  {| view_quota := Snapshot token (server c);
     view_next_id := next_id (server c);
     view_phase2 := phase2 c;
     view_phase3 := phase3 c;
     view_finished := finished c |}.

Definition view_request_step (ph : Phase) (q : Quota) (next : nat)
    : Phase * Quota * nat :=
  match ph with
  | Pending =>
      if current q <? limit q
      then (Provisioning, {| current := S (current q); limit := limit q |}, next)
      else (Done QuotaExceeded, q, next)
  | Provisioning => (Done (Granted next), q, S next)
  | Done r => (Done r, q, next)
  end.

Definition view_step (v : RaceView) (who : bool) : RaceView :=
  if who then
    let '(ph, q, next) := view_request_step (view_phase3 v) (view_quota v) (view_next_id v) in
    {| view_quota := q; view_next_id := next;
       view_phase2 := view_phase2 v; view_phase3 := ph;
       view_finished := note_done who (view_phase3 v) ph (view_finished v) |}
  else
    let '(ph, q, next) := view_request_step (view_phase2 v) (view_quota v) (view_next_id v) in
    {| view_quota := q; view_next_id := next;
       view_phase2 := ph; view_phase3 := view_phase3 v;
       view_finished := note_done who (view_phase2 v) ph (view_finished v) |}.

(** The views two requests racing for the last slot of a limit of 2 can
    reach, [n] being the id the next instance gets. *)
Definition last_slot_views (n : nat) : list RaceView :=
  let q1 := {| current := 1; limit := 2 |} in
  let q2 := {| current := 2; limit := 2 |} in
  let g := Granted n in
  let view q next ph2 ph3 fin :=
    {| view_quota := q; view_next_id := next; view_phase2 := ph2;
       view_phase3 := ph3; view_finished := fin |} in
  [ view q1 n Pending Pending [];
    view q2 n Provisioning Pending [];
    view q2 n Pending Provisioning [];
    view q2 n Provisioning (Done QuotaExceeded) [(true, QuotaExceeded)];
    view q2 n (Done QuotaExceeded) Provisioning [(false, QuotaExceeded)];
    view q2 (S n) (Done g) Pending [(false, g)];
    view q2 (S n) Pending (Done g) [(true, g)];
    view q2 (S n) (Done g) (Done QuotaExceeded) [(false, g); (true, QuotaExceeded)];
    view q2 (S n) (Done g) (Done QuotaExceeded) [(true, QuotaExceeded); (false, g)];
    view q2 (S n) (Done QuotaExceeded) (Done g) [(true, g); (false, QuotaExceeded)];
    view q2 (S n) (Done QuotaExceeded) (Done g) [(false, QuotaExceeded); (true, g)] ].

Definition phase_rank (ph : Phase) : nat :=
  match ph with
  | Pending => 0
  | Provisioning => 1
  | Done _ => 2
  end.

Definition phase_of (who : bool) (c : Race) : Phase :=
  if who then phase3 c else phase2 c.

(** A pool of one backend. *)
Definition single (key : string) (srv : Server) : Pool :=
  {| backends := [(key, srv)]; cursor := 0 |}.

(** What the race test sees of a finished race: the outcome of each thread
    under its result key, in completion order. *)
Definition race_completions (key : string) (c : Race)
    : list (string * DesktopEnv.Outcome) :=
  map (fun e : bool * StartResult =>
         (if fst e then "concurrent_env3" else "concurrent_env2",
                 client_outcome key (snd e))) (finished c).

End Broker.

(** ** The pool as the release test holds it

    Notions that tie the environments the release test keeps per backend to
    the instances the backends run; they serve to follow the script through
    its three phases. *)

Module ReleaseView.
Import Broker.

(** The instances [ids] run on the backend for [token], all admitted against
    the limit [lim], and nothing else is counted for the token. *)
Definition runs (token : string) (lim : nat) (srv : Server) (ids : list nat) : Prop :=
  ledger srv !! token = Some {| current := length ids; limit := lim |} /\
  length ids <= lim /\
  NoDup ids /\
  Forall (fun id => instances srv !! id = Some token /\ id < next_id srv) ids.

(** The environments held under each backend key are those that run there. *)
Definition in_step (token : string) (lim : nat) (h : ReleaseTest.Held) (p : Pool)
    : Prop :=
  NoDup (map fst (backends p)) /\
  forall i key srv,
    backends p !! i = Some (key, srv) ->
    runs token lim srv
      (map DesktopEnv.emulator_id (default [] (ReleaseTest.by_server h !! key))) /\
    Forall (fun env => DesktopEnv.remote_docker_server env = key)
      (default [] (ReleaseTest.by_server h !! key)).

(** The headroom left on all backends together. *)
Definition total_headroom (token : string) (p : Pool) : nat :=
  sum_list (map (fun b => headroom token (snd b)) (backends p)).

End ReleaseView.

(** ** tests/concurrency_test.py: the other requests, one step, the ramp *)

Module ConcurrencyRun.
Import ConcurrencyTest.

(** [s.lstrip("/")] and [s.rstrip("/")] *)
Fixpoint lstrip_slash (s : string) : string :=
  match s with
  | EmptyString => EmptyString
  | String c rest => if Ascii.eqb c "/" then lstrip_slash rest else s
  end.

Fixpoint rstrip_slash (s : string) : string :=
  match s with
  | EmptyString => EmptyString
  | String c rest =>
      match rstrip_slash rest with
      | EmptyString => if Ascii.eqb c "/" then EmptyString else String c EmptyString
      | kept => String c kept
      end
  end.

(** A run of [n] slashes. *)
Fixpoint slashes (n : nat) : string :=
  match n with
  | O => EmptyString
  | S n' => String "/" (slashes n')
  end.

(** [_join] *)
Definition _join (base path : string) : string :=
  rstrip_slash base +:+ "/" +:+ lstrip_slash path.

(** [ping]: any answer counts, whatever its status. *)
Definition ping (answer : PostResult) : bool * PyDict :=
  match answer with
  | PostRaises msg => (false, [("error", JStr msg)])
  | PostReturns r =>
      (true, [("status_code", JInt (status_code r)); ("text", JStr (text r))])
  end.

(** The common body of [set_token_limit], [stop_emulator], [cleanup] and
    [status]: [r.ok] with the status and the parsed or wrapped body. *)
Definition call (answer : PostResult) : bool * PyDict :=
  match answer with
  | PostRaises msg => (false, [("error", JStr msg)])
  | PostReturns r =>
      (ok r, [("status_code", JInt (status_code r)); ("data", body r)])
  end.

Definition set_token_limit : PostResult -> bool * PyDict := call.
Definition stop_emulator : PostResult -> bool * PyDict := call.
Definition cleanup : PostResult -> bool * PyDict := call.
Definition status : PostResult -> bool * PyDict := call.

(** The id a completed request contributes to [emulator_ids], if any. *)
Definition started_id (post : PostResult) : option Json :=
  if fst (start_emulator post)
  then Some (dict_get "emulator_id" (snd (start_emulator post)))
  else None.

(** What [step_launch_and_hold] returns. *)
Record StepResult := {
  concurrency : Z;
  launched : nat;
  success : nat;
  failures : list PyDict;
  emulator_ids : list Json;
  status_snapshot : PyDict;
  started_at : float;
  finished_at : float;
  duration_secs : float;
}.

(** Lines 155-159, for one completed future. *)
Definition collect (acc : list (bool * PyDict) * list Json) (post : PostResult)
    : list (bool * PyDict) * list Json :=
  let '(results, ids) := acc in
  let '(started, details) := start_emulator post in
  (results ++ [(started, details)],
   if started && bool_decide (is_Some (dict_lookup "emulator_id" details))
   then ids ++ [dict_get "emulator_id" details]
   else ids).

(** [step_launch_and_hold]: [completed] are the answers to the [conc]
    requests in the order their futures complete, [status_answer] the
    answer to [/status], the two floats the clock readings. *)
Definition step_launch_and_hold (conc : Z) (completed : list PostResult)
    (status_answer : PostResult) (started finished : float) : StepResult :=
  let '(results, ids) := fold_left collect completed ([], []) in
  let '(st_ok, st) := status status_answer in
  {| concurrency := conc;
     launched := length results;
     success := length (filter (fun r => fst r = true) results);
     failures := map snd (filter (fun r => fst r = false) results);
     emulator_ids := ids;
     status_snapshot :=
       if st_ok then st else [("ok", JBool false); ("data", JDict st)];
     started_at := started;
     finished_at := finished;
     duration_secs := PrimFloat.sub finished started |}.

(** [range(start, stop, step)] for a positive step. *)
Definition py_range (start stop step : Z) : list Z :=
  map (fun i => (start + Z.of_nat i * step)%Z)
      (seq 0 (Z.to_nat ((stop - start + step - 1) / step))).

(** Parsed command line of [main]. *)
Record Args := {
  max_conc_arg : Z;
  step_arg : Z;
  hold_secs_arg : Z;
  request_timeout_arg : Z;
  stop_between_arg : bool;
  cleanup_arg : string;
}.

(** Lines 197-202 *)
Definition max_conc (args : Args) : Z := Z.max 1 (max_conc_arg args).
Definition step (args : Args) : Z := Z.max 1 (step_arg args).
Definition hold_secs (args : Args) : Z := Z.max 0 (hold_secs_arg args).
Definition request_timeout (args : Args) : Z := Z.max 30 (request_timeout_arg args).
Definition do_cleanup (args : Args) : bool :=
  let s := PyStr.lower (cleanup_arg args) in
  String.eqb s "1" || String.eqb s "true" || String.eqb s "yes" || String.eqb s "y".

(** Line 218 and line 242 *)
Definition desired_limit (args : Args) : Z := (max_conc args + 10)%Z.
Definition ramp (args : Args) : list Z :=
  py_range (step args) (max_conc args + 1) (step args).

(** The server and the file system as [main] meets them: the answer to each
    request, the clock readings of each step, and whether saving the report
    raises. *)
Record World := {
  ping_answer : PostResult;
  limit_answer : PostResult;
  launch_answers : Z -> list PostResult;
  status_answer_at : Z -> PostResult;
  clock_at : Z -> float * float;
  stop_answer : Json -> PostResult;
  cleanup_answer : PostResult;
  save_raises : option string;
}.

(** What [main] does, in order. *)
Inductive Event :=
| Pinged
| LimitSet (limit : Z)
| StepLaunched (conc : Z)
| Stopped (emulator_id : Json)
| ReportSaved
| CleanedUp.

(** [int == v] for a status code. *)
Definition py_eq_status (v : Json) (code : Z) : bool :=
  match v with
  | JInt n => (n =? code)%Z
  | _ => false
  end.

(** Lines 252-256: the snapshot line; [sd.get] raises when the body of a
    200 answer is not an object. *)
Definition print_snapshot (st : PyDict) : Py unit :=
  if py_eq_status (dict_get "status_code" st) 200 then
    match dict_lookup "data" st with
    | None => Ret tt
    | Some sd => _ ← attr_get sd "total_emulators"; mret tt
    end
  else Ret tt.

(** The ids [main] passed to [stop_emulator], in order. *)
Definition stopped_ids (evs : list Event) : list Json :=
  omap (fun e => match e with Stopped emulator_id => Some emulator_id | _ => None end) evs.

(** The levels [main] launched, in order. *)
Definition launched_levels (evs : list Event) : list Z :=
  omap (fun e => match e with StepLaunched conc => Some conc | _ => None end) evs.

(** [isinstance(v, dict)] *)
Definition is_dict (v : Json) : bool :=
  match v with JDict _ => true | _ => false end.

(** The ids the step at level [conc] starts. *)
Definition ids_at (w : World) (conc : Z) : list Json :=
  emulator_ids
    (step_launch_and_hold conc (launch_answers w conc) (status_answer_at w conc)
       (fst (clock_at w conc)) (snd (clock_at w conc))).

(** Whether the snapshot line of the step at level [conc] raises. *)
Definition snapshot_raises (w : World) (conc : Z) : bool :=
  match print_snapshot
          (status_snapshot
             (step_launch_and_hold conc (launch_answers w conc)
                (status_answer_at w conc)
                (fst (clock_at w conc)) (snd (clock_at w conc)))) with
  | Raise _ => true
  | Ret _ => false
  end.

Record Run := {
  events : list Event;
  steps : list StepResult;
  all_started_ids : list Json;
}.

(** One iteration of the loop of lines 242-264: the run after it and the
    exception that leaves the loop, if any.  The step is recorded and its ids
    are kept before the snapshot line can raise. *)
Definition main_step (w : World) (args : Args) (run : Run) (conc : Z)
    : Run * option string :=
  let step_res :=
    step_launch_and_hold conc (launch_answers w conc) (status_answer_at w conc)
      (fst (clock_at w conc)) (snd (clock_at w conc)) in
  let ids := emulator_ids step_res in
  let run1 := {| events := events run ++ [StepLaunched conc];
                 steps := steps run ++ [step_res];
                 all_started_ids := all_started_ids run ++ ids |} in
  match print_snapshot (status_snapshot step_res) with
  | Raise msg => (run1, Some msg)
  | Ret _ =>
      if stop_between_arg args && match ids with [] => false | _ => true end
      then ({| events := events run1 ++ map Stopped ids;
               steps := steps run1;
               all_started_ids := all_started_ids run1 |}, None)
      else (run1, None)
  end.

Fixpoint main_loop (w : World) (args : Args) (levels : list Z) (run : Run)
    : Run * option string :=
  match levels with
  | [] => (run, None)
  | conc :: rest =>
      match main_step w args run conc with
      | (run', None) => main_loop w args rest run'
      | (run', Some msg) => (run', Some msg)
      end
  end.

(** The levels the loop launches, and those it completes, before a snapshot
    line raises. *)
Fixpoint reached (w : World) (levels : list Z) : list Z :=
  match levels with
  | [] => []
  | conc :: rest =>
      if snapshot_raises w conc then [conc] else conc :: reached w rest
  end.

Fixpoint completed_levels (w : World) (levels : list Z) : list Z :=
  match levels with
  | [] => []
  | conc :: rest =>
      if snapshot_raises w conc then [] else conc :: completed_levels w rest
  end.

(** [main] once [os.makedirs("logs", exist_ok=True)] of line 225 has
    returned: the events in order and the exception that escapes, if
    any. *)
Definition main (w : World) (args : Args) : list Event * option string :=
  match ping (ping_answer w) with
  | (false, _) => ([Pinged], None)
  | (true, _) =>
      let run0 := {| events := [Pinged; LimitSet (desired_limit args)];
                     steps := []; all_started_ids := [] |} in
      let '(run, raised) := main_loop w args (ramp args) run0 in
      let '(saved, raised) :=
        match raised with
        | Some msg => ([], Some msg)
        | None =>
            match save_raises w with
            | Some msg => ([], Some msg)
            | None => ([ReportSaved], None)
            end
        end in
      let final_stops :=
        if stop_between_arg args then []
        else map Stopped (all_started_ids run) in
      let final_cleanup := if do_cleanup args then [CleanedUp] else [] in
      (events run ++ saved ++ final_stops ++ final_cleanup, raised)
  end.

(** [main] from its first line.  Line 225 stands between the limit
    change and the [try] of line 241: what [os.makedirs] raises escapes
    before any step is launched, and the [finally] block of lines 277-293,
    with its stops and its cleanup, is not run. *)
Definition main_from_start (makedirs_raises : option string) (w : World)
    (args : Args) : list Event * option string :=
  match ping (ping_answer w), makedirs_raises with
  | (true, _), Some msg => ([Pinged; LimitSet (desired_limit args)], Some msg)
  | _, _ => main w args
  end.

(** A sample server: every launch is granted an id, and [/status] answers
    200 with a JSON list. *)
Definition granted (emulator_id : string) : PostResult :=
  PostReturns {| status_code := 200; text := "";
                 json := Some (JDict [("code", JInt 0);
                                      ("data", JDict [("emulator_id", JStr emulator_id)])]) |}.

Definition plain (code : Z) (data : Json) : Response :=
  {| status_code := code; text := ""; json := Some data |}.

Definition list_status_world : World :=
  {| ping_answer := PostReturns (plain 200 (JStr "pong"));
     limit_answer := PostReturns (plain 200 (JDict []));
     launch_answers := fun conc =>
       if (conc =? 1)%Z then [granted "emu-a"] else [granted "emu-b"; granted "emu-c"];
     status_answer_at := fun conc =>
       if (conc =? 1)%Z then PostReturns (plain 200 (JDict []))
       else PostReturns (plain 200 (JList []));
     clock_at := fun _ => (PrimFloat.zero, PrimFloat.one);
     stop_answer := fun _ => PostReturns (plain 200 (JDict []));
     cleanup_answer := PostReturns (plain 200 (JDict []));
     save_raises := None |}.

Definition two_steps (keep_between : bool) : Args :=
  {| max_conc_arg := 2; step_arg := 1; hold_secs_arg := 0;
     request_timeout_arg := 30; stop_between_arg := negb keep_between;
     cleanup_arg := "true" |}.

End ConcurrencyRun.

(** ** A service that records the calls to [env.close()] *)

Module Recorded.
Import DesktopEnv.

(** The same service, with the environments on which [close] was called
    kept in call order next to its state. *)
Definition recorded {St : Type} (svc : Service St) : Service (St * list Env) :=
  {| new_env := fun s =>
       let '(outcome, st') := new_env svc (fst s) in (outcome, (st', snd s));
     close := fun env s =>
       let '(closed, st') := close svc env (fst s) in (closed, (st', snd s ++ [env]));
     tokens := fun key s => tokens svc key (fst s) |}.


End Recorded.

(** ** tests/run_all_examples.py, tests/rerun_failures.py and
       uitars_run/run_uitars.py: one example, the summary *)

Module ExampleRunner.
Import ConcurrencyTest.

(** [ping] of the three scripts: [r.ok], [False] when the request raises. *)
Definition ping (answer : PostResult) : bool :=
  match answer with
  | PostRaises _ => false
  | PostReturns r => ok r
  end.

(** [a or b] *)
Definition py_or (a b : Json) : Json := if truthy a then a else b.

(** [v == text] for a string literal. *)
Definition py_eq_str (v : Json) (literal : string) : bool :=
  match v with
  | JStr s => String.eqb s literal
  | _ => false
  end.

(** [base / task_id] on a [Path]: only a string can be joined. *)
Definition path_join (task_id : Json) : Py string :=
  match task_id with
  | JStr s => Ret s
  | _ => Raise ("unsupported operand type(s) for /: 'PosixPath' and '"
                +:+ type_name task_id +:+ "'")
  end.

(** [os.path.join(..., example_id)]: only a string can be joined. *)
Definition os_path_join (example_id : Json) : Py string :=
  match example_id with
  | JStr s => Ret s
  | _ => Raise ("join() argument must be str, bytes, or os.PathLike object, not '"
                +:+ type_name example_id +:+ "'")
  end.

(** [example.get(key, default)] *)
Definition attr_get_default (v : Json) (key : string) (default : Json) : Py Json :=
  match v with
  | JDict members =>
      Ret (match dict_lookup key members with Some x => x | None => default end)
  | _ => Raise ("'" +:+ type_name v +:+ "' object has no attribute 'get'")
  end.

(** What one run meets outside the script: whether creating the output
    directory, writing [example.json], importing [DesktopEnv], the
    constructor [DesktopEnv(...)] and writing [error.json] raise, and the
    outcome of the statements between the constructor and the [return] of
    the [try] block (reset, observation, files, evaluation), which is the
    score entry of the result. *)
Record Attempt := {
  mkdir_raises : option string;
  copy_raises : option string;
  import_raises : option string;
  constructor_raises : option string;
  body : Py Json;
  error_json_raises : option string;
}.

(** What a run does to the world, in order. *)
Inductive Event :=
| MadeDir
| WroteExample
| Constructed
| WroteError
| Closed.

#[global] Instance Event_eq_dec : EqDecision Event.
Proof. solve_decision. Defined.

(** What a run gives: the dict returned or the exception that escapes, and
    what it did.  A constructed environment is truthy, so [if env:] holds
    exactly when the constructor returned; [env.close()] is recorded whether
    it raises or not, the scripts catching what it raises. *)
Record Ran := {
  returned : Py PyDict;
  events : list Event;
}.

Definition failed (task_id : Json) : PyDict :=
  [("task_id", task_id); ("status", JStr "failed")].

Definition succeeded (task_id score : Json) : PyDict :=
  [("task_id", task_id); ("status", JStr "success"); ("score", score)].

Definition escaped (msg : string) (done : list Event) : Ran :=
  {| returned := Raise msg; events := done |}.

(** The [try]/[except]/[finally] of [run_single_example] (lines 97-160) and
    of [run_single_example_from_payload] (lines 135-192): the handler
    closes the environment after writing [error.json], and the [finally]
    block closes it again. *)
Definition with_env (task_id : Json) (a : Attempt) (done : list Event) : Ran :=
  match constructor_raises a with
  | Some _ =>
      match error_json_raises a with
      | Some msg => escaped msg done
      | None => {| returned := Ret (failed task_id); events := done ++ [WroteError] |}
      end
  | None =>
      match body a with
      | Ret score =>
          {| returned := Ret (succeeded task_id score);
             events := done ++ [Constructed; Closed] |}
      | Raise _ =>
          match error_json_raises a with
          | Some msg => escaped msg (done ++ [Constructed; Closed])
          | None =>
              {| returned := Ret (failed task_id);
                 events := done ++ [Constructed; WroteError; Closed; Closed] |}
          end
      end
  end.

(** [run_single_example] of run_all_examples.py: [loaded] is
    [json.loads(example_path.read_text())], [stem] is [example_path.stem]. *)
Definition run_single_example (loaded : Py Json) (stem : string) (a : Attempt) : Ran :=
  match loaded with
  | Raise msg => escaped msg []
  | Ret example_data =>
      match attr_get example_data "id" with
      | Raise msg => escaped msg []
      | Ret v =>
          let task_id := py_or v (JStr stem) in
          match path_join task_id with
          | Raise msg => escaped msg []
          | Ret _ =>
              match mkdir_raises a with
              | Some msg => escaped msg []
              | None =>
                  match copy_raises a with
                  | Some msg => escaped msg [MadeDir]
                  | None =>
                      match import_raises a with
                      | Some msg => escaped msg [MadeDir; WroteExample]
                      | None => with_env task_id a [MadeDir; WroteExample]
                      end
                  end
              end
          end
      end
  end.

(** [run_single_example_from_payload] of rerun_failures.py: writing
    [example.json] is guarded. *)
Definition run_single_example_from_payload (task_id : Json) (a : Attempt) : Ran :=
  match path_join task_id with
  | Raise msg => escaped msg []
  | Ret _ =>
      match mkdir_raises a with
      | Some msg => escaped msg []
      | None =>
          let done := match copy_raises a with
                      | Some _ => [MadeDir]
                      | None => [MadeDir; WroteExample]
                      end in
          match import_raises a with
          | Some msg => escaped msg done
          | None => with_env task_id a done
          end
      end
  end.

(** [_prepare_and_run] of rerun_failures.py: [loaded] is what
    [load_example_from_testtotal(tid)] returned, reached once the paths
    under [testtotal] could be built from [tid]. *)
Definition _prepare_and_run (tid : Json) (loaded : option Json) (a : Attempt) : Ran :=
  match path_join tid with
  | Raise msg => escaped msg []
  | Ret _ =>
      match loaded with
      | None =>
          match mkdir_raises a with
          | Some msg => escaped msg []
          | None =>
              match error_json_raises a with
              | Some msg => escaped msg [MadeDir]
              | None => {| returned := Ret (failed tid);
                           events := [MadeDir; WroteError] |}
              end
          end
      | Some example_data =>
          match attr_get example_data "id" with
          | Raise msg => escaped msg []
          | Ret v => run_single_example_from_payload (py_or v tid) a
          end
      end
  end.

(** What one run of [run_one_example] of run_uitars.py meets: creating the
    result directory, loading the example, the agent constructor, the
    environment constructor, [lib_run_single.run_single_example], appending
    to [traj.jsonl]. *)
Record AgentAttempt := {
  makedirs_raises : option string;
  example : Py Json;
  agent_raises : option string;
  env_raises : option string;
  run_raises : option string;
  traj_raises : option string;
}.

(** The [return] of line 293, inside the [try] whose [finally] closes. *)
Definition report (example_data example_id : Json) (status : string)
    (done : list Event) : Ran :=
  match attr_get_default example_data "id" example_id with
  | Raise msg => escaped msg (done ++ [Closed])
  | Ret task_id =>
      {| returned := Ret [("task_id", task_id); ("status", JStr status)];
         events := done ++ [Closed] |}
  end.

(** Lines 262-299 of run_uitars.py: the environment is closed in the
    [finally] block only; a failure is recorded in [traj.jsonl]. *)
Definition run_in_env (example_data example_id : Json) (a : AgentAttempt) : Ran :=
  match env_raises a with
  | Some msg => escaped msg [MadeDir]
  | None =>
      match run_raises a with
      | None => report example_data example_id "success" [MadeDir; Constructed]
      | Some _ =>
          match traj_raises a with
          | Some msg => escaped msg [MadeDir; Constructed; Closed]
          | None =>
              report example_data example_id "failed"
                [MadeDir; Constructed; WroteError]
          end
      end
  end.

(** [run_one_example] of run_uitars.py. *)
Definition run_one_example (example_id : Json) (a : AgentAttempt) : Ran :=
  match os_path_join example_id with
  | Raise msg => escaped msg []
  | Ret _ =>
      match makedirs_raises a with
      | Some msg => escaped msg []
      | None =>
          match example a with
          | Raise msg => escaped msg [MadeDir]
          | Ret example_data =>
              match attr_get_default example_data "instruction" (JStr "") with
              | Raise msg => escaped msg [MadeDir]
              | Ret _ =>
                  match agent_raises a with
                  | Some msg => escaped msg [MadeDir]
                  | None => run_in_env example_data example_id a
                  end
              end
          end
      end
  end.

(** How often [env.close()] was called. *)
Definition closes (r : Ran) : nat :=
  length (filter (fun e => e = Closed) (events r)).

(** Whether a run returned a dict with the given status. *)
Definition has_status (r : Ran) (status : string) : bool :=
  match returned r with
  | Ret d => py_eq_str (dict_get "status" d) status
  | Raise _ => false
  end.

(** The way a guarded run of run_all_examples.py and rerun_failures.py
    treats its environment and its files: no close without a constructed
    environment, one close for a constructed one, a second one when the run
    is reported as failed; [error.json] is written exactly for the runs
    reported as failed; a run that returns reports one of the two statuses
    and a string as task id. *)
Definition closes_by_status (r : Ran) : Prop :=
  closes r
  = (if bool_decide (Constructed ∈ events r)
     then if has_status r "failed" then 2 else 1
     else 0) /\
  (WroteError ∈ events r <-> has_status r "failed" = true) /\
  (has_status r "success" = true \/ has_status r "failed" = true
   <-> exists d, returned r = Ret d) /\
  match returned r with
  | Ret d => exists name, dict_get "task_id" d = JStr name
  | Raise _ => True
  end.

(** The loop over [as_completed(futs)] of the three scripts: a future that
    raised is skipped, the others add their task id to one of the lists. *)
Record Summary := {
  successes : list Json;
  failures : list Json;
}.

Definition tally_result (s : Summary) (res : Py PyDict) : Summary :=
  match res with
  | Raise _ => s
  | Ret d =>
      let task_id := dict_get "task_id" d in
      if py_eq_str (dict_get "status" d) "success"
      then {| successes := successes s ++ [task_id]; failures := failures s |}
      else {| successes := successes s; failures := failures s ++ [task_id] |}
  end.

Definition collect_results (completed : list (Py PyDict)) : Summary :=
  fold_left tally_result completed {| successes := []; failures := [] |}.

(** The summary dict of run_all_examples.py, lines 211-222; the three
    floats are the clock readings. *)
Definition summary (token : string) (max_workers : Z) (examples_total : nat)
    (s : Summary) (start_global finished later : float) : PyDict :=
  [("token", JStr token);
   ("max_workers", JInt max_workers);
   ("examples_total", JInt (Z.of_nat examples_total));
   ("successes", JList (successes s));
   ("failures", JList (failures s));
   ("success_count", JInt (Z.of_nat (length (successes s))));
   ("failure_count", JInt (Z.of_nat (length (failures s))));
   ("started_at", JFloat start_global);
   ("finished_at", JFloat finished);
   ("duration_secs", JFloat (PrimFloat.sub later start_global))].

(** What [main] of run_all_examples.py meets besides the runs: whether
    [OUT_BASE.mkdir] (line 176), the listing of the examples (line 187) and
    the writing of [summary.json] (line 223) raise, none of them being
    guarded, and the answer to the ping. *)
Record Surroundings := {
  out_base_raises : option string;
  ping_answer : PostResult;
  listing_raises : option string;
  summary_raises : option string;
}.

(** How [main] ends: by [sys.exit(status)], by an exception that escapes,
    or by returning after the summary is written. *)
Inductive Ending :=
| Exited (status : Z)
| Raised (msg : string)
| SummaryWritten (summary : PyDict).

(** [main] of run_all_examples.py, lines 176-224.  [completed] holds what
    the futures gave, in completion order; [set_token_limit] catches what
    it raises. *)
Definition main (w : Surroundings) (token : string) (max_workers_arg : Z)
    (completed : list (Py PyDict)) (start_global finished later : float)
    : Ending :=
  match out_base_raises w with
  | Some msg => Raised msg
  | None =>
      if ping (ping_answer w)
      then
        match listing_raises w with
        | Some msg => Raised msg
        | None =>
            match summary_raises w with
            | Some msg => Raised msg
            | None =>
                SummaryWritten
                  (summary token (Z.max 1 max_workers_arg) (length completed)
                     (collect_results completed) start_global finished later)
            end
        end
      else Exited 1%Z
  end.

(** The exit status of the process: an exception that escapes [main] ends
    the interpreter with status 1. *)
Definition exit_status (e : Ending) : Z :=
  match e with
  | Exited status => status
  | Raised _ => 1%Z
  | SummaryWritten _ => 0%Z
  end.

(** [load_failures] of rerun_failures.py: [file] is [None] when the path
    does not exist, else the outcome of parsing its text. *)
Definition load_failures (summary_path : string) (file : option (Py Json))
    : Py (list Json) :=
  match file with
  | None => Raise ("summary.json not found at " +:+ summary_path)
  | Some (Raise msg) => Raise msg
  | Some (Ret data) =>
      failures ← attr_get_default data "failures" (JList []);
      match failures with
      | JList items => Ret items
      | _ => Raise "Invalid summary.json format: 'failures' is not a list"
      end
  end.








End ExampleRunner.

(** ** uitars_run/run_uitars.py: resuming an experiment *)

Module Uitars.
Import ConcurrencyTest.

(** The result directory as the script walks it: a plain file, or a
    directory with its entries by name.  [os.listdir] is the list of the
    entries of the map. *)
Inductive Node :=
| File
| Dir (entries : gmap string Node).

Definition is_file (n : Node) : bool :=
  match n with File => true | Dir _ => false end.

(** ["result.txt" in os.listdir(example_path)] *)
Definition has_result (files : gmap string Node) : bool :=
  bool_decide (is_Some (files !! "result.txt")).

(** Lines 366-367: [os.remove] on every entry; it raises on a directory. *)
Definition remove_files (files : gmap string Node) : Py (gmap string Node) :=
  if bool_decide (map_Forall (fun _ n => is_file n = true) files)
  then Ret ∅
  else Raise "Is a directory".

(** Lines 360-369 for one entry of a domain directory: the entry afterwards
    and whether it counts as finished. *)
Definition visit_example (example_id : string) (node : Node) : Py (Node * bool) :=
  if String.eqb example_id "onboard" then Ret (node, false)
  else
    match node with
    | File => Ret (node, false)
    | Dir files =>
        if has_result files then Ret (node, true)
        else files' ← remove_files files; Ret (Dir files', false)
    end.

(** Lines 359-369: the entries of a domain directory afterwards and the
    finished examples. *)
Definition visit_domain (examples : gmap string Node)
    : Py (gmap string Node * list string) :=
  map_fold (fun example_id node acc =>
      '(seen, finished) ← acc;
      '(node', done) ← visit_example example_id node;
      Ret (<[example_id := node']> seen,
           if done : bool then finished ++ [example_id] else finished))
    (Ret (∅, [])) examples.

(** Lines 354-369: the target directory afterwards and the dict
    [finished]. *)
Definition visit_target (target : gmap string Node)
    : Py (gmap string Node * gmap string (list string)) :=
  map_fold (fun domain node acc =>
      '(seen, finished) ← acc;
      match node with
      | File => Ret (<[domain := node]> seen, <[domain := []]> finished)
      | Dir examples =>
          '(examples', done) ← visit_domain examples;
          Ret (<[domain := Dir examples']> seen, <[domain := done]> finished)
      end)
    (Ret (∅, ∅)) target.

(** [x not in examples] for an entry of the index and the names found. *)
Definition not_in (x : Json) (examples : list string) : bool :=
  match x with
  | JStr example_id => negb (bool_decide (example_id ∈ examples))
  | _ => true
  end.

(** Lines 374-378 *)
Definition prune (finished : gmap string (list string))
    (total_file_json : gmap string (list Json)) : gmap string (list Json) :=
  map_fold (fun domain examples total =>
      match total !! domain with
      | Some ids =>
          <[domain := filter (fun x => not_in x examples = true) ids]> total
      | None => total
      end)
    total_file_json finished.

(** [get_unfinished]: [target] is the directory
    [result_dir/action_space/observation_type/model], absent when the path
    does not exist.  The result is the index to run and the directory
    afterwards. *)
Definition get_unfinished (target : option Node)
    (total_file_json : gmap string (list Json))
    : Py (gmap string (list Json) * option Node) :=
  match target with
  | None => Ret (total_file_json, None)
  | Some File => Raise "Not a directory"
  | Some (Dir domains) =>
      '(domains', finished) ← visit_target domains;
      if bool_decide (finished = ∅)
      then Ret (total_file_json, Some (Dir domains'))
      else Ret (prune finished total_file_json, Some (Dir domains'))
  end.

(** *** Derived notions used to state what [get_unfinished] does *)

(** An entry of the index that the directory shows as finished. *)
Definition is_finished (domains : gmap string Node) (domain : string) (x : Json)
    : bool :=
  match x, domains !! domain with
  | JStr example_id, Some (Dir examples) =>
      negb (String.eqb example_id "onboard") &&
      match examples !! example_id with
      | Some (Dir files) => has_result files
      | _ => false
      end
  | _, _ => false
  end.

(** An example directory that the walk empties. *)
Definition is_unfinished (example_id : string) (node : Node) : bool :=
  negb (String.eqb example_id "onboard") &&
  match node with
  | Dir files => negb (has_result files)
  | File => false
  end.

(** An entry afterwards, when the walk does not raise. *)
Definition swept_example (example_id : string) (node : Node) : Node :=
  if is_unfinished example_id node then Dir ∅ else node.

Definition swept_domain (node : Node) : Node :=
  match node with
  | File => File
  | Dir examples => Dir (map_imap (fun id n => Some (swept_example id n)) examples)
  end.

(** Whether emptying an example directory raises. *)
Definition blocked (example_id : string) (node : Node) : bool :=
  is_unfinished example_id node &&
  match node with
  | Dir files => negb (bool_decide (map_Forall (fun _ n => is_file n = true) files))
  | File => false
  end.

(** [sorted(keys)] for distinct strings: the order of [str], by code
    point, which on UTF-8 bytes is the order of the bytes. *)
Definition str_le (a b : string) : Prop := String.leb a b = true.

#[global] Instance str_le_dec : RelDecision str_le.
Proof. intros a b. unfold str_le. apply _. Defined.

Definition sorted (keys : list string) : list string :=
  merge_sort str_le keys.

(** Lines 312-316 of [test]: the tasks in the order they are submitted. *)
Definition tasks (test_all_meta : gmap string (list Json)) : list (string * Json) :=
  flat_map (fun domain => map (pair domain) (default [] (test_all_meta !! domain)))
    (sorted (map fst (map_to_list test_all_meta))).

(** [ping], lines 67-76: [r.ok], [False] when the request raises. *)
Definition ping (answer : PostResult) : bool :=
  match answer with
  | PostRaises _ => false
  | PostReturns r => ok r
  end.

(** [test], lines 303-337, as far as the tasks it hands to the pool are
    concerned: it returns at line 308, before building any task, when the
    ping fails. *)
Definition test (answer : PostResult) (test_all_meta : gmap string (list Json))
    : list (string * Json) :=
  if ping answer then tasks test_all_meta else [].

(** An example file as [load_data_json_list] meets it. *)
Inductive Loaded :=
| Missing
| Broken (msg : string)
| Parsed (data : Json).

(** Lines 128-144 for the ids of one app. *)
Fixpoint load_samples (strict : bool) (file_of : Json -> Loaded)
    (ids : list Json) (data_json_list : list Json) : Py (list Json) :=
  match ids with
  | [] => Ret data_json_list
  | sample_id :: rest =>
      match file_of sample_id with
      | Missing =>
          if strict then Raise "Missing example file"
          else load_samples strict file_of rest data_json_list
      | Broken msg =>
          if strict then Raise msg
          else load_samples strict file_of rest data_json_list
      | Parsed data => load_samples strict file_of rest (data_json_list ++ [data])
      end
  end.

(** Lines 123-144: an entry of the index that is no list is skipped, in
    strict mode as well. *)
Fixpoint load_apps (strict : bool) (file_at : string -> Json -> Loaded)
    (index_data : PyDict) (apps : list string) (data_json_list : list Json)
    : Py (list Json) :=
  match apps with
  | [] => Ret data_json_list
  | app :: rest =>
      match dict_get app index_data with
      | JList ids =>
          match load_samples strict (file_at app) ids data_json_list with
          | Ret data_json_list' => load_apps strict file_at index_data rest data_json_list'
          | Raise msg => Raise msg
          end
      | _ => load_apps strict file_at index_data rest data_json_list
      end
  end.

(** [load_data_json_list]: [index] is [None] when the index file does not
    exist, else the outcome of parsing it; [file_at app sample_id] is the
    file [examples_root/app/{sample_id}.json]. *)
Definition load_data_json_list (index : option (Py Json))
    (file_at : string -> Json -> Loaded) (keys : option (list string))
    (strict : bool) : Py (list Json) :=
  match index with
  | None => if strict then Raise "Index file not found" else Ret []
  | Some (Raise msg) => if strict then Raise msg else Ret []
  | Some (Ret (JDict index_data)) =>
      let target_keys :=
        match keys with
        | Some (key :: more) => remove_dups (key :: more)
        | _ => remove_dups (map fst index_data)
        end in
      load_apps strict file_at index_data (sorted target_keys) []
  | Some (Ret _) => if strict then Raise "Index JSON is not an object" else Ret []
  end.

(** *** Derived notions used to state what [load_data_json_list] does *)

(** The apps read for an index and the [keys] argument:
    [set(keys) if keys else set(index_data.keys())], sorted. *)
Definition target_keys (keys : option (list string)) (index_data : PyDict)
    : list string :=
  sorted (match keys with
          | Some (key :: more) => remove_dups (key :: more)
          | _ => remove_dups (map fst index_data)
          end).

(** The example files an index names for these apps, in the order they are
    probed when none makes the loader stop. *)
Definition named_files (file_at : string -> Json -> Loaded)
    (index_data : PyDict) (apps : list string) : list Loaded :=
  flat_map (fun app => match dict_get app index_data with
                       | JList ids => map (file_at app) ids
                       | _ => []
                       end) apps.

Definition parsed_data (f : Loaded) : option Json :=
  match f with
  | Parsed data => Some data
  | _ => None
  end.

(** The exception of the first file that is missing or does not parse. *)
Fixpoint first_failure (files : list Loaded) : option string :=
  match files with
  | [] => None
  | Missing :: _ => Some "Missing example file"
  | Broken msg :: _ => Some msg
  | Parsed _ :: rest => first_failure rest
  end.

End Uitars.

(** * Properties *)

(** ** Strings *)

Module PyStrFacts.
Import PyStr.

Lemma append_String a s t : String a s +:+ t = String a (s +:+ t).
Proof. reflexivity. Qed.

Lemma append_empty t : "" +:+ t = t.
Proof. reflexivity. Qed.

Lemma prefix_app (p s : string) :
  String.prefix p s = true <-> exists rest, s = p +:+ rest.
Proof.
  revert s. induction p as [|a p IH]; intros s.
  - split; [intros _; by exists s | by destruct s].
  - destruct s as [|b s]; simpl.
    + split; [done | intros [rest H]; discriminate].
    + destruct (Ascii.ascii_dec a b) as [->|Hne].
      * rewrite IH. split; intros [rest H]; exists rest;
          rewrite append_String in *; congruence.
      * split; [done | intros [rest H]; rewrite append_String in H; congruence].
Qed.

(** [contains] is the substring relation of Python's [in]. *)
Lemma contains_spec (p s : string) :
  contains p s = true <-> exists before after, s = before +:+ p +:+ after.
Proof.
  induction s as [|b s IH].
  - change (contains p "") with (String.prefix p "" || false).
    rewrite orb_false_r, prefix_app. split.
    + intros [rest H]. exists EmptyString, rest. done.
    + intros [[|c before] [after H]]; [by exists after | discriminate].
  - change (contains p (String b s))
      with (String.prefix p (String b s) || contains p s).
    rewrite orb_true_iff, IH, prefix_app. split.
    + intros [[rest H] | [before [after H]]].
      * exists EmptyString, rest. done.
      * exists (String b before), after. rewrite append_String. by rewrite H.
    + intros [[|c before] [after H]].
      * left. by exists after.
      * right. exists before, after. rewrite append_String in H. congruence.
Qed.

Example contains_inside :
  contains "osworld" "happysixd/osworld-docker:latest" = true
  /\ contains "osworld" "happysixd/ubuntu:22.04" = false
  /\ contains "" "" = true.
Proof. repeat split. Qed.

Example lower_keeps_other_bytes :
  lower "Token QUOTA Exceeded (429)" = "token quota exceeded (429)"
  /\ lower chao_guo = chao_guo.
Proof. split; reflexivity. Qed.

End PyStrFacts.

(** ** The janitor *)

Module JanitorFacts.
Import Janitor.

Example age_of_ninety_seconds :
  get_container_age_minutes 90000000
    {| id := "3f2a9c41d07b"; image := ImageNone;
       created_dt := Some {| wall_us := 0; utcoffset_us := Some 0%Z |};
       remove_raises := false |} = Some 1%Z.
Proof. reflexivity. Qed.

Example age_with_offset :
  get_container_age_minutes 0
    {| id := "3f2a9c41d07b"; image := ImageNone;
       created_dt := Some {| wall_us := 0; utcoffset_us := Some 28800000000%Z |};
       remove_raises := false |} = Some 480%Z.
Proof. reflexivity. Qed.

Example image_filter :
  map id
    (matching_containers "happysixd/osworld-docker"
       [ {| id := "aaa"; image := ImageTags ["ubuntu:22.04"];
            created_dt := None; remove_raises := false |};
         {| id := "bbb";
            image := ImageTags ["registry.local/happysixd/osworld-docker:v2"; "x"];
            created_dt := None; remove_raises := false |};
         {| id := "ccc"; image := ImageRaises;
            created_dt := None; remove_raises := false |};
         {| id := "ddd"; image := ImageNone;
            created_dt := None; remove_raises := false |} ])
  = ["bbb"].
Proof. reflexivity. Qed.

Lemma sweep_eq (s1 s2 : Sweep) :
  removed_count s1 = removed_count s2 -> failed_count s1 = failed_count s2 ->
  trace s1 = trace s2 -> s1 = s2.
Proof. destruct s1, s2; simpl; intros; subst; reflexivity. Qed.

Lemma sweep_plus_assoc s1 s2 s3 :
  sweep_plus (sweep_plus s1 s2) s3 = sweep_plus s1 (sweep_plus s2 s3).
Proof. apply sweep_eq; simpl; [lia | lia | by rewrite <- app_assoc]. Qed.

Lemma sweep_plus_0_l s : sweep_plus sweep0 s = s.
Proof. by apply sweep_eq. Qed.

Lemma sweep_plus_0_r s : sweep_plus s sweep0 = s.
Proof. apply sweep_eq; simpl; [lia | lia | by rewrite app_nil_r]. Qed.

Lemma process_container_plus now m d s c :
  process_container now m d s c = sweep_plus s (process_container now m d sweep0 c).
Proof.
  unfold process_container.
  destruct (get_container_age_minutes now c) as [a|];
    [destruct (a >=? m)%Z; [destruct d; [|destruct (remove_raises c)]|]|];
    apply sweep_eq; simpl; lia || reflexivity.
Qed.

Lemma fold_process_plus now m d l s :
  fold_left (process_container now m d) l s = sweep_plus s (process_all now m d l).
Proof.
  unfold process_all. revert s. induction l as [|c l IH]; intros s; simpl.
  - by rewrite sweep_plus_0_r.
  - rewrite IH, (IH (process_container _ _ _ sweep0 c)), <- sweep_plus_assoc.
    by rewrite <- process_container_plus.
Qed.

Lemma process_all_app now m d l1 l2 :
  process_all now m d (l1 ++ l2)
  = sweep_plus (process_all now m d l1) (process_all now m d l2).
Proof.
  unfold process_all at 1 2. rewrite fold_left_app. apply fold_process_plus.
Qed.

Lemma process_all_cons now m d c l :
  process_all now m d (c :: l)
  = sweep_plus (process_container now m d sweep0 c) (process_all now m d l).
Proof. unfold process_all at 1. simpl. apply fold_process_plus. Qed.

Lemma process_container_outcome now m d c :
  trace (process_container now m d sweep0 c) = [(c, outcome now m d c)]
  /\ removed_count (process_container now m d sweep0 c)
     = (if is_removal (outcome now m d c) then 1 else 0)
  /\ failed_count (process_container now m d sweep0 c)
     = (if is_failure (outcome now m d c) then 1 else 0).
Proof.
  unfold process_container, outcome.
  destruct (get_container_age_minutes now c) as [a|];
    [destruct (a >=? m)%Z; [destruct d; [|destruct (remove_raises c)]|]|];
    simpl; auto.
Qed.

(** The trace lists every container handed to the loop, in order, with the
    decision of the loop body; the two counters count its entries. *)
Lemma process_all_trace now m d l :
  trace (process_all now m d l) = map (fun c => (c, outcome now m d c)) l.
Proof.
  induction l as [|c l IH]; [reflexivity|].
  rewrite process_all_cons. simpl.
  destruct (process_container_outcome now m d c) as (-> & _ & _).
  by rewrite IH.
Qed.

Lemma process_all_counts now m d l :
  removed_count (process_all now m d l)
    = length (filter (fun c => is_removal (outcome now m d c) = true) l)
  /\ failed_count (process_all now m d l)
    = length (filter (fun c => is_failure (outcome now m d c) = true) l).
Proof.
  induction l as [|c l [IHr IHf]]; [done|].
  rewrite process_all_cons. simpl.
  destruct (process_container_outcome now m d c) as (_ & -> & ->).
  rewrite IHr, IHf, !filter_cons.
  split; case_decide as H; destruct (_ (outcome now m d c)); simpl; congruence.
Qed.

Lemma sweep_running now image m d all :
  remove_old_containers (Running all) now image m d
  = process_all now m d (matching_containers image all).
Proof.
  unfold remove_old_containers, process_all.
  by destruct (matching_containers image all).
Qed.

Lemma elem_of_selected now m d l c :
  c ∈ selected (process_all now m d l)
  <-> c ∈ l /\ exists a, get_container_age_minutes now c = Some a /\ (a >= m)%Z.
Proof.
  unfold selected. rewrite process_all_trace, list_elem_of_omap. split.
  - intros [[c' o] [Hin Ho]]. apply list_elem_of_fmap in Hin as [x [Heq Hx]].
    injection Heq as -> ->. simpl in Ho. unfold outcome in Ho.
    destruct (get_container_age_minutes now x) as [a|] eqn:Ha; [|done].
    destruct (a >=? m)%Z eqn:Hge; [|done].
    assert (x = c) as -> by (destruct d; congruence).
    split; [done|]. exists a. split; [done | lia].
  - intros [Hin [a [Ha Hge]]]. exists (c, outcome now m d c). split.
    + apply list_elem_of_fmap. by exists c.
    + simpl. unfold outcome. rewrite Ha.
      destruct (a >=? m)%Z eqn:E; [by destruct d | lia].
Qed.

Lemma elem_of_removed now m d l c :
  c ∈ removed (process_all now m d l)
  <-> d = false /\ c ∈ l /\ remove_raises c = false
      /\ exists a, get_container_age_minutes now c = Some a /\ (a >= m)%Z.
Proof.
  unfold removed. rewrite process_all_trace, list_elem_of_omap. split.
  - intros [[c' o] [Hin Ho]]. apply list_elem_of_fmap in Hin as [x [Heq Hx]].
    injection Heq as -> ->. simpl in Ho. unfold outcome in Ho.
    destruct (get_container_age_minutes now x) as [a|] eqn:Ha; [|done].
    destruct (a >=? m)%Z eqn:Hge; [|done].
    destruct d; [done|]. destruct (remove_raises x) eqn:Hr; [done|].
    simpl in Ho. injection Ho as ->.
    repeat split; [done..|]. exists a. split; [done | lia].
  - intros (-> & Hin & Hr & a & Ha & Hge). exists (c, outcome now m false c). split.
    + apply list_elem_of_fmap. by exists c.
    + simpl. unfold outcome. rewrite Ha, Hr.
      destruct (a >=? m)%Z eqn:E; [done | lia].
Qed.

Lemma selected_dry_real now m l :
  selected (process_all now m true l) = selected (process_all now m false l).
Proof.
  unfold selected. rewrite !process_all_trace.
  induction l as [|c l IH]; [done|]. cbn [map omap list_omap]. rewrite IH. cbn. unfold outcome.
  destruct (get_container_age_minutes now c) as [a|]; [|done].
  by destruct (a >=? m)%Z.
Qed.

Lemma removed_dry now m l : removed (process_all now m true l) = [].
Proof.
  unfold removed. rewrite process_all_trace.
  induction l as [|c l IH]; [done|]. cbn [map omap list_omap]. rewrite IH. cbn. unfold outcome.
  destruct (get_container_age_minutes now c) as [a|]; [|done].
  by destruct (a >=? m)%Z.
Qed.

Lemma outcome_dry now m c b : outcome now m true c <> RemoveCalled b.
Proof.
  unfold outcome. destruct (get_container_age_minutes now c) as [a|]; [|done].
  by destruct (a >=? m)%Z.
Qed.

Lemma removed_count_dry now m l :
  removed_count (process_all now m true l)
  = length (selected (process_all now m true l)).
Proof.
  destruct (process_all_counts now m true l) as [-> _].
  unfold selected. rewrite process_all_trace.
  induction l as [|c l IH]; [done|]. rewrite filter_cons. cbn [map omap list_omap].
  cbn [snd fst]. pose proof (outcome_dry now m c) as Hdry.
  destruct (outcome now m true c) as [| |b|];
    case_decide; simpl in *; try congruence.
  by destruct (Hdry b).
Qed.

Lemma failed_count_trace now m d l :
  failed_count (process_all now m d l)
  = length (filter (fun e => is_failure (snd e) = true) (trace (process_all now m d l))).
Proof.
  destruct (process_all_counts now m d l) as [_ ->]. rewrite process_all_trace.
  induction l as [|c l IH]; [done|]. cbn [map]. rewrite !filter_cons. cbn [snd].
  case_decide; simpl; congruence.
Qed.

Lemma sweep_failed_count_trace env now image m d :
  failed_count (remove_old_containers env now image m d)
  = length (filter (fun e => is_failure (snd e) = true)
                   (trace (remove_old_containers env now image m d))).
Proof.
  destruct env as [| |all]; [done | done |].
  rewrite sweep_running. apply failed_count_trace.
Qed.

(** C2, as stated, fails: a container old enough whose removal raises is
    selected but stays; the sweep reports no removal and one failure. *)
Lemma unremovable_old_container_stays :
  let c := {| id := "3f2a9c41d07b";
              image := ImageTags ["happysixd/osworld-docker:latest"];
              created_dt := Some {| wall_us := 0; utcoffset_us := Some 0%Z |};
              remove_raises := true |} in
  let s := remove_old_containers (Running [c]) 600000000
             "happysixd/osworld-docker" 5 false in
  c ∈ matching_containers "happysixd/osworld-docker" [c]
  /\ get_container_age_minutes 600000000 c = Some 10%Z
  /\ (10 >= 5)%Z
  /\ removed s = []
  /\ result s = (0, 1).
Proof.
  repeat split; try reflexivity; try lia.
  vm_compute. apply list_elem_of_here.
Qed.

(** C2, amended: for every container of the managed image whose age can be
    computed, the sweep takes the removal branch (the remove call in a real
    run, the would-remove count in a dry run) iff
    [age_minutes >= min_age_minutes]; in a real run the container is gone iff
    moreover the remove call does not raise; a dry run selects exactly the
    containers a real run selects, removes none, and counts each of them. *)
Theorem sweep_selects_by_age now image m all c a :
  c ∈ matching_containers image all ->
  get_container_age_minutes now c = Some a ->
  let real := remove_old_containers (Running all) now image m false in
  let dry := remove_old_containers (Running all) now image m true in
  (c ∈ selected real <-> (a >= m)%Z) /\
  (c ∈ selected dry <-> (a >= m)%Z) /\
  (c ∈ removed real <-> (a >= m)%Z /\ remove_raises c = false) /\
  selected dry = selected real /\
  removed dry = [] /\
  removed_count dry = length (selected dry).
Proof.
  intros Hin Ha real dry. subst real dry. rewrite !sweep_running.
  split; [|split; [|split; [|split; [|split]]]].
  - rewrite elem_of_selected. split.
    + intros (_ & a' & Heq & Hge). congruence.
    + intros Hge. split; [done | by exists a].
  - rewrite elem_of_selected. split.
    + intros (_ & a' & Heq & Hge). congruence.
    + intros Hge. split; [done | by exists a].
  - rewrite elem_of_removed. split.
    + intros (_ & _ & Hr & a' & Heq & Hge). split; [congruence | done].
    + intros [Hge Hr]. split; [done|]. split; [done|]. split; [done | by exists a].
  - apply selected_dry_real.
  - apply removed_dry.
  - apply removed_count_dry.
Qed.

Lemma sweep_selects_by_age_witness :
  let c := {| id := "3f2a9c41d07b";
              image := ImageTags ["happysixd/osworld-docker:latest"];
              created_dt := Some {| wall_us := 0; utcoffset_us := Some 0%Z |};
              remove_raises := false |} in
  let real := remove_old_containers (Running [c]) 600000000
                "happysixd/osworld-docker" 5 false in
  c ∈ selected real <-> (10 >= 5)%Z.
Proof.
  intros c real.
  refine (proj1 (sweep_selects_by_age 600000000 "happysixd/osworld-docker" 5
                   [c] c 10 _ _)).
  - vm_compute. apply list_elem_of_here.
  - reflexivity.
Defined.

(** C6: when a container of the sweep raises, in the age helper or in the
    remove call, the failure count grows by one and the sweep goes on: the
    containers before and after it are handled exactly as they would be on
    their own, every later container is still reached, and the function
    returns the pair of the two counters. *)
Theorem sweep_continues_after_failure now image m d all before c after :
  matching_containers image all = before ++ c :: after ->
  (get_container_age_minutes now c = None \/
   (d = false /\ remove_raises c = true /\
    exists a, get_container_age_minutes now c = Some a /\ (a >= m)%Z)) ->
  let s := remove_old_containers (Running all) now image m d in
  let s1 := process_all now m d before in
  let s2 := process_all now m d after in
  (exists o, is_failure o = true /\ trace s = trace s1 ++ (c, o) :: trace s2) /\
  (forall c', c' ∈ after -> exists o, (c', o) ∈ trace s) /\
  result s = (removed_count s1 + removed_count s2,
              failed_count s1 + 1 + failed_count s2).
Proof.
  intros Hm Hfail s s1 s2. subst s s1 s2.
  rewrite sweep_running, Hm.
  assert (is_failure (outcome now m d c) = true) as Hf.
  { unfold outcome. destruct Hfail as [-> | (-> & Hr & a & -> & Hge)]; [done|].
    rewrite Hr. destruct (a >=? m)%Z eqn:E; [done | lia]. }
  rewrite process_all_app, process_all_cons.
  destruct (process_container_outcome now m d c) as (Ht & Hr & Hfc).
  rewrite Hf in Hfc.
  assert (is_removal (outcome now m d c) = false) as Hnr
    by (destruct (outcome now m d c) as [| |[]|]; done).
  rewrite Hnr in Hr.
  split; [|split].
  - exists (outcome now m d c). split; [done|]. simpl. by rewrite Ht.
  - intros c' Hc'. exists (outcome now m d c'). simpl.
    rewrite !elem_of_app. right. right. rewrite process_all_trace.
    apply list_elem_of_fmap. by exists c'.
  - unfold result. simpl. rewrite Hr, Hfc. f_equal; lia.
Qed.

Lemma sweep_continues_after_failure_witness :
  let stuck := {| id := "3f2a9c41d07b";
                  image := ImageTags ["happysixd/osworld-docker:latest"];
                  created_dt := Some {| wall_us := 0; utcoffset_us := Some 0%Z |};
                  remove_raises := true |} in
  let fine := {| id := "9b1e44aa02cd";
                 image := ImageTags ["happysixd/osworld-docker:latest"];
                 created_dt := Some {| wall_us := 0; utcoffset_us := Some 0%Z |};
                 remove_raises := false |} in
  result (remove_old_containers (Running [fine; stuck; fine]) 600000000
            "happysixd/osworld-docker" 5 false) = (2, 1).
Proof.
  intros stuck fine.
  refine (proj2 (proj2 (sweep_continues_after_failure 600000000
    "happysixd/osworld-docker" 5 false [fine; stuck; fine] [fine] stuck [fine] _ _))).
  - reflexivity.
  - right. split; [reflexivity|]. split; [reflexivity|].
    exists 10%Z. split; [reflexivity | lia].
Defined.

(** *** The age as a double *)

(** The two divisions agree with the binary64 division of the Standard
    Library, also beyond 2^53 microseconds, and with the division of the
    machine. *)
Example total_seconds_is_the_library_division :
  Forall (fun age_us =>
            SFdiv prec emax (S754_finite false (Z.to_pos age_us) 0)
              (S754_finite false 1000000 0)
            = to_spec_float (total_seconds age_us))
    [1; 7; 90000001; 599999999; 123456789012345; 4503599627370495;
     9007199254740993; 63902822399999999; 315537897599999999]%Z.
Proof. repeat constructor. Qed.

Example minutes_are_the_library_division :
  Forall (fun age_us =>
            SFdiv prec emax (to_spec_float (total_seconds age_us))
              (S754_finite false 60 0)
            = to_spec_float (float_div_int (total_seconds age_us) 60))
    [1; 7; 90000001; 599999999; 123456789012345; 4503599627370495;
     9007199254740993; 63902822399999999; 315537897599999999]%Z.
Proof. repeat constructor. Qed.

Example minutes_are_the_machine_division :
  Forall (fun age_us =>
            Prim2SF (PrimFloat.div
                       (PrimFloat.div (float_of_int age_us) (float_of_int 1000000))
                       (float_of_int 60))
            = to_spec_float (float_div_int (total_seconds age_us) 60))
    [1; 7; 90000001; 599999999; 123456789012345; 4503599627370495;
     -1; -30000000; -4503599627370495]%Z.
Proof. repeat constructor. Qed.

Example minutes_of_large_ages_on_the_machine :
  Forall (fun age_us =>
            Prim2SF (PrimFloat.div (SF2Prim (to_spec_float (total_seconds age_us)))
                       (float_of_int 60))
            = to_spec_float (float_div_int (total_seconds age_us) 60))
    [9007199254740993; 63902822399999999; 315537897599999999;
     -63902822399999999]%Z.
Proof. repeat constructor. Qed.

#[local] Open Scope Z_scope.

Lemma round_half_even_bounds a b j :
  0 < b ->
  (j * b <= a -> j <= round_half_even a b) /\
  (a <= j * b -> round_half_even a b <= j).
Proof.
  intros Hb. unfold round_half_even.
  pose proof (Z.div_mod a b ltac:(lia)) as Hdm.
  pose proof (Z.mod_pos_bound a b Hb) as Hr.
  set (q := a / b) in *. set (r := a mod b) in *.
  destruct (Z.ltb_spec (2 * r) b); [split; intros; nia|].
  destruct (Z.ltb_spec b (2 * r)); [split; intros; nia|].
  destruct (Z.even q); split; intros; nia.
Qed.

Lemma quot_log2_lower a b :
  0 < a -> 0 < b ->
  b * 2 ^ Z.max 0 (quot_log2 a b) <= a * 2 ^ Z.max 0 (- quot_log2 a b).
Proof.
  intros Ha Hb. unfold quot_log2.
  pose proof (Z.log2_spec a Ha) as [Hla1 Hla2].
  pose proof (Z.log2_spec b Hb) as [Hlb1 Hlb2].
  pose proof (Z.log2_nonneg a) as Hla0. pose proof (Z.log2_nonneg b) as Hlb0.
  set (la := Z.log2 a) in *. set (lb := Z.log2 b) in *.
  set (d := la - lb).
  destruct (Z.ltb_spec (a * 2 ^ Z.max 0 (- d)) (b * 2 ^ Z.max 0 d)) as [Hlt|Hge].
  - (* the quotient is below 2^d *)
    destruct (Z_lt_le_dec d 1) as [Hd|Hd].
    + (* d <= 0 *)
      replace (Z.max 0 (d - 1)) with 0 by lia.
      replace (Z.max 0 (- (d - 1))) with (- d + 1) by lia.
      rewrite Z.pow_0_r, Z.mul_1_r.
      replace (Z.succ lb) with (la + (- d + 1)) in Hlb2 by lia.
      rewrite Z.pow_add_r in Hlb2 by lia.
      assert (0 < 2 ^ (- d + 1)) by (apply Z.pow_pos_nonneg; lia). nia.
    + (* d >= 1 *)
      replace (Z.max 0 (d - 1)) with (d - 1) by lia.
      replace (Z.max 0 (- (d - 1))) with 0 by lia.
      rewrite Z.pow_0_r, Z.mul_1_r.
      replace la with (Z.succ lb + (d - 1)) in Hla1 by lia.
      rewrite Z.pow_add_r in Hla1 by lia.
      assert (0 < 2 ^ (d - 1)) by (apply Z.pow_pos_nonneg; lia). nia.
  - lia.
Qed.

(** The two roundings and the truncation for an age of [a] microseconds,
    [0 < a < 2^52]: neither rounding reaches the next whole minute. *)
Lemma age_minutes_core a :
  0 < a < 2 ^ 52 ->
  exists n1 e1 n2 e2,
    round_quotient_pos a 1000000 = (n1, e1) /\
    0 < n1 * 2 ^ Z.max 0 e1 /\
    round_quotient_pos (n1 * 2 ^ Z.max 0 e1) (60 * 2 ^ Z.max 0 (- e1)) = (n2, e2) /\
    Z.quot (n2 * 2 ^ Z.max 0 e2) (2 ^ Z.max 0 (- e2)) = a / 60000000.
Proof.
  intros [Ha0 Ha]. change (2 ^ 52) with 4503599627370496 in Ha.
  set (k := a / 60000000).
  pose proof (Z.div_mod a 60000000 ltac:(lia)) as Hdm.
  pose proof (Z.mod_pos_bound a 60000000 ltac:(lia)) as Hr.
  fold k in Hdm.
  assert (0 <= k) as Hk0 by (apply Z.div_pos; lia).
  assert (k + 1 <= 134217728) as Hk by lia.
  (* the first rounding *)
  set (e1 := quot_log2 a 1000000 - 52).
  assert (e1 <= -20) as He1.
  { pose proof (quot_log2_lower a 1000000 Ha0 ltac:(lia)) as Hl.
    destruct (Z_lt_le_dec (quot_log2 a 1000000) 33) as [|Hbig]; [lia|].
    exfalso. rewrite Z.max_r in Hl by lia.
    replace (Z.max 0 (- quot_log2 a 1000000)) with 0 in Hl by lia.
    assert (2 ^ 33 <= 2 ^ quot_log2 a 1000000) as Hp
      by (apply Z.pow_le_mono_r; lia).
    change (2 ^ 33) with 8589934592 in Hp. lia. }
  set (P1 := 2 ^ (- e1 - 20)).
  assert (0 < P1) as HP1 by (apply Z.pow_pos_nonneg; lia).
  assert (2 ^ Z.max 0 e1 = 1) as Hup1 by (by replace (Z.max 0 e1) with 0 by lia).
  assert (2 ^ Z.max 0 (- e1) = 1048576 * P1) as Hdn1.
  { replace (Z.max 0 (- e1)) with (20 + (- e1 - 20)) by lia.
    by rewrite Z.pow_add_r by lia. }
  set (n1 := round_half_even (a * 2 ^ Z.max 0 (- e1)) (1000000 * 2 ^ Z.max 0 e1)).
  assert (n1 = round_half_even (a * (1048576 * P1)) 1000000) as Hn1
    by (unfold n1; by rewrite Hup1, Hdn1, Z.mul_1_r).
  assert (60 * k * (1048576 * P1) <= n1) as Hn1lo.
  { rewrite Hn1.
    apply (round_half_even_bounds (a * (1048576 * P1)) 1000000); [lia|]. nia. }
  assert (n1 <= (60 * (k + 1) * 1048576 - 1) * P1) as Hn1hi.
  { rewrite Hn1.
    apply (round_half_even_bounds (a * (1048576 * P1)) 1000000); [lia|]. nia. }
  assert (1 <= n1) as Hn1pos.
  { rewrite Hn1.
    apply (round_half_even_bounds (a * (1048576 * P1)) 1000000); [lia|]. nia. }
  (* the second rounding *)
  set (a2 := n1 * 2 ^ Z.max 0 e1).
  set (b2 := 60 * 2 ^ Z.max 0 (- e1)).
  assert (a2 = n1) as Ha2 by (unfold a2; rewrite Hup1; lia).
  assert (b2 = 60 * (1048576 * P1)) as Hb2 by (unfold b2; by rewrite Hdn1).
  set (e2 := quot_log2 a2 b2 - 52).
  assert (e2 <= -26) as He2.
  { pose proof (quot_log2_lower a2 b2 ltac:(lia) ltac:(lia)) as Hl.
    destruct (Z_lt_le_dec (quot_log2 a2 b2) 27) as [|Hbig]; [lia|].
    exfalso. rewrite Z.max_r in Hl by lia.
    replace (Z.max 0 (- quot_log2 a2 b2)) with 0 in Hl by lia.
    assert (2 ^ 27 <= 2 ^ quot_log2 a2 b2) as Hp
      by (apply Z.pow_le_mono_r; lia).
    change (2 ^ 27) with 134217728 in Hp.
    rewrite Z.pow_0_r, Z.mul_1_r in Hl.
    set (X := 2 ^ quot_log2 a2 b2) in *. rewrite Ha2, Hb2 in Hl.
    assert (P1 * 134217728 <= P1 * X) by (apply Z.mul_le_mono_nonneg_l; lia).
    assert ((k + 1) * P1 <= 134217728 * P1) by (apply Z.mul_le_mono_nonneg_r; lia).
    lia. }
  set (P2 := 2 ^ (- e2 - 26)).
  assert (0 < P2) as HP2 by (apply Z.pow_pos_nonneg; lia).
  assert (2 ^ Z.max 0 e2 = 1) as Hup2 by (by replace (Z.max 0 e2) with 0 by lia).
  assert (2 ^ Z.max 0 (- e2) = 67108864 * P2) as Hdn2.
  { replace (Z.max 0 (- e2)) with (26 + (- e2 - 26)) by lia.
    by rewrite Z.pow_add_r by lia. }
  set (n2 := round_half_even (a2 * 2 ^ Z.max 0 (- e2)) (b2 * 2 ^ Z.max 0 e2)).
  assert (n2 = round_half_even (n1 * (67108864 * P2)) b2) as Hn2
    by (unfold n2; by rewrite Hup2, Hdn2, Z.mul_1_r, Ha2).
  assert (k * (67108864 * P2) <= n2) as Hn2lo.
  { rewrite Hn2.
    apply (round_half_even_bounds (n1 * (67108864 * P2)) b2); [lia|].
    rewrite Hb2. nia. }
  assert (n2 <= ((k + 1) * 67108864 - 1) * P2) as Hn2hi.
  { rewrite Hn2.
    apply (round_half_even_bounds (n1 * (67108864 * P2)) b2); [lia|].
    rewrite Hb2.
    assert (n1 * 67108864 <= ((k + 1) * 67108864 - 1) * (60 * 1048576) * P1) by nia.
    nia. }
  exists n1, e1, n2, e2.
  split; [reflexivity|]. split; [fold a2; lia|]. split; [reflexivity|].
  (* the truncation *)
  rewrite Hup2, Hdn2, Z.mul_1_r.
  assert (0 <= k * (67108864 * P2)) by (apply Z.mul_nonneg_nonneg; lia).
  rewrite Z.quot_div_nonneg by lia.
  symmetry. apply (Z.div_unique n2 (67108864 * P2) k (n2 - k * (67108864 * P2))); lia.
Qed.

(** Below 2^52 microseconds, about 142 years, the age in doubles is the
    exact number of whole minutes, truncated toward zero. *)
Lemma age_minutes_exact age_us :
  Z.abs age_us < 2 ^ 52 ->
  int_of_float (float_div_int (total_seconds age_us) 60) = Z.quot age_us 60000000.
Proof.
  intros Hrange. unfold total_seconds, round_quotient.
  destruct (Z.eqb_spec age_us 0) as [->|Hne]; [reflexivity|].
  destruct (Z.ltb_spec 0 age_us) as [Hpos|Hneg].
  - destruct (age_minutes_core age_us ltac:(lia))
      as (n1 & e1 & n2 & e2 & -> & Hn1 & H2 & Hq).
    unfold float_div_int, round_quotient.
    destruct (Z.eqb_spec (n1 * 2 ^ Z.max 0 e1) 0) as [?|_]; [lia|].
    destruct (Z.ltb_spec 0 (n1 * 2 ^ Z.max 0 e1)) as [_|?]; [|lia].
    rewrite H2. unfold int_of_float. rewrite Hq.
    symmetry. apply Z.quot_div_nonneg; lia.
  - destruct (age_minutes_core (- age_us) ltac:(lia))
      as (n1 & e1 & n2 & e2 & -> & Hn1 & H2 & Hq).
    unfold float_div_int, round_quotient.
    destruct (Z.eqb_spec (- n1 * 2 ^ Z.max 0 e1) 0) as [?|_]; [lia|].
    destruct (Z.ltb_spec 0 (- n1 * 2 ^ Z.max 0 e1)) as [?|_]; [lia|].
    replace (- (- n1 * 2 ^ Z.max 0 e1)) with (n1 * 2 ^ Z.max 0 e1) by lia.
    rewrite H2. unfold int_of_float.
    rewrite Z.mul_opp_l, Z.quot_opp_l, Hq.
    + rewrite <- (Z.quot_div_nonneg (- age_us) 60000000) by lia.
      rewrite Z.quot_opp_l by lia. lia.
    + apply Z.pow_nonzero; lia.
Qed.

#[local] Close Scope Z_scope.

(** C9, as stated, fails three times: a creation time 30 seconds ahead of
    the clock gives age 0 where the floor is -1; a creation time that parses
    without UTC offset gives no age at all; and for a container created
    0001-01-01T00:00:00.000001+00:00, seen at 2026-01-01T00:00:00+00:00, the
    two roundings give 1065047040 minutes where the floor is 1065047039. *)
Lemma age_is_not_the_floor :
  let ahead := {| id := "3f2a9c41d07b";
                  image := ImageTags ["happysixd/osworld-docker:latest"];
                  created_dt := Some {| wall_us := 30000000; utcoffset_us := Some 0%Z |};
                  remove_raises := false |} in
  let naive := {| id := "9b1e44aa02cd";
                  image := ImageTags ["happysixd/osworld-docker:latest"];
                  created_dt := Some {| wall_us := 0; utcoffset_us := None |};
                  remove_raises := false |} in
  let ancient := {| id := "c07d15e2a9f4";
                    image := ImageTags ["happysixd/osworld-docker:latest"];
                    created_dt := Some {| wall_us := -62135596799999999;
                                          utcoffset_us := Some 0%Z |};
                    remove_raises := false |} in
  (get_container_age_minutes 0 ahead = Some 0%Z
   /\ ((0 - 30000000) `div` us_per_minute)%Z = (-1)%Z)
  /\ (is_Some (created_dt naive)
      /\ get_container_age_minutes 600000000 naive = None)
  /\ (get_container_age_minutes 1767225600000000 ancient = Some 1065047040%Z
      /\ ((1767225600000000 - -62135596799999999) `div` us_per_minute)%Z
         = 1065047039%Z).
Proof.
  split; [split; reflexivity|]. split; [split; [by eexists | reflexivity]|].
  split; reflexivity.
Qed.

(** C9, amended: when the creation time parses to a time with a UTC offset,
    [get_container_age_minutes] returns an age, computed in doubles; as long
    as the creation time and the clock are less than 2^52 microseconds apart,
    it is the minutes between them truncated toward zero, which is the floor
    whenever the creation time is not ahead of the clock.  It returns
    [None], never raising, exactly when the creation time is missing,
    unparsable or without offset; the sweep skips a container of unknown
    age: it is logged as skipped, neither selected nor removed, and counted
    as a failure. *)
Theorem age_truncates_and_unknown_age_is_skipped now image m d all c :
  c ∈ matching_containers image all ->
  let s := remove_old_containers (Running all) now image m d in
  (forall dt off, created_dt c = Some dt -> utcoffset_us dt = Some off ->
     let age_us := (now - (wall_us dt - off))%Z in
     (exists n, get_container_age_minutes now c = Some n) /\
     ((Z.abs age_us < 2 ^ 52)%Z ->
      get_container_age_minutes now c = Some (Z.quot age_us us_per_minute)) /\
     ((0 <= age_us)%Z -> Z.quot age_us us_per_minute = Z.div age_us us_per_minute)) /\
  (get_container_age_minutes now c = None <->
     created_dt c = None \/
     exists dt, created_dt c = Some dt /\ utcoffset_us dt = None) /\
  (get_container_age_minutes now c = None ->
     (forall o, (c, o) ∈ trace s <-> o = Skipped) /\
     (c ∉ selected s) /\ (c ∉ removed s) /\
     1 <= length (filter (fun c' => get_container_age_minutes now c' = None)
                         (matching_containers image all)) <= failed_count s).
Proof.
  intros Hin s. subst s. rewrite sweep_running.
  split; [|split].
  - intros dt off Hdt Hoff age_us. unfold get_container_age_minutes.
    rewrite Hdt, Hoff. split; [by eexists|]. split.
    + intros Hrange. cbv zeta. f_equal. by apply age_minutes_exact.
    + intros Hpos. apply Z.quot_div_nonneg; [done | by vm_compute].
  - unfold get_container_age_minutes.
    destruct (created_dt c) as [dt|]; [|split; [by left | done]].
    destruct (utcoffset_us dt) eqn:Hoff.
    + split; [done|]. intros [? | (dt' & Heq & Hn)]; [done|]. congruence.
    + split; [|done]. intros _. right. by exists dt.
  - intros Hnone.
    assert (outcome now m d c = Skipped) as Ho by (unfold outcome; by rewrite Hnone).
    split; [|split; [|split]].
    + intros o. rewrite process_all_trace, list_elem_of_fmap. split.
      * intros (c' & Heq & _). injection Heq as <- ->. done.
      * intros ->. exists c. by rewrite Ho.
    + rewrite elem_of_selected. intros (_ & a & Ha & _). congruence.
    + rewrite elem_of_removed. intros (_ & _ & _ & a & Ha & _). congruence.
    + destruct (process_all_counts now m d (matching_containers image all)) as [_ ->].
      set (l := matching_containers image all) in *. clearbody l.
      split.
      * assert (c ∈ filter (fun c' => get_container_age_minutes now c' = None) l)
          as Hc by (by apply list_elem_of_filter).
        destruct (filter _ l); [by apply elem_of_nil in Hc | simpl; lia].
      * clear Hin. induction l as [|c' l IH]; [done|].
        rewrite !filter_cons.
        case_decide as H1; case_decide as H2; simpl; try lia.
        unfold outcome in H2. by rewrite H1 in H2.
Qed.

Lemma age_truncates_and_unknown_age_is_skipped_witness :
  let naive := {| id := "9b1e44aa02cd";
                  image := ImageTags ["happysixd/osworld-docker:latest"];
                  created_dt := Some {| wall_us := 0; utcoffset_us := None |};
                  remove_raises := false |} in
  naive ∉ removed (remove_old_containers (Running [naive]) 600000000
                     "happysixd/osworld-docker" 0 false).
Proof.
  intros naive.
  refine (proj1 (proj2 (proj2 (proj2 (proj2
    (age_truncates_and_unknown_age_is_skipped 600000000
       "happysixd/osworld-docker" 0 false [naive] naive _)) _)))).
  - vm_compute. apply list_elem_of_here.
  - reflexivity.
Defined.

(** C10: the script exits with status 1 iff the sweep counted at least one
    failure, each failure being one container skipped or one remove call that
    raised, and with status 0 otherwise; when the container runtime cannot be
    reached the sweep returns (0, 0) and the status is 0. *)
Theorem exit_status_reports_failures env now args :
  let s := remove_old_containers env now (image_arg args) (min_age args) (dry_run args) in
  (main env now args = 1%Z <-> 0 < failed_count s) /\
  (main env now args = 0%Z <-> failed_count s = 0) /\
  failed_count s = length (filter (fun e => is_failure (snd e) = true) (trace s)) /\
  result (remove_old_containers Unreachable now (image_arg args) (min_age args)
            (dry_run args)) = (0, 0) /\
  main Unreachable now args = 0%Z.
Proof.
  intros s. subst s. unfold main, result.
  set (f := failed_count _).
  split; [|split; [|split; [|split]]].
  - destruct (0 <? f) eqn:E; [apply Nat.ltb_lt in E | apply Nat.ltb_ge in E];
      split; intros; (done || lia).
  - destruct (0 <? f) eqn:E; [apply Nat.ltb_lt in E | apply Nat.ltb_ge in E];
      split; intros; (done || lia).
  - apply sweep_failed_count_trace.
  - reflexivity.
  - reflexivity.
Qed.

End JanitorFacts.

(** ** The clients' reading of a denial *)

Module QuotaErrorFacts.
Import PyStr PyStrFacts.

(** C7, as stated, fails: the race test takes any message with "429" for a
    quota rejection and the load test any message with the two Chinese
    characters, neither containing the phrase. *)
Lemma quota_error_without_the_phrase :
  (ParallelTest.is_quota_error "HTTP 429 Too Many Requests" = true
   /\ contains "quota exceeded" (lower "HTTP 429 Too Many Requests") = false)
  /\ (LoadTest.is_quota_error chao_guo = true
      /\ contains "quota exceeded" (lower chao_guo) = false).
Proof. repeat split. Qed.

(** C7, amended: a denial of the broker reaches the caller as a
    [RuntimeError] whose message contains the phrase "quota exceeded", and
    both clients take that message for a quota rejection.  The clients take
    an error message for a quota rejection iff it contains the phrase in any
    letter case or their second marker, the two Chinese characters in the
    load test and "429" in the race test. *)
Theorem quota_error_recognition (error_msg : string) :
  (forall token pool,
     fst (DesktopEnv.new_env (Broker.service token) pool)
     = match fst (Broker.PoolStart token pool) with
       | Some (key, emulator_id) =>
           DesktopEnv.Started {| DesktopEnv.remote_docker_server := key;
                                 DesktopEnv.emulator_id := emulator_id |}
       | None => DesktopEnv.RuntimeError Broker.quota_message
       end) /\
  (forall key,
     Broker.client_outcome key Broker.QuotaExceeded
     = DesktopEnv.RuntimeError Broker.quota_message) /\
  occurs "quota exceeded" Broker.quota_message /\
  occurs_ignoring_case "quota exceeded" Broker.quota_message /\
  LoadTest.is_quota_error Broker.quota_message = true /\
  ParallelTest.is_quota_error Broker.quota_message = true /\
  (LoadTest.is_quota_error error_msg = true <->
     occurs_ignoring_case "quota exceeded" error_msg \/ occurs chao_guo error_msg) /\
  (ParallelTest.is_quota_error error_msg = true <->
     occurs_ignoring_case "quota exceeded" error_msg \/ occurs "429" error_msg) /\
  LoadTest.is_quota_error "Token Quota Exceeded: dart 2/2" = true /\
  ParallelTest.is_quota_error "Token Quota Exceeded: dart 2/2" = true.
Proof.
  split; [|split; [|split; [|split; [|split; [|split; [|split; [|split; [|split]]]]]]]];
    [| | | | | | | |reflexivity..].
  - intros token pool. cbn [Broker.service DesktopEnv.new_env].
    by destruct (Broker.PoolStart token pool) as [[[key emulator_id]|] pool'].
  - done.
  - by exists "", "".
  - by exists "", "".
  - reflexivity.
  - reflexivity.
  - unfold LoadTest.is_quota_error, occurs_ignoring_case, occurs.
    by rewrite orb_true_iff, !contains_spec.
  - unfold ParallelTest.is_quota_error, occurs_ignoring_case, occurs.
    by rewrite orb_true_iff, !contains_spec.
Qed.

End QuotaErrorFacts.

(** ** The concurrency client *)

Module ConcurrencyTestFacts.
Import ConcurrencyTest.

Example start_emulator_started :
  start_emulator (PostReturns
    {| status_code := 200; text := "";
       json := Some (JDict [("code", JInt 0);
                            ("data", JDict [("emulator_id", JStr "emu-7")])]) |})
  = (true, [("status_code", JInt 200);
            ("data", JDict [("code", JInt 0);
                            ("data", JDict [("emulator_id", JStr "emu-7")])]);
            ("emulator_id", JStr "emu-7")]).
Proof. reflexivity. Qed.

Example start_emulator_quota_denied :
  start_emulator (PostReturns
    {| status_code := 429; text := "";
       json := Some (JDict [("code", JInt 1); ("message", JStr "quota exceeded")]) |})
  = (false, [("status_code", JInt 429);
             ("data", JDict [("code", JInt 1); ("message", JStr "quota exceeded")])]).
Proof. reflexivity. Qed.

Example start_emulator_data_null :
  start_emulator (PostReturns
    {| status_code := 200; text := "";
       json := Some (JDict [("code", JInt 0); ("data", JNull)]) |})
  = (false, [("error", JStr "'NoneType' object has no attribute 'get'")]).
Proof. reflexivity. Qed.

Example start_emulator_not_json :
  start_emulator (PostReturns
    {| status_code := 502; text := "Bad Gateway"; json := None |})
  = (false, [("status_code", JInt 502);
             ("data", JDict [("text", JStr "Bad Gateway")])]).
Proof. reflexivity. Qed.

Lemma is_success_true r data :
  is_success r data = Ret true <->
  ok r = true /\
  exists members inner emulator_id,
    data = JDict members /\
    py_eq_zero (dict_get "code" members) = true /\
    dict_lookup "data" members = Some (JDict inner) /\
    dict_lookup "emulator_id" inner = Some emulator_id /\
    truthy emulator_id = true.
Proof.
  unfold is_success. destruct (ok r); simpl.
  2: { split; [done | by intros [? _]]. }
  destruct data as [| | | | | |members].
  1-6: split; [done | by intros (_ & ? & ? & ? & ? & _)].
  destruct (py_eq_zero (dict_get "code" members)) eqn:Hc; simpl.
  2: { split; [done | intros (_ & ? & ? & ? & [= <-] & ? & _); congruence]. }
  destruct (dict_lookup "data" members) as [inner|] eqn:Hd.
  - destruct inner as [| | | | | |inner].
    1-6: split; [done | intros (_ & ? & ? & ? & [= <-] & _ & ? & _); congruence].
    simpl. unfold dict_get.
    destruct (dict_lookup "emulator_id" inner) as [v|] eqn:Hv.
    + split.
      * intros [= Ht]. split; [done|]. by exists members, inner, v.
      * intros (_ & ? & ? & ? & [= <-] & _ & Hd' & Hv' & Ht).
        rewrite Hd in Hd'. injection Hd' as <-. rewrite Hv in Hv'.
        injection Hv' as <-. by rewrite Ht.
    + split; [done|]. intros (_ & ? & ? & ? & [= <-] & _ & Hd' & Hv' & _).
      rewrite Hd in Hd'. injection Hd' as <-. congruence.
  - simpl. split; [done|]. intros (_ & ? & ? & ? & [= <-] & _ & ? & _). congruence.
Qed.

(** C8: [start_emulator] reports success iff the status is not an error
    status, the body is a JSON object whose [code] equals 0, and its [data]
    object holds an [emulator_id] that is present and not empty; the details
    then carry the status, the body and that id.  In every other case it
    reports failure: with the status and the body, also for a body that is
    not JSON, or with the text of the exception when the request raised or
    when [data] is present but no object. *)
Theorem start_emulator_classification (post : PostResult) :
  let accepted :=
    exists r members inner emulator_id,
      post = PostReturns r /\ ok r = true /\
      json r = Some (JDict members) /\
      py_eq_zero (dict_get "code" members) = true /\
      dict_lookup "data" members = Some (JDict inner) /\
      dict_lookup "emulator_id" inner = Some emulator_id /\
      truthy emulator_id = true in
  (fst (start_emulator post) = true <-> accepted) /\
  (fst (start_emulator post) = false <-> ~ accepted) /\
  start_emulator post
  = match post with
    | PostRaises msg => (false, [("error", JStr msg)])
    | PostReturns r =>
        let answered := [("status_code", JInt (status_code r)); ("data", body r)] in
        match json r with
        | Some (JDict members) =>
            if ok r && py_eq_zero (dict_get "code" members)
            then
              match dict_lookup "data" members with
              | Some (JDict inner) =>
                  if truthy (dict_get "emulator_id" inner)
                  then (true, answered
                                ++ [("emulator_id", dict_get "emulator_id" inner)])
                  else (false, answered)
              | Some v =>
                  (false, [("error", JStr ("'" +:+ type_name v
                                           +:+ "' object has no attribute 'get'"))])
              | None => (false, answered)
              end
            else (false, answered)
        | _ => (false, answered)
        end
    end /\
  (fst (start_emulator post) = false <->
     (exists msg, snd (start_emulator post) = [("error", JStr msg)]) \/
     (exists r, post = PostReturns r /\
        snd (start_emulator post) =
          [("status_code", JInt (status_code r)); ("data", body r)])) /\
  (forall msg, start_emulator (PostRaises msg) = (false, [("error", JStr msg)])) /\
  (forall status body_text,
     start_emulator
       (PostReturns {| status_code := status; text := body_text; json := None |}) =
       (false, [("status_code", JInt status);
                ("data", JDict [("text", JStr body_text)])])) /\
  (forall n, py_eq_zero (JInt n) = true <-> n = 0%Z) /\
  (forall s, truthy (JStr s) = true <-> s <> "").
Proof.
  intros accepted.
  assert (fst (start_emulator post) = true <-> accepted) as Hacc.
  { subst accepted. destruct post as [msg|r]; simpl.
    { split; [done | by intros (? & ? & ? & ? & ? & _)]. }
    destruct (is_success r (body r)) as [[]|msg] eqn:Hs; simpl.
    - apply is_success_true in Hs as (Hok & members & inner & v & Hb & Hc & Hd & Hv & Ht).
      split; [intros _ | done].
      exists r, members, inner, v.
      assert (json r = Some (JDict members)) as Hj.
      { unfold body in Hb. destruct (json r); [congruence|].
        injection Hb as <-. by vm_compute in Hc. }
      done.
    - split; [done|]. intros (r' & members & inner & v & [= <-] & Hok & Hj & Hrest).
      assert (is_success r (body r) = Ret true) as Hs'.
      { apply is_success_true. split; [done|]. exists members, inner, v.
        unfold body. by rewrite Hj. }
      congruence.
    - split; [done|]. intros (r' & members & inner & v & [= <-] & Hok & Hj & Hrest).
      assert (is_success r (body r) = Ret true) as Hs'.
      { apply is_success_true. split; [done|]. exists members, inner, v.
        unfold body. by rewrite Hj. }
      congruence. }
  split; [exact Hacc|].
  split; [|split; [|split; [|split; [|split; [|split]]]]].
  - rewrite <- Hacc. destruct (fst (start_emulator post)); split; (done || congruence).
  - destruct post as [msg|r]; [done|]. cbn [start_emulator].
    unfold is_success, body.
    destruct (json r) as [[| | | | | |members]|]; destruct (ok r);
      cbn [negb andb]; try done.
    destruct (py_eq_zero (dict_get "code" members)); cbn [negb]; [|done].
    unfold emulator_id_of, dict_get.
    by destruct (dict_lookup "data" members) as [[| | | | | |inner]|].
  - destruct post as [msg|r]; simpl.
    { split; [intros _; left; by exists msg | done]. }
    destruct (is_success r (body r)) as [[]|msg] eqn:Hs; simpl.
    + split; [done|]. intros [[msg H] | (r' & _ & H)]; discriminate.
    + split; [intros _ | done]. right. by exists r.
    + split; [intros _ | done]. left. by exists msg.
  - done.
  - intros status body_text. simpl. unfold body, is_success. simpl.
    by destruct (ok _).
  - intros n. simpl. apply Z.eqb_eq.
  - intros s. simpl. rewrite negb_true_iff. apply String.eqb_neq.
Qed.

End ConcurrencyTestFacts.

(** ** The broker: admission under a race *)

Module BrokerFacts.
Import Broker.

Lemma Snapshot_set_ledger token q srv :
  Snapshot token (set_ledger (<[token := q]> (ledger srv)) srv) = q.
Proof. unfold Snapshot. simpl. by rewrite lookup_insert_eq. Qed.

Lemma TryAdmit_granted token srv :
  current (Snapshot token srv) < limit (Snapshot token srv) ->
  exists srv', TryAdmit token srv = (true, srv')
    /\ Snapshot token srv' = {| current := S (current (Snapshot token srv));
                                limit := limit (Snapshot token srv) |}
    /\ next_id srv' = next_id srv /\ instances srv' = instances srv.
Proof.
  intros H. unfold TryAdmit. apply Nat.ltb_lt in H. rewrite H.
  eexists. split; [done|]. by rewrite Snapshot_set_ledger.
Qed.

Lemma TryAdmit_denied token srv :
  limit (Snapshot token srv) <= current (Snapshot token srv) ->
  TryAdmit token srv = (false, srv).
Proof. intros H. unfold TryAdmit. apply Nat.ltb_ge in H. by rewrite H. Qed.

Lemma Snapshot_Provision token srv :
  Snapshot token (snd (Provision token srv)) = Snapshot token srv.
Proof. reflexivity. Qed.

(** A request step changes of the server only what the view shows. *)
Lemma request_step_view token ph srv :
  let '(ph', srv') := request_step token ph srv in
  view_request_step ph (Snapshot token srv) (next_id srv)
  = (ph', Snapshot token srv', next_id srv').
Proof.
  destruct ph as [| |r]; simpl; [|done..].
  unfold TryAdmit. destruct (_ <? _); [|done].
  by rewrite Snapshot_set_ledger.
Qed.

Lemma race_step_view token c who :
  race_view token (race_step token c who) = view_step (race_view token c) who.
Proof.
  unfold race_step, view_step, race_view. destruct who; simpl.
  - pose proof (request_step_view token (phase3 c) (server c)) as H.
    destruct (request_step token (phase3 c) (server c)) as [ph srv].
    rewrite H. done.
  - pose proof (request_step_view token (phase2 c) (server c)) as H.
    destruct (request_step token (phase2 c) (server c)) as [ph srv].
    rewrite H. done.
Qed.

Lemma race_snoc token srv schedule who :
  race token srv (schedule ++ [who]) = race_step token (race token srv schedule) who.
Proof. unfold race. by rewrite fold_left_app. Qed.

Lemma view_step_last_slot n v who :
  v ∈ last_slot_views n -> view_step v who ∈ last_slot_views n.
Proof.
  unfold last_slot_views. intros Hin.
  repeat (apply elem_of_cons in Hin as [-> | Hin]);
    [..| by apply elem_of_nil in Hin];
    destruct who; vm_compute; set_solver.
Qed.

Lemma race_last_slot token srv schedule :
  Snapshot token srv = {| current := 1; limit := 2 |} ->
  race_view token (race token srv schedule) ∈ last_slot_views (next_id srv).
Proof.
  intros Hq. induction schedule as [|who schedule IH] using rev_ind.
  - unfold race, race_view. simpl. rewrite Hq. apply list_elem_of_here.
  - rewrite race_snoc, race_step_view. by apply view_step_last_slot.
Qed.

Lemma request_step_rank token ph srv :
  Nat.min 2 (S (phase_rank ph)) <= phase_rank (fst (request_step token ph srv)).
Proof.
  destruct ph as [| |r]; cbn -[Nat.min TryAdmit]; [|lia..].
  destruct (TryAdmit token srv) as [[] srv']; cbn -[Nat.min]; lia.
Qed.

Lemma race_step_rank token c who w :
  Nat.min 2 (phase_rank (phase_of w c) + (if decide (who = w) then 1 else 0))
  <= phase_rank (phase_of w (race_step token c who)).
Proof.
  unfold race_step, phase_of.
  pose proof (request_step_rank token (phase3 c) (server c)) as H3.
  pose proof (request_step_rank token (phase2 c) (server c)) as H2.
  destruct who, w; case_decide; try done;
    destruct (request_step token (phase3 c) (server c));
    destruct (request_step token (phase2 c) (server c)); cbn -[Nat.min] in *; lia.
Qed.

Lemma race_rank token schedule c w :
  Nat.min 2 (phase_rank (phase_of w c) + length (filter (fun x => x = w) schedule))
  <= phase_rank (phase_of w (fold_left (race_step token) schedule c)).
Proof.
  revert c. induction schedule as [|who schedule IH]; intros c.
  - cbn -[Nat.min]. lia.
  - specialize (IH (race_step token c who)).
    pose proof (race_step_rank token c who w) as H.
    rewrite filter_cons. cbn [fold_left].
    repeat case_decide; try done; cbn [length] in *; lia.
Qed.

Lemma Tokens_lookup token srv q :
  Snapshot token srv = q -> current q <> 0 ->
  Tokens srv !! token
  = Some {| DesktopEnv.current := Z.of_nat (current q);
            DesktopEnv.limit := Z.of_nat (limit q) |}.
Proof.
  unfold Snapshot, Tokens. intros <- Hc. rewrite lookup_fmap.
  destruct (ledger srv !! token); [done | by destruct Hc].
Qed.

(** C1: with a limit of 2 and one instance held, two requests for the same
    token racing through admission and provisioning end, whatever the
    schedule that lets both finish, with exactly one granted and the other
    denied; the count of the token is then exactly 2 and never exceeded 2 on
    the way; the race test, run on these outcomes, passes and reports no
    overcommit. *)
Theorem race_for_last_slot token key srv schedule env1 :
  Snapshot token srv = {| current := 1; limit := 2 |} ->
  2 <= length (filter (fun w => w = false) schedule) ->
  2 <= length (filter (fun w => w = true) schedule) ->
  let c := race token srv schedule in
  ((exists id, phase2 c = Done (Granted id) /\ phase3 c = Done QuotaExceeded) \/
   (exists id, phase2 c = Done QuotaExceeded /\ phase3 c = Done (Granted id))) /\
  Snapshot token (server c) = {| current := 2; limit := 2 |} /\
  (forall before after, schedule = before ++ after ->
     current (Snapshot token (server (race token srv before))) <= 2) /\
  ParallelTest.script (DesktopEnv.Started env1) (race_completions key c)
    (ParallelTest.check_quota token (Some (Tokens (server c))))
  = ParallelTest.Passed (Some true).
Proof.
  intros Hq H2 H3 c.
  pose proof (race_rank token schedule
    {| server := srv; phase2 := Pending; phase3 := Pending; finished := [] |} false) as R2.
  pose proof (race_rank token schedule
    {| server := srv; phase2 := Pending; phase3 := Pending; finished := [] |} true) as R3.
  fold (race token srv schedule) in R2, R3. fold c in R2, R3.
  unfold phase_of in R2, R3. cbn -[Nat.min] in R2, R3.
  assert (forall before, current (Snapshot token (server (race token srv before))) <= 2) as Hle.
  { intros before. pose proof (race_last_slot token srv before Hq) as Hin.
    unfold last_slot_views in Hin.
    repeat (apply elem_of_cons in Hin as [Hv | Hin]); [..| by apply elem_of_nil in Hin];
      apply (f_equal view_quota) in Hv; simpl in Hv; rewrite Hv; simpl; lia. }
  pose proof (race_last_slot token srv schedule Hq) as Hin. fold c in Hin.
  assert (exists id fin,
    Snapshot token (server c) = {| current := 2; limit := 2 |} /\
    ((phase2 c = Done (Granted id) /\ phase3 c = Done QuotaExceeded /\
      (fin = [(false, Granted id); (true, QuotaExceeded)] \/
       fin = [(true, QuotaExceeded); (false, Granted id)])) \/
     (phase2 c = Done QuotaExceeded /\ phase3 c = Done (Granted id) /\
      (fin = [(true, Granted id); (false, QuotaExceeded)] \/
       fin = [(false, QuotaExceeded); (true, Granted id)]))) /\
    finished c = fin) as (id & fin & Hs & Hph & Hfin).
  { unfold last_slot_views in Hin.
    repeat (apply elem_of_cons in Hin as [Hv | Hin]); [..| by apply elem_of_nil in Hin];
      pose proof (f_equal view_phase2 Hv) as E2;
      pose proof (f_equal view_phase3 Hv) as E3;
      pose proof (f_equal view_quota Hv) as Eq;
      pose proof (f_equal view_finished Hv) as Ef;
      simpl in E2, E3, Eq, Ef;
      try (rewrite E2 in R2; cbn [phase_rank] in R2; lia);
      try (rewrite E3 in R3; cbn [phase_rank] in R3; lia);
      exists (next_id srv); eexists; (split; [exact Eq|]); (split; [|exact Ef]);
      naive_solver. }
  split; [|split; [|split]].
  - destruct Hph as [(? & ? & _) | (? & ? & _)]; [left | right]; by exists id.
  - done.
  - intros before after _. apply Hle.
  - unfold ParallelTest.check_quota, race_completions.
    rewrite (Tokens_lookup token (server c) _ Hs); [|done]. rewrite Hfin.
    destruct Hph as [(_ & _ & [-> | ->]) | (_ & _ & [-> | ->])]; by vm_compute.
Qed.

Lemma race_for_last_slot_witness :
  let srv := snd (Start "dart" (fresh_server "dart" 2)) in
  Snapshot "dart" (server (race "dart" srv [false; true; true; false]))
  = {| current := 2; limit := 2 |}.
Proof.
  intros srv.
  refine (proj1 (proj2 (race_for_last_slot "dart" "10.1.110.48:50003" srv
    [false; true; true; false]
    {| DesktopEnv.remote_docker_server := "10.1.110.48:50003";
       DesktopEnv.emulator_id := 0 |} _ _ _))).
  - reflexivity.
  - vm_compute. lia.
  - vm_compute. lia.
Defined.

(** The six ways two requests of two steps each can interleave, run one by
    one: each leaves one request granted, one denied, and the count at 2. *)
Example race_all_six_interleavings :
  let srv := snd (Start "dart" (fresh_server "dart" 2)) in
  map (fun schedule =>
         let c := race "dart" srv schedule in
         (phase2 c, phase3 c, Snapshot "dart" (server c)))
      (interleavings 5 [false; false] [true; true])
  = [ (Done (Granted 1), Done QuotaExceeded, {| current := 2; limit := 2 |});
      (Done (Granted 1), Done QuotaExceeded, {| current := 2; limit := 2 |});
      (Done (Granted 1), Done QuotaExceeded, {| current := 2; limit := 2 |});
      (Done QuotaExceeded, Done (Granted 1), {| current := 2; limit := 2 |});
      (Done QuotaExceeded, Done (Granted 1), {| current := 2; limit := 2 |});
      (Done QuotaExceeded, Done (Granted 1), {| current := 2; limit := 2 |}) ].
Proof. vm_compute. reflexivity. Qed.

End BrokerFacts.


(** ** The load test on one server *)

Module LoadFacts.
Import Broker BrokerFacts.

Lemma Start_granted token srv :
  current (Snapshot token srv) < limit (Snapshot token srv) ->
  exists srv', Start token srv = (Granted (next_id srv), srv')
    /\ Snapshot token srv' = {| current := S (current (Snapshot token srv));
                                limit := limit (Snapshot token srv) |}.
Proof.
  intros H. unfold Start. cbn [request_step].
  destruct (TryAdmit_granted token srv H) as (srv1 & -> & Hs & Hn & _).
  cbn. rewrite Hn. eexists. split; [done|]. exact Hs.
Qed.

Lemma Start_denied token srv :
  limit (Snapshot token srv) <= current (Snapshot token srv) ->
  Start token srv = (QuotaExceeded, srv).
Proof.
  intros H. unfold Start. cbn [request_step].
  by rewrite (TryAdmit_denied token srv H).
Qed.

Lemma headroom_Start token srv :
  0 < headroom token srv ->
  headroom token (snd (Start token srv)) = headroom token srv - 1
  /\ fst (Start token srv) = Granted (next_id srv).
Proof.
  unfold headroom. intros H.
  destruct (Start_granted token srv) as (srv' & -> & Hs); [lia|].
  simpl. rewrite Hs. simpl. split; [lia | done].
Qed.

Lemma PoolStart_single_granted token key srv :
  0 < headroom token srv ->
  PoolStart token (single key srv)
  = (Some (key, next_id srv), single key (snd (Start token srv))).
Proof.
  intros H. destruct (headroom_Start token srv H) as [_ Hg].
  unfold PoolStart, Choose, most_headroom, rotation, single. cbn.
  rewrite Nat.max_0_r.
  destruct (headroom token srv =? 0) eqn:E; [apply Nat.eqb_eq in E; lia|].
  cbn. rewrite Nat.eqb_refl. cbn.
  destruct (Start token srv) as [r srv']. simpl in *. by subst r.
Qed.

Lemma PoolStart_single_denied token key srv :
  headroom token srv = 0 ->
  PoolStart token (single key srv) = (None, single key srv).
Proof.
  intros H. unfold PoolStart, Choose, most_headroom, single. cbn.
  rewrite Nat.max_0_r, H. done.
Qed.

Lemma Snapshot_fresh token lim :
  Snapshot token (fresh_server token lim) = {| current := 0; limit := lim |}.
Proof. unfold fresh_server, SetLimit. by rewrite Snapshot_set_ledger. Qed.

Lemma headroom_fresh token lim : headroom token (fresh_server token lim) = lim.
Proof. unfold headroom. rewrite Snapshot_fresh. simpl. lia. Qed.

Lemma new_env_single token key srv :
  DesktopEnv.new_env (service token) (single key srv)
  = if headroom token srv =? 0
    then (DesktopEnv.RuntimeError quota_message, single key srv)
    else (DesktopEnv.Started {| DesktopEnv.remote_docker_server := key;
                                DesktopEnv.emulator_id := next_id srv |},
          single key (snd (Start token srv))).
Proof.
  cbn [service DesktopEnv.new_env].
  destruct (headroom token srv =? 0) eqn:E.
  - apply Nat.eqb_eq in E. by rewrite PoolStart_single_denied.
  - apply Nat.eqb_neq in E. rewrite PoolStart_single_granted; [done | lia].
Qed.

(** [n] attempts against one backend with headroom [h]: the first
    [min n h] start, the others are denied. *)
Lemma load_attempts_single token key n :
  forall t srv,
  exists envs srv',
    LoadTest.attempts (service token) n (t, single key srv)
    = ({| LoadTest.environments := LoadTest.environments t ++ envs;
          LoadTest.success_count := LoadTest.success_count t + length envs;
          LoadTest.failure_count := LoadTest.failure_count t + (n - length envs);
          LoadTest.printed := LoadTest.printed t ++ map LoadTest.Launched envs
            ++ repeat (LoadTest.QuotaLimit quota_message) (n - length envs) |},
       single key srv')
    /\ length envs = Nat.min n (headroom token srv)
    /\ Forall (fun env => DesktopEnv.remote_docker_server env = key) envs.
Proof.
  induction n as [|n IH]; intros t srv.
  - exists [], srv. cbn. rewrite !app_nil_r, !Nat.add_0_r.
    split; [by destruct t | split; [lia | constructor]].
  - cbn [LoadTest.attempts]. unfold LoadTest.attempt.
    rewrite new_env_single.
    destruct (headroom token srv =? 0) eqn:E.
    + apply Nat.eqb_eq in E.
      change (LoadTest.is_quota_error quota_message) with true. cbv iota.
      match goal with |- context [LoadTest.attempts _ n (?t1, _)] =>
        destruct (IH t1 srv) as (envs & srv' & -> & Hl & Hk) end.
      rewrite E, Nat.min_0_r in Hl. destruct envs; [|done].
      exists [], srv'. rewrite E, Nat.min_0_r. cbn.
      split; [|split; [done | constructor]].
      f_equal. f_equal; rewrite ?app_nil_r, ?Nat.sub_0_r; try lia.
      by rewrite <- app_assoc.
    + apply Nat.eqb_neq in E.
      match goal with |- context [LoadTest.attempts _ n (?t1, single key ?s1)] =>
        destruct (IH t1 s1) as (envs & srv' & -> & Hl & Hk) end.
      destruct (headroom_Start token srv) as [Hh _]; [lia|].
      rewrite Hh in Hl.
      eexists (_ :: envs), srv'. cbn [length map LoadTest.environments
        LoadTest.success_count LoadTest.failure_count LoadTest.printed].
      split; [|split].
      * f_equal. f_equal; rewrite <- ?app_assoc; try done; try lia.
      * lia.
      * by constructor.
Qed.

Lemma load_attempts_fresh token key lim n :
  exists envs p,
    LoadTest.attempts (service token) n (LoadTest.state0, fresh_pool token lim [key])
    = ({| LoadTest.environments := envs;
          LoadTest.success_count := length envs;
          LoadTest.failure_count := n - length envs;
          LoadTest.printed := map LoadTest.Launched envs
            ++ repeat (LoadTest.QuotaLimit quota_message) (n - length envs) |}, p)
    /\ length envs = Nat.min n lim.
Proof.
  destruct (load_attempts_single token key n LoadTest.state0 (fresh_server token lim))
    as (envs & srv' & H & Hl & _).
  rewrite headroom_fresh in Hl. exists envs, (single key srv'). split; [|done].
  exact H.
Qed.

Lemma passes_iff max_attempts t :
  LoadTest.passes max_attempts t = true
  <-> LoadTest.success_count t = max_attempts /\ LoadTest.failure_count t = 2.
Proof.
  unfold LoadTest.passes. by rewrite andb_true_iff, !Nat.eqb_eq.
Qed.

(** C3: against one server whose limit for the token is [lim], [lim + 2]
    calls in a row start an environment for exactly the first [lim] and are
    denied with the quota-exceeded error for the last 2; with limit 4 and 6
    calls these are 4 starts followed by 2 denials.  The load test passes iff
    its success count equals the expected limit and its failure count is 2;
    as shipped it expects 10, and passes against this server iff the limit
    is 10. *)
Theorem load_test_exact_capacity token key :
  (forall lim, exists envs p,
     LoadTest.attempts (service token) (lim + 2)
       (LoadTest.state0, fresh_pool token lim [key])
     = ({| LoadTest.environments := envs;
           LoadTest.success_count := lim;
           LoadTest.failure_count := 2;
           LoadTest.printed := map LoadTest.Launched envs
             ++ [LoadTest.QuotaLimit quota_message;
                 LoadTest.QuotaLimit quota_message] |}, p)
     /\ length envs = lim) /\
  (exists e1 e2 e3 e4 p,
     LoadTest.attempts (service token) 6
       (LoadTest.state0, fresh_pool token 4 [key])
     = ({| LoadTest.environments := [e1; e2; e3; e4];
           LoadTest.success_count := 4;
           LoadTest.failure_count := 2;
           LoadTest.printed :=
             [LoadTest.Launched e1; LoadTest.Launched e2;
              LoadTest.Launched e3; LoadTest.Launched e4;
              LoadTest.QuotaLimit quota_message;
              LoadTest.QuotaLimit quota_message] |}, p)) /\
  (forall max_attempts t,
     LoadTest.passes max_attempts t = true
     <-> LoadTest.success_count t = max_attempts /\ LoadTest.failure_count t = 2) /\
  (forall lim,
     snd (fst (LoadTest.script (service token) LoadTest.MAX_ATTEMPTS
                 (fresh_pool token lim [key]))) = true
     <-> lim = LoadTest.MAX_ATTEMPTS).
Proof.
  assert (forall lim, exists envs p,
     LoadTest.attempts (service token) (lim + 2)
       (LoadTest.state0, fresh_pool token lim [key])
     = ({| LoadTest.environments := envs;
           LoadTest.success_count := lim;
           LoadTest.failure_count := 2;
           LoadTest.printed := map LoadTest.Launched envs
             ++ [LoadTest.QuotaLimit quota_message;
                 LoadTest.QuotaLimit quota_message] |}, p)
     /\ length envs = lim) as Hgen.
  { intros lim.
    destruct (load_attempts_fresh token key lim (lim + 2)) as (envs & p & H & Hl).
    exists envs, p. rewrite H. assert (length envs = lim) as Hlen by lia.
    split; [|done]. rewrite Hlen.
    replace (lim + 2 - lim) with 2 by lia. done. }
  split; [exact Hgen|]. split; [|split].
  - destruct (Hgen 4) as (envs & p & H & Hl).
    destruct envs as [|e1 [|e2 [|e3 [|e4 [|e5 envs]]]]]; try done.
    by exists e1, e2, e3, e4, p.
  - apply passes_iff.
  - intros lim. unfold LoadTest.script, LoadTest.TOTAL_ATTEMPTS.
    destruct (load_attempts_fresh token key lim (LoadTest.MAX_ATTEMPTS + 2))
      as (envs & p & -> & Hl).
    cbn [fst snd]. rewrite passes_iff. cbn [LoadTest.success_count LoadTest.failure_count].
    lia.
Qed.

End LoadFacts.


(** ** The load test on several servers *)

Module MultiFacts.
Import DesktopEnv MultiLoadTest.

Ltac unfold_applied_id :=
  repeat match goal with |- context [id ?x] => change (id x) with x end.

Lemma count_on_snoc key envs env :
  count_on key (envs ++ [env])
  = count_on key envs + (if decide (remote_docker_server env = key) then 1 else 0).
Proof.
  unfold count_on. rewrite filter_app, length_app, filter_cons, filter_nil.
  by case_decide.
Qed.

Lemma tally_lookup envs key :
  tally envs !! key
  = if count_on key envs =? 0 then None else Some (count_on key envs).
Proof.
  induction envs as [|env envs IH] using rev_ind; [done|].
  unfold tally in *. rewrite fold_left_app. cbn [fold_left].
  rewrite count_on_snoc. case_decide as Hk.
  - rewrite Hk, lookup_insert_eq, IH.
    destruct (count_on key envs =? 0) eqn:E.
    + apply Nat.eqb_eq in E. rewrite E. done.
    + apply Nat.eqb_neq in E. simpl.
      destruct (count_on key envs + 1 =? 0) eqn:E'; [apply Nat.eqb_eq in E'; lia | done].
  - rewrite lookup_insert_ne, IH, Nat.add_0_r; done.
Qed.

Lemma attempts_tally {St} (svc : Service St) n :
  forall t st,
    server_usage t = tally (environments t) ->
    success_count t = length (environments t) ->
    let t' := fst (attempts svc n (t, st)) in
    server_usage t' = tally (environments t')
    /\ success_count t' = length (environments t').
Proof.
  induction n as [|n IH]; intros t st Hu Hs; [done|].
  cbn [attempts]. cbv zeta. unfold attempt.
  destruct (new_env svc st) as [[env|msg|msg] st']; apply IH; cbn; try done.
  - unfold tally. rewrite fold_left_app. cbn [fold_left]. fold (tally (environments t)).
    by rewrite Hu.
  - rewrite length_app. simpl. lia.
Qed.

Lemma sum_indicator (urls : list string) key :
  NoDup urls -> key ∈ urls ->
  sum_list (map (fun k => if decide (key = k) then 1 else 0) urls) = 1.
Proof.
  induction 1 as [|k urls Hnin Hnd IH]; intros Hin; [by apply elem_of_nil in Hin|].
  cbn [map sum_list]. apply elem_of_cons in Hin as [-> | Hin].
  - rewrite decide_True by done.
    assert (sum_list (map (fun k0 => if decide (k = k0) then 1 else 0) urls) = 0) as ->; [|done].
    clear IH Hnd. induction urls as [|k' urls IH]; [done|]. cbn [map sum_list].
    rewrite decide_False by set_solver. rewrite IH; [done | set_solver].
  - rewrite decide_False by set_solver. by rewrite IH.
Qed.

Lemma length_sum_counts urls envs :
  NoDup urls ->
  Forall (fun env => remote_docker_server env ∈ urls) envs ->
  length envs = sum_list (map (fun k => count_on k envs) urls).
Proof.
  intros Hnd. induction envs as [|env envs IH] using rev_ind; intros Hall.
  - clear. induction urls as [|k urls IHu]; [done|].
    cbn [map sum_list]. rewrite <- IHu. done.
  - apply Forall_app in Hall as [Hall Henv]. apply Forall_inv in Henv.
    rewrite length_app. cbn [length]. rewrite (IH Hall).
    rewrite <- (sum_indicator urls (remote_docker_server env) Hnd Henv).
    clear. induction urls as [|k urls IHu]; [done|]. cbn [map sum_list].
    rewrite count_on_snoc. unfold_applied_id. case_decide; lia.
Qed.

Lemma sum_all_equal (f : string -> nat) q urls :
  (forall k, k ∈ urls -> f k = q) -> sum_list (map f urls) = q * length urls.
Proof.
  induction urls as [|k urls IH]; intros H; cbn [map sum_list length]; [lia|].
  unfold_applied_id. rewrite H, IH; [lia | set_solver | set_solver].
Qed.

Lemma sum_bounded (f : string -> nat) q urls :
  (forall k, k ∈ urls -> f k <= q) ->
  sum_list (map f urls) <= q * length urls
  /\ (sum_list (map f urls) = q * length urls -> forall k, k ∈ urls -> f k = q).
Proof.
  induction urls as [|k urls IH]; intros H; cbn [map sum_list length];
    unfold_applied_id.
  - split; [lia | intros _ k Hk; by apply elem_of_nil in Hk].
  - destruct IH as [IH1 IH2]; [set_solver|].
    assert (f k <= q) by (apply H; set_solver).
    split; [lia|]. intros Hsum k' Hk'.
    apply elem_of_cons in Hk' as [-> | Hk']; [lia|]. apply IH2; [lia | done].
Qed.

Lemma balanced_iff urls t :
  balanced_distribution urls t = true
  <-> success_count t = PER_URL_QUOTA * length urls
      /\ map_Forall (fun _ count => count = PER_URL_QUOTA) (server_usage t).
Proof.
  unfold balanced_distribution, MAX_ATTEMPTS, URL_COUNT.
  destruct (success_count t =? PER_URL_QUOTA * length urls) eqn:E.
  - apply Nat.eqb_eq in E. rewrite bool_decide_eq_true. tauto.
  - apply Nat.eqb_neq in E. split; [done | tauto].
Qed.

Lemma count_on_elsewhere (urls : list string) envs key :
  Forall (fun env => remote_docker_server env ∈ urls) envs ->
  key ∉ urls -> count_on key envs = 0.
Proof.
  intros Hall Hk. unfold count_on.
  induction Hall as [|env envs He Hall IH]; [done|].
  rewrite filter_cons. case_decide as Heq; [|done]. by rewrite Heq in He.
Qed.

Lemma balanced_reachable urls t :
  NoDup urls ->
  server_usage t = tally (environments t) ->
  success_count t = length (environments t) ->
  Forall (fun env => remote_docker_server env ∈ urls) (environments t) ->
  (balanced_distribution urls t = true
   <-> forall url, url ∈ urls -> server_usage t !! url = Some PER_URL_QUOTA).
Proof.
  intros Hnd Hu Hs Hall. rewrite balanced_iff, Hu, Hs.
  rewrite (length_sum_counts urls (environments t) Hnd Hall).
  set (envs := environments t) in *. split.
  - intros [Hsum Hfa] url Hurl.
    assert (forall k, k ∈ urls -> count_on k envs <= PER_URL_QUOTA) as Hb.
    { intros k _. specialize (Hfa k). rewrite tally_lookup in Hfa.
      destruct (count_on k envs =? 0) eqn:E; [apply Nat.eqb_eq in E; lia|].
      by rewrite (Hfa _ eq_refl). }
    destruct (sum_bounded (fun k => count_on k envs) PER_URL_QUOTA urls Hb) as [_ Heq].
    rewrite tally_lookup, (Heq Hsum url Hurl). done.
  - intros Hq.
    assert (forall k, k ∈ urls -> count_on k envs = PER_URL_QUOTA) as Hc.
    { intros k Hk. specialize (Hq k Hk). rewrite tally_lookup in Hq.
      destruct (count_on k envs =? 0); congruence. }
    split; [by apply sum_all_equal|].
    intros k c. rewrite tally_lookup.
    destruct (count_on k envs =? 0) eqn:E; [done|]. intros [= <-].
    destruct (decide (k ∈ urls)) as [Hk|Hk]; [by apply Hc|].
    apply Nat.eqb_neq in E. exfalso. apply E.
    by apply (count_on_elsewhere urls).
Qed.


(** C4: in any run of the multi-server test whose environments all sit on
    the configured servers, the balanced-distribution check holds iff every
    configured server has a usage count equal to the per-server quota.
    Against two backends of limit 10 each, the first 20 allocations all
    succeed, 10 on each backend, the 21st and 22nd are denied, and both
    checks of the test pass. *)
Theorem multi_server_fair_distribution {St} (svc : Service St)
    (urls : list string) n st :
  NoDup urls ->
  let t := fst (attempts svc n (state0, st)) in
  Forall (fun env => remote_docker_server env ∈ urls) (environments t) ->
  (balanced_distribution urls t = true
   <-> forall url, url ∈ urls -> server_usage t !! url = Some PER_URL_QUOTA) /\
  let two := ["10.1.110.48:50003"; "10.1.110.43:50003"] in
  let pool := Broker.fresh_pool "dart" 10 two in
  let t20 := fst (attempts (Broker.service "dart") 20 (state0, pool)) in
  let t22 := fst (script (Broker.service "dart") two pool) in
  (success_count t20 = 20 /\ failure_count t20 = 0 /\
   forall url, url ∈ two -> server_usage t20 !! url = Some 10) /\
  (environments t22 = environments t20 /\ success_count t22 = 20 /\
   failure_count t22 = 2 /\ server_usage t22 = server_usage t20) /\
  passes two t22 = true /\
  polling_verdict two t22 = PollingOk.
Proof.
  intros Hnd t Hall. split.
  - destruct (attempts_tally svc n state0 st) as [Hu Hs]; [done | done |].
    by apply balanced_reachable.
  - intros two pool t20 t22. split; [|split; [|split]].
    + split; [vm_compute; reflexivity|]. split; [vm_compute; reflexivity|].
      intros url Hurl. subst two.
      repeat (apply elem_of_cons in Hurl as [-> | Hurl]); [..| by apply elem_of_nil in Hurl];
        vm_compute; reflexivity.
    + split; [|split; [|split]]; vm_compute; reflexivity.
    + vm_compute. reflexivity.
    + vm_compute. reflexivity.
Qed.


Lemma multi_server_fair_distribution_witness :
  let two := ["10.1.110.48:50003"; "10.1.110.43:50003"] in
  let t := fst (attempts (Broker.service "dart") 22
                  (state0, Broker.fresh_pool "dart" 10 two)) in
  balanced_distribution two t = true
  <-> forall url, url ∈ two -> server_usage t !! url = Some PER_URL_QUOTA.
Proof.
  intros two t.
  refine (proj1 (multi_server_fair_distribution (Broker.service "dart") two 22
                   (Broker.fresh_pool "dart" 10 two) _ _)).
  - apply (bool_decide_unpack _). vm_compute. exact I.
  - apply (bool_decide_unpack _). vm_compute. exact I.
Defined.

End MultiFacts.

(** ** Release and reuse *)

Module ReleaseFacts.
Import Broker BrokerFacts LoadFacts ReleaseView.

(** *** One backend *)

Lemma runs_Snapshot token lim srv ids :
  runs token lim srv ids ->
  Snapshot token srv = {| current := length ids; limit := lim |}.
Proof. intros (Hl & _). unfold Snapshot. by rewrite Hl. Qed.

Lemma runs_headroom token lim srv ids :
  runs token lim srv ids -> headroom token srv = lim - length ids.
Proof. intros H. unfold headroom. by rewrite (runs_Snapshot _ _ _ _ H). Qed.

Lemma runs_fresh token lim : runs token lim (fresh_server token lim) [].
Proof.
  unfold runs, fresh_server, SetLimit. cbn. rewrite lookup_insert_eq.
  split; [done|]. split; [lia|]. split; constructor.
Qed.

Lemma Start_runs token lim srv ids :
  runs token lim srv ids -> length ids < lim ->
  fst (Start token srv) = Granted (next_id srv) /\
  runs token lim (snd (Start token srv)) (ids ++ [next_id srv]).
Proof.
  intros Hr Hlt. pose proof (runs_Snapshot _ _ _ _ Hr) as Hs.
  destruct Hr as (Hl & Hle & Hnd & Hall).
  unfold Start. cbn [request_step]. unfold TryAdmit. rewrite Hs.
  cbn [current limit]. destruct (Nat.ltb_spec (length ids) lim) as [_|?]; [|lia].
  cbn. split; [done|]. unfold runs. cbn.
  rewrite lookup_insert_eq, length_app. cbn [length].
  split; [do 2 f_equal; lia|]. split; [lia|]. split.
  - apply NoDup_app. split; [done|]. split; [|apply NoDup_singleton].
    intros id Hid ->%list_elem_of_singleton.
    rewrite Forall_forall in Hall. destruct (Hall _ Hid). lia.
  - apply Forall_app. split.
    + eapply Forall_impl; [exact Hall|]. intros id [Hi Hn]. cbn beta.
      split; [|lia]. rewrite lookup_insert_ne; [done | lia].
    + constructor; [|constructor]. split; [by rewrite lookup_insert_eq | lia].
Qed.

Lemma Stop_runs token lim srv id ids :
  runs token lim srv (id :: ids) -> runs token lim (Stop id srv) ids.
Proof.
  intros (Hl & Hle & Hnd & Hall). apply NoDup_cons in Hnd as [Hnin Hnd].
  apply Forall_cons in Hall as [[Hid _] Hall].
  unfold Stop. rewrite Hid. unfold Release, Snapshot. cbn. rewrite Hl.
  unfold runs. cbn. rewrite lookup_insert_eq.
  split; [done|]. cbn [length] in Hle. split; [lia|]. split; [done|].
  rewrite Forall_forall in Hall. apply Forall_forall. intros id' Hid'.
  destruct (Hall _ Hid') as [Hi Hn]. split; [|done].
  rewrite lookup_delete_ne; [done|]. intros ->. done.
Qed.

Lemma Tokens_runs token lim srv ids :
  runs token lim srv ids ->
  Tokens srv !! token
  = Some {| DesktopEnv.current := Z.of_nat (length ids);
            DesktopEnv.limit := Z.of_nat lim |}.
Proof. intros (Hl & _). unfold Tokens. by rewrite lookup_fmap, Hl. Qed.

(** *** The selector *)

Lemma max_ge (l : list nat) x : x ∈ l -> x <= foldr Nat.max 0 l.
Proof.
  induction l as [|y l IH]; [by intros ?%elem_of_nil|].
  cbn. intros [->|Hin]%elem_of_cons; [lia|]. specialize (IH Hin). lia.
Qed.

Lemma max_attained (l : list nat) :
  0 < foldr Nat.max 0 l -> foldr Nat.max 0 l ∈ l.
Proof.
  induction l as [|y l IH]; cbn; [lia|]. intros Hpos.
  destruct (Nat.max_spec y (foldr Nat.max 0 l)) as [[Hlt ->]|[Hle ->]].
  - right. apply IH. lia.
  - by left.
Qed.

Lemma rotation_covers p i : i < length (backends p) -> i ∈ rotation p.
Proof.
  intros Hi. unfold rotation. set (n := length (backends p)) in *.
  apply list_elem_of_fmap. exists ((i + n - cursor p mod n) mod n).
  assert (cursor p mod n < n) as Hc by (apply Nat.mod_upper_bound; lia).
  split.
  - rewrite Nat.Div0.add_mod_idemp_r.
    rewrite <- Nat.Div0.add_mod_idemp_l.
    replace (cursor p mod n + (i + n - cursor p mod n)) with (i + 1 * n) by lia.
    rewrite Nat.Div0.mod_add. by rewrite Nat.mod_small.
  - apply elem_of_seq. split; [lia|]. cbn.
    apply Nat.mod_upper_bound. lia.
Qed.

Lemma Choose_spec token p :
  match Choose token p with
  | Some i => exists b, backends p !! i = Some b /\ 0 < headroom token (snd b)
  | None => Forall (fun b => headroom token (snd b) = 0) (backends p)
  end.
Proof.
  unfold Choose. set (best := most_headroom token p).
  destruct (Nat.eqb_spec best 0) as [Hz|Hnz].
  - apply Forall_forall. intros b Hb.
    assert (headroom token (snd b) <= best); [|lia].
    apply max_ge, list_elem_of_fmap. by exists b.
  - destruct (find _ (rotation p)) as [i|] eqn:Hfind.
    + apply find_some in Hfind as [_ Hi].
      destruct (backends p !! i) as [b|]; [|done].
      apply Nat.eqb_eq in Hi. exists b. split; [done | lia].
    + exfalso.
      assert (best ∈ map (fun b => headroom token (snd b)) (backends p)) as Hin
        by (apply max_attained; fold (most_headroom token p); fold best; lia).
      apply list_elem_of_fmap in Hin as (b & Hb & Hin).
      apply list_elem_of_lookup in Hin as [i Hi].
      pose proof (find_none _ _ Hfind i) as Hn. cbv beta in Hn.
      rewrite Hi, <- Hb, Nat.eqb_refl in Hn.
      assert (In i (rotation p)) as Hrot.
      { apply list_elem_of_In, rotation_covers. by eapply lookup_lt_Some. }
      by specialize (Hn Hrot).
Qed.

Lemma PoolStart_spec token p :
  match PoolStart token p with
  | (Some (key, emulator_id), p') =>
      exists i srv,
        backends p !! i = Some (key, srv) /\ 0 < headroom token srv /\
        emulator_id = next_id srv /\
        backends p' = <[i := (key, snd (Start token srv))]> (backends p)
  | (None, p') =>
      p' = p /\ Forall (fun b => headroom token (snd b) = 0) (backends p)
  end.
Proof.
  unfold PoolStart. pose proof (Choose_spec token p) as Hc.
  destruct (Choose token p) as [i|]; [|done].
  destruct Hc as ([key srv] & Hi & Hpos). rewrite Hi. cbn [snd] in Hpos.
  destruct (headroom_Start token srv Hpos) as [_ Hg].
  destruct (Start token srv) as [r srv'] eqn:HS. cbn [fst snd] in *. subst r.
  exists i, srv. rewrite HS. split; [done|]. split; [done|]. split; done.
Qed.

Lemma new_env_spec token p :
  match DesktopEnv.new_env (service token) p with
  | (DesktopEnv.Started env, p') =>
      exists i srv,
        backends p !! i = Some (DesktopEnv.remote_docker_server env, srv) /\
        0 < headroom token srv /\
        DesktopEnv.emulator_id env = next_id srv /\
        backends p'
        = <[i := (DesktopEnv.remote_docker_server env, snd (Start token srv))]>
            (backends p)
  | (DesktopEnv.RuntimeError _, p') =>
      p' = p /\ Forall (fun b => headroom token (snd b) = 0) (backends p)
  | (DesktopEnv.OtherException _, _) => False
  end.
Proof.
  cbn [service DesktopEnv.new_env]. pose proof (PoolStart_spec token p) as Hs.
  destruct (PoolStart token p) as [[[key emulator_id]|] p']; cbn; done.
Qed.

(** *** The environments held and the pool *)

Lemma default_Some {A} (d x : A) : default d (Some x) = x.
Proof. reflexivity. Qed.

Lemma sum_list_insert {A} (f : A -> nat) (l : list A) i x y :
  l !! i = Some x ->
  sum_list (map f (<[i := y]> l)) + f x = sum_list (map f l) + f y.
Proof.
  revert i. induction l as [|z l IH]; intros [|i] Hi; try done.
  - injection Hi as ->. cbn. lia.
  - specialize (IH i Hi). change (<[S i := y]> (z :: l)) with (z :: <[i := y]> l).
    cbn [map]. change (sum_list (?a :: ?k)) with (a + sum_list k).
    rewrite <- !Nat.add_assoc. by rewrite IH.
Qed.

Lemma sum_list_zero {A} (f : A -> nat) (l : list A) :
  sum_list (map f l) = 0 <-> Forall (fun x => f x = 0) l.
Proof.
  induction l as [|z l IH]; cbn; [split; [by constructor | done]|].
  rewrite Forall_cons, <- IH. lia.
Qed.

Lemma total_headroom_fresh token lim keys :
  total_headroom token (fresh_pool token lim keys) = lim * length keys.
Proof.
  unfold total_headroom, fresh_pool. cbn [backends]. rewrite map_map. cbn [snd].
  induction keys as [|key keys IH]; cbn; [lia|].
  rewrite IH, headroom_fresh. lia.
Qed.

Lemma in_step_fresh token lim keys :
  NoDup keys -> in_step token lim ReleaseTest.held0 (fresh_pool token lim keys).
Proof.
  intros Hnd. split.
  - cbn. rewrite map_map. cbn. by rewrite map_id.
  - intros i key srv Hi. cbn in Hi.
    apply list_lookup_fmap_Some in Hi as (k & [= -> ->] & _).
    cbn. rewrite lookup_empty. cbn. split; [apply runs_fresh | constructor].
Qed.

(** A started environment is held under its backend. *)
Lemma in_step_hold token lim h p p' i env srv :
  in_step token lim h p ->
  backends p !! i = Some (DesktopEnv.remote_docker_server env, srv) ->
  0 < headroom token srv ->
  DesktopEnv.emulator_id env = next_id srv ->
  backends p'
  = <[i := (DesktopEnv.remote_docker_server env, snd (Start token srv))]> (backends p) ->
  in_step token lim (ReleaseTest.hold env h) p' /\
  map fst (backends p') = map fst (backends p) /\
  total_headroom token p' + 1 = total_headroom token p /\
  length (default [] (ReleaseTest.by_server h
                        !! DesktopEnv.remote_docker_server env)) < lim.
Proof.
  intros [Hnd Hall] Hi Hpos Hid Hp'.
  set (key := DesktopEnv.remote_docker_server env) in *.
  destruct (Hall i key srv Hi) as [Hruns Hkeys].
  pose proof (runs_headroom _ _ _ _ Hruns) as Hh. rewrite length_map in Hh.
  assert (length (default [] (ReleaseTest.by_server h !! key)) < lim) as Hlt by lia.
  assert (map fst (backends p') = map fst (backends p)) as Hfst.
  { rewrite Hp'. change map with (@fmap list _). rewrite list_fmap_insert. cbn [fst].
    apply list_insert_id. by rewrite list_lookup_fmap, Hi. }
  destruct (Start_runs token lim srv _ Hruns) as [_ Hruns'];
    [by rewrite length_map|].
  split; [|split; [done|split; [|done]]].
  - split; [by rewrite Hfst|].
    intros j key' srv' Hj. rewrite Hp' in Hj.
    unfold ReleaseTest.hold. cbn [ReleaseTest.by_server]. fold key.
    destruct (decide (i = j)) as [<-|Hne].
    + rewrite list_lookup_insert_eq in Hj by (by eapply lookup_lt_Some).
      injection Hj as <- <-. rewrite lookup_insert_eq, default_Some.
      rewrite map_app. cbn [map]. rewrite Hid. split; [done|].
      apply Forall_app. split; [done | by repeat constructor].
    + rewrite list_lookup_insert_ne in Hj by done.
      assert (key' <> key) as Hk.
      { intros ->. apply Hne. eapply (NoDup_lookup _ _ _ key Hnd).
        - by rewrite list_lookup_fmap, Hi.
        - change map with (@fmap list _). by rewrite list_lookup_fmap, Hj. }
      rewrite lookup_insert_ne by done. by apply (Hall j).
  - unfold total_headroom. rewrite Hp'.
    pose proof (sum_list_insert (fun b => headroom token (snd b)) (backends p) i
                  _ (key, snd (Start token srv)) Hi) as Hsum.
    cbn [snd] in Hsum. destruct (headroom_Start token srv Hpos) as [Hdec _]. lia.
Qed.

(** Phase 1: the loop counts what it starts, never exceeds the headroom,
    and stops early only when no backend has headroom left. *)
Lemma fill_pool token lim n : forall count h p,
  in_step token lim h p ->
  exists count' h' p',
    ReleaseTest.fill (service token) n count h p = (count', h', p') /\
    in_step token lim h' p' /\
    map fst (backends p') = map fst (backends p) /\
    count' + total_headroom token p' = count + total_headroom token p /\
    (count' = count + n \/ total_headroom token p' = 0).
Proof.
  induction n as [|n IH]; intros count h p Hstep.
  - exists count, h, p. cbn. split; [done|]. split; [done|]. split; [done|].
    split; [done | left; lia].
  - cbn [ReleaseTest.fill]. pose proof (new_env_spec token p) as Hnew.
    destruct (DesktopEnv.new_env (service token) p) as [[env|msg|msg] p1].
    + destruct Hnew as (i & srv & Hi & Hpos & Hid & Hp1).
      destruct (in_step_hold token lim h p p1 i env srv Hstep Hi Hpos Hid Hp1)
        as (Hstep1 & Hfst & Htot & _).
      destruct (IH (S count) (ReleaseTest.hold env h) p1 Hstep1)
        as (count' & h' & p' & -> & Hs' & Hf' & Hc' & Hend).
      exists count', h', p'. split; [done|]. split; [done|].
      split; [congruence|]. split; [lia|]. destruct Hend; [left; lia | by right].
    + destruct Hnew as [-> Hzero]. exists count, h, p.
      split; [done|]. split; [done|]. split; [done|]. split; [done|].
      right. by apply sum_list_zero.
    + done.
Qed.

(** Phase 2: closing the first environments held on the first backend
    releases them there and nowhere else. *)
Lemma release_pool token lim keys to_release : forall rest released h p,
  in_step token lim h p ->
  map fst (backends p) = keys -> keys <> [] ->
  default [] (ReleaseTest.by_server h !! ReleaseTest.first_key keys)
  = to_release ++ rest ->
  exists h' p',
    ReleaseTest.release (service token) keys to_release released h p
    = (released + length to_release, h', p') /\
    in_step token lim h' p' /\
    map fst (backends p') = keys /\
    default [] (ReleaseTest.by_server h' !! ReleaseTest.first_key keys) = rest /\
    forall key, key <> ReleaseTest.first_key keys ->
      ReleaseTest.by_server h' !! key = ReleaseTest.by_server h !! key.
Proof.
  set (first := ReleaseTest.first_key keys).
  induction to_release as [|env to_release IH]; intros rest released h p Hstep Hkeys Hne Hheld.
  - exists h, p. cbn. rewrite Nat.add_0_r. done.
  - cbn [ReleaseTest.release service DesktopEnv.close].
    destruct keys as [|key0 keys']; [done|]. clear Hne.
    destruct (backends p) as [|[k0 srv0] others] eqn:Hb; [done|].
    injection Hkeys as -> Hkeys'.
    change (ReleaseTest.first_key (key0 :: keys')) with key0 in *. subst first.
    destruct Hstep as [Hnd Hall].
    destruct (Hall 0 key0 srv0) as [Hruns0 Hon0]; [by rewrite Hb|].
    rewrite Hheld in Hruns0, Hon0. apply Forall_cons in Hon0 as [Hkey Hon0].
    rewrite Hheld. cbn [ReleaseTest.list_remove app].
    rewrite decide_True by done.
    set (h1 := {| ReleaseTest.all_envs := ReleaseTest.all_envs h;
                  ReleaseTest.by_server :=
                    <[key0 := to_release ++ rest]> (ReleaseTest.by_server h) |}).
    set (p1 := PoolStop (DesktopEnv.remote_docker_server env)
                 (DesktopEnv.emulator_id env) p).
    assert (map fst (backends p1) = key0 :: keys') as Hkeys1.
    { unfold p1, PoolStop. cbn [backends]. rewrite map_map, Hb.
      rewrite <- Hkeys'. change (key0 :: map fst others)
        with (map fst ((key0, srv0) :: others)).
      apply map_ext. intros b. by destruct (_ =? _)%string. }
    assert (in_step token lim h1 p1) as Hstep1.
    { split; [rewrite Hkeys1, <- Hkeys'; rewrite Hb in Hnd; exact Hnd|].
      intros j key srv Hj. unfold p1, PoolStop in Hj. cbn [backends] in Hj.
      change map with (@fmap list _) in Hj.
      apply list_lookup_fmap_Some in Hj as ([kj srvj] & Heq & Hj).
      cbn [fst snd] in Heq. rewrite Hkey in Heq.
      unfold h1. cbn [ReleaseTest.by_server].
      destruct (String.eqb_spec kj key0) as [->|Hkj].
      - injection Heq as -> ->. rewrite lookup_insert_eq, default_Some.
        assert (j = 0) as ->.
        { eapply (NoDup_lookup _ _ _ key0 Hnd).
          - by rewrite list_lookup_fmap, Hj.
          - by rewrite Hb. }
        rewrite Hb in Hj. injection Hj as <-.
        split; [|done]. by apply (Stop_runs token lim srv0 (DesktopEnv.emulator_id env)).
      - injection Heq as -> ->. rewrite lookup_insert_ne by done. by apply (Hall j). }
    destruct (IH rest (S released) h1 p1 Hstep1 Hkeys1)
      as (h' & p' & -> & Hs' & Hk' & Hrest & Hother); [done | |].
    { unfold h1. cbn. by rewrite lookup_insert_eq. }
    exists h', p'. split; [f_equal; f_equal; cbn; lia|].
    split; [done|]. split; [done|]. split; [done|].
    intros key Hkey'. rewrite Hother by done. unfold h1. cbn.
    by rewrite lookup_insert_ne.
Qed.

Lemma first_backend (p : Pool) keys :
  map fst (backends p) = keys -> keys <> [] ->
  exists srv others,
    backends p = (ReleaseTest.first_key keys, srv) :: others.
Proof.
  intros Hk Hne. destruct keys as [|key0 keys']; [done|].
  destruct (backends p) as [|[k0 srv0] others]; [done|].
  injection Hk as -> _. by exists srv0, others.
Qed.

(** What [/tokens] of the first backend shows. *)
Lemma snapshot_first token lim keys h p :
  in_step token lim h p -> map fst (backends p) = keys -> keys <> [] ->
  ReleaseTest.get_tokens_snapshot (service token) (ReleaseTest.first_key keys) token p
  = Some {| DesktopEnv.current :=
              Z.of_nat (length (default [] (ReleaseTest.by_server h
                                              !! ReleaseTest.first_key keys)));
            DesktopEnv.limit := Z.of_nat lim |}.
Proof.
  intros [_ Hall] Hk Hne. destruct (first_backend p keys Hk Hne) as (srv & others & Hb).
  destruct (Hall 0 (ReleaseTest.first_key keys) srv) as [Hruns _]; [by rewrite Hb|].
  unfold ReleaseTest.get_tokens_snapshot. cbn [service DesktopEnv.tokens].
  unfold PoolTokens. rewrite Hb. cbn [find fst snd]. rewrite String.eqb_refl.
  cbn [snd]. rewrite (Tokens_runs _ _ _ _ Hruns). by rewrite length_map.
Qed.

(** The wait loop against a state that does not change: it succeeds iff it
    polls at all and the slots available are at least those expected. *)
Lemma wait_available_spec {St} (svc : DesktopEnv.Service St) key token expect polls st info :
  ReleaseTest.get_tokens_snapshot svc key token st = Some info ->
  ReleaseTest.wait_available svc key token expect polls st
  = (0 <? polls) && (expect <=? DesktopEnv.limit info - DesktopEnv.current info)%Z.
Proof.
  intros Hinfo. induction polls as [|polls IH]; [done|].
  cbn [ReleaseTest.wait_available]. rewrite Hinfo, IH. cbv zeta.
  rewrite Z.geb_leb. by destruct (_ <=? _)%Z, polls.
Qed.

(** Phase 3: with headroom [m] on the first backend and none elsewhere, the
    first [m] attempts start there and the others are denied. *)
Lemma second_wave_pool token lim keys n : forall wave h p m,
  in_step token lim h p -> map fst (backends p) = keys -> keys <> [] ->
  length (default [] (ReleaseTest.by_server h !! ReleaseTest.first_key keys)) + m = lim ->
  (forall key, key ∈ keys -> key <> ReleaseTest.first_key keys ->
     length (default [] (ReleaseTest.by_server h !! key)) = lim) ->
  exists new h' p',
    ReleaseTest.second_wave (service token) n wave h p = (wave ++ new, h', p') /\
    length new = Nat.min n m /\
    Forall (fun env => DesktopEnv.remote_docker_server env = ReleaseTest.first_key keys)
      new /\
    in_step token lim h' p' /\
    map fst (backends p') = keys /\
    length (default [] (ReleaseTest.by_server h' !! ReleaseTest.first_key keys))
    + (m - Nat.min n m) = lim.
Proof.
  set (first := ReleaseTest.first_key keys).
  induction n as [|n IH]; intros wave h p m Hstep Hk Hne Hfirst Hfull.
  - exists [], h, p. rewrite app_nil_r. cbn. split; [done|]. split; [done|].
    split; [constructor|]. split; [done|]. split; [done | lia].
  - cbn [ReleaseTest.second_wave]. pose proof (new_env_spec token p) as Hnew.
    destruct (DesktopEnv.new_env (service token) p) as [[env|msg|msg] p1].
    + destruct Hnew as (i & srv & Hi & Hpos & Hid & Hp1).
      destruct (in_step_hold token lim h p p1 i env srv Hstep Hi Hpos Hid Hp1)
        as (Hstep1 & Hfst & _ & Hlt).
      assert (DesktopEnv.remote_docker_server env = first) as Hon.
      { destruct (decide (DesktopEnv.remote_docker_server env = first)) as [|Hn]; [done|].
        exfalso. rewrite Hfull in Hlt; [lia | | done].
        rewrite <- Hk. apply list_elem_of_fmap. eexists. split; [|by eapply list_elem_of_lookup_2].
        done. }
      assert (1 <= m) as Hm by (rewrite Hon in Hlt; lia).
      destruct (IH (wave ++ [env]) (ReleaseTest.hold env h) p1 (m - 1) Hstep1)
        as (new & h' & p' & -> & Hlen & Hall & Hs' & Hk' & Hf'); [congruence | done | | |].
      { unfold ReleaseTest.hold. cbn [ReleaseTest.by_server]. rewrite Hon.
        rewrite lookup_insert_eq, default_Some, length_app. cbn [length]. lia. }
      { intros key Hkey Hnf. unfold ReleaseTest.hold. cbn [ReleaseTest.by_server].
        rewrite Hon, lookup_insert_ne by done. by apply Hfull. }
      exists (env :: new), h', p'. rewrite <- app_assoc. split; [done|].
      cbn [length]. split; [lia|]. split; [by constructor|]. split; [done|].
      split; [done | lia].
    + destruct Hnew as [-> Hzero].
      assert (m = 0) as ->.
      { destruct (first_backend p keys Hk Hne) as (srv & others & Hb).
        destruct Hstep as [_ Hall].
        destruct (Hall 0 first srv) as [Hruns _]; [by rewrite Hb|].
        pose proof (runs_headroom _ _ _ _ Hruns) as Hh. rewrite length_map in Hh.
        rewrite Hb in Hzero. apply Forall_cons in Hzero as [Hz _]. cbn [snd] in Hz.
        fold first in Hh. lia. }
      destruct (IH wave h p 0 Hstep Hk Hne Hfirst Hfull)
        as (new & h' & p' & -> & Hlen & Hall & Hs' & Hk' & Hf').
      exists new, h', p'. split; [done|]. split; [lia|]. split; [done|].
      split; [done|]. split; [done | lia].
    + done.
Qed.

Lemma filter_Forall_id {A} (P : A -> Prop) `{!forall x, Decision (P x)} (l : list A) :
  Forall P l -> filter P l = l.
Proof.
  induction 1 as [|x l Hx _ IH]; [done|].
  rewrite filter_cons, decide_True by done. by rewrite IH.
Qed.

(** The run of the whole script against a fresh pool. *)
Lemma release_main_pool token keys lim K polls :
  NoDup keys -> keys <> [] -> 1 <= K <= lim -> lim <= ReleaseTest.PER_URL_QUOTA ->
  exists count h1 p1 h2 p2 r,
    ReleaseTest.fill (service token) (ReleaseTest.MAX_ATTEMPTS keys) 0
      ReleaseTest.held0 (fresh_pool token lim keys) = (count, h1, p1) /\
    count = lim * length keys /\
    Forall (fun b => headroom token (snd b) = 0) (backends p1) /\
    ReleaseTest.get_tokens_snapshot (service token) (ReleaseTest.first_key keys) token p1
    = Some {| DesktopEnv.current := Z.of_nat lim; DesktopEnv.limit := Z.of_nat lim |} /\
    ReleaseTest.release (service token) keys
      (take K (default [] (ReleaseTest.by_server h1 !! ReleaseTest.first_key keys)))
      0 h1 p1 = (K, h2, p2) /\
    ReleaseTest.get_tokens_snapshot (service token) (ReleaseTest.first_key keys) token p2
    = Some {| DesktopEnv.current := Z.of_nat (lim - K);
              DesktopEnv.limit := Z.of_nat lim |} /\
    fst (ReleaseTest.main (service token) keys token K polls (fresh_pool token lim keys))
    = Some r /\
    ReleaseTest.success_count r = lim * length keys /\
    ReleaseTest.released_count r = K /\
    ReleaseTest.waited_ok r = (0 <? polls) /\
    ReleaseTest.second_wave_success r = K /\
    ReleaseTest.second_wave_on_first r = K /\
    ReleaseTest.test1_pass r = true /\
    ReleaseTest.test2_pass r = true /\
    ReleaseTest.test3_pass r = true.
Proof.
  intros Hnd Hne HK Hlim.
  set (pool := fresh_pool token lim keys).
  assert (map fst (backends pool) = keys) as Hk0.
  { unfold pool, fresh_pool. cbn. rewrite map_map. cbn. by rewrite map_id. }
  destruct (fill_pool token lim (ReleaseTest.MAX_ATTEMPTS keys) 0 ReleaseTest.held0 pool
              (in_step_fresh token lim keys Hnd))
    as (count & h1 & p1 & Hfill & Hs1 & Hk1 & Hc1 & Hend1).
  rewrite Hk0 in Hk1. unfold pool in Hc1. rewrite total_headroom_fresh in Hc1.
  unfold ReleaseTest.MAX_ATTEMPTS, ReleaseTest.URL_COUNT in Hend1.
  assert (total_headroom token p1 = 0 /\ count = lim * length keys) as [Hzero Hcount].
  { destruct Hend1 as [Hall|Hz]; [|lia]. nia. }
  apply sum_list_zero in Hzero.
  assert (forall key, key ∈ keys ->
            length (default [] (ReleaseTest.by_server h1 !! key)) = lim) as Hfull.
  { intros key Hkey. rewrite <- Hk1 in Hkey.
    apply list_elem_of_fmap in Hkey as ([k srv] & -> & Hin). cbn [fst].
    rewrite Forall_forall in Hzero. specialize (Hzero _ Hin). cbn [snd] in Hzero.
    apply list_elem_of_lookup in Hin as [i Hi].
    destruct Hs1 as [_ Hall]. destruct (Hall i k srv Hi) as [Hruns _].
    pose proof (runs_headroom _ _ _ _ Hruns) as Hh.
    destruct Hruns as (_ & Hle & _). rewrite length_map in Hh, Hle. lia. }
  assert (ReleaseTest.first_key keys ∈ keys) as Hfirst_in.
  { destruct keys; [done|]. by left. }
  pose proof (Hfull _ Hfirst_in) as Hlen1.
  pose proof (snapshot_first token lim keys h1 p1 Hs1 Hk1 Hne) as Hsnap1.
  rewrite Hlen1 in Hsnap1.
  remember (default [] (ReleaseTest.by_server h1 !! ReleaseTest.first_key keys))
    as held eqn:Hheld.
  destruct (release_pool token lim keys (take K held) (drop K held) 0 h1 p1 Hs1 Hk1 Hne)
    as (h2 & p2 & Hrel & Hs2 & Hk2 & Hrest & Hother);
    [by rewrite <- Hheld, take_drop|].
  rewrite length_take, Nat.min_l in Hrel by lia. cbn [Nat.add] in Hrel.
  pose proof (snapshot_first token lim keys h2 p2 Hs2 Hk2 Hne) as Hsnap2.
  rewrite Hrest, length_drop, Hlen1 in Hsnap2.
  destruct (second_wave_pool token lim keys (K + 1) [] h2 p2 K Hs2 Hk2 Hne)
    as (new & h3 & p3 & Hwave & Hnew & Hon & Hs3 & Hk3 & Hlen3).
  { rewrite Hrest, length_drop. lia. }
  { intros key Hkey Hnf. rewrite Hother by done. by apply Hfull. }
  rewrite Nat.min_r in Hnew, Hlen3 by lia. cbn [app] in Hwave.
  pose proof (snapshot_first token lim keys h3 p3 Hs3 Hk3 Hne) as Hsnap3.
  assert (length (default [] (ReleaseTest.by_server h3 !! ReleaseTest.first_key keys))
          = lim) as Hlen3' by lia.
  rewrite Hlen3' in Hsnap3.
  eexists count, h1, p1, h2, p2, _.
  split; [exact Hfill|]. split; [exact Hcount|]. split; [exact Hzero|].
  split; [exact Hsnap1|]. split; [rewrite <- Hheld; exact Hrel|].
  split; [exact Hsnap2|].
  unfold ReleaseTest.main. fold pool. rewrite Hfill. rewrite <- Hheld.
  destruct (take K held) as [|env0 more] eqn:Htake.
  { apply (f_equal length) in Htake. rewrite length_take in Htake. cbn in Htake. lia. }
  rewrite Hrel.
  rewrite (wait_available_spec _ _ _ _ _ _ _ Hsnap2).
  unfold ReleaseTest.SECOND_WAVE_COUNT. rewrite Hwave. rewrite Hsnap3.
  cbn [fst DesktopEnv.current DesktopEnv.limit].
  split; [reflexivity|]. cbn [ReleaseTest.success_count ReleaseTest.released_count
    ReleaseTest.waited_ok ReleaseTest.second_wave_success
    ReleaseTest.second_wave_on_first ReleaseTest.test1_pass ReleaseTest.test2_pass
    ReleaseTest.test3_pass].
  rewrite (filter_Forall_id _ _ Hon), Hnew.
  split; [done|]. split; [done|]. split.
  { destruct (0 <? polls); [|done]. cbn [andb]. apply Z.leb_le. lia. }
  split; [done|]. split; [done|].
  split; [apply Nat.leb_le; lia|]. split; [apply Nat.leb_le; lia|].
  apply Z.leb_le. lia.
Qed.

(** C5: the release test against a fresh pool of any number of backends,
    each with a limit [lim] for the token that the script's per-server
    quota covers.  Phase 1 fills every backend: [lim] environments on each,
    no slot available on the first.  Releasing [K] of the environments of
    the first backend makes exactly [K] of its slots available again, which
    the bounded wait sees at its first poll: it succeeds iff it polls at
    all and the slots expected are at most [K].  Of the [K + 1] allocations
    that follow, [K] succeed, all of them on the backend just freed, and
    the three checks of the test pass. *)
Theorem release_and_reuse (token : string) (keys : list string) (lim K polls : nat) :
  NoDup keys -> keys <> [] -> 1 <= K <= lim -> lim <= ReleaseTest.PER_URL_QUOTA ->
  1 <= polls ->
  let svc := service token in
  let first_key := ReleaseTest.first_key keys in
  let filled :=
    ReleaseTest.fill svc (ReleaseTest.MAX_ATTEMPTS keys) 0 ReleaseTest.held0
      (fresh_pool token lim keys) in
  let to_release :=
    take K (default [] (ReleaseTest.by_server filled.1.2 !! first_key)) in
  let released := ReleaseTest.release svc keys to_release 0 filled.1.2 filled.2 in
  let available := fun p =>
    match ReleaseTest.get_tokens_snapshot svc first_key token p with
    | Some info => Some (DesktopEnv.limit info - DesktopEnv.current info)%Z
    | None => None
    end in
  filled.1.1 = lim * length keys /\
  Forall (fun b => headroom token (snd b) = 0) (backends filled.2) /\
  available filled.2 = Some 0%Z /\
  released.1.1 = K /\
  available released.2 = Some (Z.of_nat K) /\
  (forall expect,
     ReleaseTest.wait_available svc first_key token expect polls released.2
     = bool_decide (expect <= Z.of_nat K)%Z) /\
  (forall expect,
     ReleaseTest.wait_available svc first_key token expect 0 released.2 = false) /\
  exists r,
    fst (ReleaseTest.main svc keys token K polls (fresh_pool token lim keys)) = Some r /\
    ReleaseTest.success_count r = lim * length keys /\
    ReleaseTest.released_count r = K /\
    ReleaseTest.waited_ok r = true /\
    ReleaseTest.second_wave_success r = K /\
    ReleaseTest.second_wave_on_first r = K /\
    ReleaseTest.all_pass r = true.
Proof.
  intros Hnd Hne HK Hlim Hpolls svc first_key filled to_release released available.
  destruct (release_main_pool token keys lim K polls Hnd Hne HK Hlim)
    as (count & h1 & p1 & h2 & p2 & r & Hfill & Hcount & Hzero & Hsnap1 & Hrel
        & Hsnap2 & Hmain & Hr1 & Hr2 & Hr3 & Hr4 & Hr5 & Hr6 & Hr7 & Hr8).
  subst svc first_key filled to_release released available. cbv beta.
  rewrite Hfill. cbn [fst snd]. rewrite Hrel. cbn [fst snd].
  rewrite Hsnap1, Hsnap2. cbn [DesktopEnv.current DesktopEnv.limit].
  split; [done|]. split; [done|]. split; [f_equal; lia|]. split; [done|].
  split; [f_equal; lia|]. split; [|split].
  - intros expect. rewrite (wait_available_spec _ _ _ _ _ _ _ Hsnap2).
    cbn [DesktopEnv.current DesktopEnv.limit].
    destruct (Nat.ltb_spec 0 polls) as [_|?]; [|lia]. cbn [andb].
    replace (Z.of_nat lim - Z.of_nat (lim - K))%Z with (Z.of_nat K) by lia.
    case_bool_decide; [by apply Z.leb_le | by apply Z.leb_gt; lia].
  - done.
  - exists r. split; [done|]. split; [done|]. split; [done|].
    split; [rewrite Hr3; apply Nat.ltb_lt; lia|]. split; [done|]. split; [done|].
    unfold ReleaseTest.all_pass. by rewrite Hr6, Hr7, Hr8.
Qed.

Lemma release_and_reuse_witness :
  exists r,
    fst (ReleaseTest.main (service "dart")
           ["10.1.110.48:50003"; "10.1.110.43:50003"] "dart"
           ReleaseTest.RELEASE_COUNT 20
           (fresh_pool "dart" 10
              ["10.1.110.48:50003"; "10.1.110.43:50003"])) = Some r /\
    ReleaseTest.success_count r = 10 * 2 /\
    ReleaseTest.released_count r = 3 /\
    ReleaseTest.waited_ok r = true /\
    ReleaseTest.second_wave_success r = 3 /\
    ReleaseTest.second_wave_on_first r = 3 /\
    ReleaseTest.all_pass r = true.
Proof.
  refine (proj2 (proj2 (proj2 (proj2 (proj2 (proj2 (proj2
    (release_and_reuse "dart" ["10.1.110.48:50003"; "10.1.110.43:50003"] 10
       ReleaseTest.RELEASE_COUNT 20 _ _ _ _ _)))))))).
  - apply (bool_decide_unpack _). vm_compute. exact I.
  - done.
  - unfold ReleaseTest.RELEASE_COUNT. lia.
  - unfold ReleaseTest.PER_URL_QUOTA. lia.
  - lia.
Defined.

End ReleaseFacts.

Module ConcurrencyRunFacts.
Import ConcurrencyTest ConcurrencyRun PyStrFacts.

Lemma slashes_S n : slashes (S n) = String "/" (slashes n).
Proof. reflexivity. Qed.

Lemma lstrip_slashes n s : lstrip_slash (slashes n +:+ s) = lstrip_slash s.
Proof.
  induction n as [|n IH]; [done|].
  rewrite slashes_S, append_String. simpl. exact IH.
Qed.

Lemma rstrip_app_slash s : rstrip_slash (s +:+ "/") = rstrip_slash s.
Proof.
  induction s as [|c s IH]; [done|].
  rewrite append_String. simpl. by rewrite IH.
Qed.

Lemma append_assoc (a b c : string) : (a +:+ b) +:+ c = a +:+ (b +:+ c).
Proof. induction a as [|x a IH]; [done|]. rewrite !append_String. by rewrite IH. Qed.

Lemma append_empty_r (a : string) : a +:+ "" = a.
Proof. induction a as [|x a IH]; [done|]. rewrite append_String. by rewrite IH. Qed.

Lemma slashes_snoc n : slashes (S n) = slashes n +:+ "/".
Proof.
  induction n as [|n IH]; [done|].
  rewrite (slashes_S (S n)). rewrite IH at 1.
  by rewrite <- append_String, <- slashes_S.
Qed.

Lemma rstrip_slashes n s : rstrip_slash (s +:+ slashes n) = rstrip_slash s.
Proof.
  induction n as [|n IH]; [by rewrite append_empty_r|].
  rewrite slashes_snoc, <- append_assoc, rstrip_app_slash. exact IH.
Qed.

Lemma lstrip_split s : exists n, s = slashes n +:+ lstrip_slash s.
Proof.
  induction s as [|c s [n IH]]; [by exists 0|]. simpl.
  destruct (Ascii.eqb c "/") eqn:E.
  - apply Ascii.eqb_eq in E as ->. exists (S n).
    rewrite slashes_S, append_String. by rewrite <- IH.
  - by exists 0.
Qed.

Lemma rstrip_split s : exists n, s = rstrip_slash s +:+ slashes n.
Proof.
  induction s as [|c s [n IH]]; [by exists 0|]. simpl.
  destruct (rstrip_slash s) as [|d kept] eqn:Hk.
  - destruct (Ascii.eqb c "/") eqn:E.
    + apply Ascii.eqb_eq in E as ->. exists (S n).
      rewrite append_empty, slashes_S. rewrite append_empty in IH. by rewrite <- IH.
    + exists n. rewrite append_String, append_empty.
      rewrite append_empty in IH. by rewrite <- IH.
  - exists n. rewrite append_String. by rewrite <- IH.
Qed.

Lemma lstrip_no_leading_slash s t : lstrip_slash s <> "/" +:+ t.
Proof.
  induction s as [|c s IH]; [done|]. simpl.
  destruct (Ascii.eqb c "/") eqn:E; [done|].
  intros [= -> _]. by rewrite Ascii.eqb_refl in E.
Qed.

Lemma rstrip_no_trailing_slash s t : rstrip_slash s <> t +:+ "/".
Proof.
  revert t. induction s as [|c s IH]; intros t.
  - by destruct t.
  - simpl. destruct (rstrip_slash s) as [|d kept] eqn:Hk.
    + destruct (Ascii.eqb c "/") eqn:E; [by destruct t|].
      destruct t as [|x t].
      * rewrite append_empty. intros [= ->]. by rewrite Ascii.eqb_refl in E.
      * rewrite append_String. intros [= _ H]. by destruct t.
    + destruct t as [|x t].
      * by rewrite append_empty.
      * rewrite append_String. intros [= _ H]. by apply (IH t).
Qed.

(** [_join] puts exactly one slash at the seam: slashes at the end of the
    base and at the start of the path do not change the URL, and the URL is
    the base without its trailing slashes, one slash, and the path without
    its leading slashes. *)
Theorem join_one_slash_at_the_seam base path :
  (forall n m, _join (base +:+ slashes n) (slashes m +:+ path) = _join base path) /\
  (exists kept_base kept_path n m,
     base = kept_base +:+ slashes n /\ path = slashes m +:+ kept_path /\
     _join base path = kept_base +:+ "/" +:+ kept_path /\
     (forall t, kept_base <> t +:+ "/") /\ (forall t, kept_path <> "/" +:+ t)).
Proof.
  split.
  - intros n m. unfold _join. by rewrite rstrip_slashes, lstrip_slashes.
  - destruct (rstrip_split base) as [n Hn]. destruct (lstrip_split path) as [m Hm].
    exists (rstrip_slash base), (lstrip_slash path), n, m.
    split; [done|]. split; [done|]. split; [done|].
    split; [apply rstrip_no_trailing_slash | apply lstrip_no_leading_slash].
Qed.

(** The id a successful answer carries. *)
Lemma start_emulator_started_id post details :
  start_emulator post = (true, details) ->
  exists emulator_id,
    dict_lookup "emulator_id" details = Some emulator_id /\
    truthy emulator_id = true.
Proof.
  destruct post as [msg|r]; [done|]. simpl.
  destruct (is_success r (body r)) as [[]|msg] eqn:Hs; [|done..].
  intros [= <-].
  apply ConcurrencyTestFacts.is_success_true in Hs
    as (_ & members & inner & v & Hb & _ & Hd & Hv & Ht).
  exists v. split; [|done]. simpl.
  unfold emulator_id_of, dict_get. by rewrite Hb, Hd, Hv.
Qed.

Lemma collect_fold completed results ids :
  fold_left collect completed (results, ids)
  = (results ++ map start_emulator completed, ids ++ omap started_id completed).
Proof.
  revert results ids. induction completed as [|post completed IH]; intros results ids.
  - by rewrite !app_nil_r.
  - cbn [fold_left map]. unfold collect at 2.
    destruct (start_emulator post) as [started details] eqn:Hs.
    rewrite IH. cbn [omap list_omap]. unfold started_id at 2. rewrite Hs. cbn [fst snd].
    destruct started; cbn [andb].
    + destruct (start_emulator_started_id post details Hs) as (v & Hv & _).
      rewrite bool_decide_eq_true_2 by (rewrite Hv; by eexists).
      by rewrite <- !app_assoc.
    + by rewrite <- !app_assoc.
Qed.

(** One step reports every request it launched as either a success or a
    failure; the ids it returns are those of the successful requests, one
    each, in completion order, and none of them is empty. *)
Theorem step_counts_add_up conc completed status_answer t0 t1 :
  let r := step_launch_and_hold conc completed status_answer t0 t1 in
  launched r = length completed /\
  success r + length (failures r) = launched r /\
  length (emulator_ids r) = success r /\
  emulator_ids r = omap started_id completed /\
  Forall (fun emulator_id => truthy emulator_id = true) (emulator_ids r) /\
  failures r
  = map snd (filter (fun a => fst a = false) (map start_emulator completed)).
Proof.
  unfold step_launch_and_hold. rewrite collect_fold. cbn [app].
  destruct (status status_answer) as [st_ok st]. cbn.
  split; [by rewrite length_map|]. split; [|split; [|split; [|split]]].
  - rewrite !length_map.
    induction completed as [|post completed IH]; [done|]. cbn [map length].
    rewrite !filter_cons. destruct (start_emulator post) as [[] d]; cbn [fst];
      repeat case_decide; try done; cbn [length] in *; lia.
  - induction completed as [|post completed IH]; [done|]. cbn [map omap list_omap].
    rewrite filter_cons. unfold started_id at 1.
    destruct (start_emulator post) as [[] d]; cbn [fst snd];
      case_decide; try done; cbn [length]; by rewrite IH.
  - done.
  - induction completed as [|post completed IH]; [constructor|]. cbn [omap list_omap].
    unfold started_id at 1. destruct (start_emulator post) as [[] d] eqn:Hs; cbn [fst snd];
      [|exact IH].
    constructor; [|exact IH].
    destruct (start_emulator_started_id post d Hs) as (v & Hv & Ht).
    unfold dict_get. by rewrite Hv.
  - done.
Qed.

Lemma elem_of_py_range (start stop stride x : Z) :
  (0 < stride)%Z ->
  x ∈ py_range start stop stride
  <-> exists i, (0 <= i)%Z /\ x = (start + i * stride)%Z /\ (x < stop)%Z.
Proof.
  intros Hs. unfold py_range. rewrite list_elem_of_fmap. split.
  - intros (k & -> & Hk). apply elem_of_seq in Hk as [_ Hk]. cbn in Hk.
    exists (Z.of_nat k). split; [lia|]. split; [done|].
    assert (Z.of_nat k < (stop - start + stride - 1) / stride)%Z as Hlt by lia.
    assert (Z.of_nat k + 1 <= (stop - start + stride - 1) / stride)%Z as Hle by lia.
    pose proof (Z.mul_div_le (stop - start + stride - 1) stride Hs) as Hm. nia.
  - intros (i & Hi & -> & Hlt). exists (Z.to_nat i). split; [by rewrite Z2Nat.id|].
    apply elem_of_seq. split; [lia|]. cbn.
    assert (i + 1 <= (stop - start + stride - 1) / stride)%Z as Hle.
    { apply Z.div_le_lower_bound; [done | nia]. }
    lia.
Qed.

Lemma length_py_range start stop stride :
  length (py_range start stop stride)
  = Z.to_nat ((stop - start + stride - 1) / stride).
Proof. unfold py_range. by rewrite length_map, length_seq. Qed.

(** The levels [main] tries are the positive multiples of the step up to
    the maximum, both clamped to at least 1: there are max/step of them, none
    when the step exceeds the maximum, the maximum itself is tried only when
    the step divides it, and every level is below the token limit [main]
    asks for. *)
Theorem ramp_levels args :
  let s := step args in
  let m := max_conc args in
  (1 <= s)%Z /\ (1 <= m)%Z /\
  (forall c, c ∈ ramp args <-> exists k, (1 <= k)%Z /\ c = (k * s)%Z /\ (c <= m)%Z) /\
  length (ramp args) = Z.to_nat (m / s) /\
  (ramp args = [] <-> (m < s)%Z) /\
  (m ∈ ramp args <-> (s | m)%Z) /\
  Forall (fun c => (c < desired_limit args)%Z) (ramp args).
Proof.
  intros s m.
  assert (1 <= s)%Z as Hs by (unfold s, step; lia).
  assert (1 <= m)%Z as Hm by (unfold m, max_conc; lia).
  assert (forall c, c ∈ ramp args
            <-> exists k, (1 <= k)%Z /\ c = (k * s)%Z /\ (c <= m)%Z) as Hchar.
  { intros c. unfold ramp. fold s m. rewrite elem_of_py_range by lia. split.
    - intros (i & Hi & -> & Hlt). exists (i + 1)%Z. lia.
    - intros (k & Hk & -> & Hle). exists (k - 1)%Z. lia. }
  assert (length (ramp args) = Z.to_nat (m / s)) as Hlen.
  { unfold ramp. fold s m. rewrite length_py_range. do 2 f_equal. lia. }
  split; [done|]. split; [done|]. split; [done|]. split; [done|].
  split; [|split].
  - rewrite <- length_zero_iff_nil, Hlen. split.
    + intros H0. destruct (Z.lt_ge_cases m s) as [|Hge]; [done|].
      assert (1 <= m / s)%Z by (apply Z.div_le_lower_bound; lia). lia.
    + intros Hlt. rewrite Z.div_small by lia. done.
  - rewrite Hchar. split.
    + intros (k & _ & -> & _). by exists k.
    + intros [k ->]. exists k. split; [nia|]. split; [done | lia].
  - apply Forall_forall. intros c Hc. apply Hchar in Hc as (k & _ & -> & Hle).
    unfold desired_limit. fold m. lia.
Qed.

Lemma stopped_ids_app evs1 evs2 :
  stopped_ids (evs1 ++ evs2) = stopped_ids evs1 ++ stopped_ids evs2.
Proof. unfold stopped_ids. apply omap_app. Qed.

Lemma stopped_ids_Stopped ids : stopped_ids (map Stopped ids) = ids.
Proof.
  induction ids as [|i ids IH]; [done|].
  change (stopped_ids (map Stopped (i :: ids)))
    with (i :: stopped_ids (map Stopped ids)).
  by rewrite IH.
Qed.

Lemma main_step_spec w args run conc :
  let '(run', raised) := main_step w args run conc in
  raised = (if snapshot_raises w conc then raised else None) /\
  (snapshot_raises w conc = true <-> raised <> None) /\
  all_started_ids run' = all_started_ids run ++ ids_at w conc /\
  stopped_ids (events run')
  = stopped_ids (events run)
    ++ (if stop_between_arg args && negb (snapshot_raises w conc)
        then ids_at w conc else []).
Proof.
  unfold main_step, snapshot_raises, ids_at.
  set (step_res := step_launch_and_hold _ _ _ _ _).
  destruct (print_snapshot (status_snapshot step_res)) as [[]|msg].
  - assert (stopped_ids (events run ++ [StepLaunched conc])
            = stopped_ids (events run)) as H1
      by (rewrite stopped_ids_app; apply app_nil_r).
    destruct (stop_between_arg args); cbn [andb negb].
    + destruct (emulator_ids step_res) as [|i ids] eqn:Hids.
      * cbn [events all_started_ids]. rewrite H1, !app_nil_r.
        repeat split; try done.
      * cbn [events all_started_ids]. rewrite stopped_ids_app, H1, stopped_ids_Stopped.
        repeat split; try done.
    + cbn [events all_started_ids]. rewrite H1, app_nil_r. repeat split; try done.
  - cbn [events all_started_ids]. rewrite stopped_ids_app, andb_false_r.
    cbn. rewrite !app_nil_r. repeat split; try done.
Qed.

Lemma main_loop_spec w args levels :
  forall run,
  let '(run', raised) := main_loop w args levels run in
  (raised = None <-> Forall (fun conc => snapshot_raises w conc = false) levels) /\
  all_started_ids run'
  = all_started_ids run ++ concat (map (ids_at w) (reached w levels)) /\
  stopped_ids (events run')
  = stopped_ids (events run)
    ++ (if stop_between_arg args
        then concat (map (ids_at w) (completed_levels w levels)) else []).
Proof.
  induction levels as [|conc rest IH]; intros run.
  - cbn. rewrite !app_nil_r. destruct (stop_between_arg args); rewrite ?app_nil_r; done.
  - cbn [main_loop reached completed_levels].
    pose proof (main_step_spec w args run conc) as Hs.
    destruct (main_step w args run conc) as [run1 [msg|]].
    + destruct Hs as (_ & Hr & Ha & Hst).
      assert (snapshot_raises w conc = true) as Hraise by (by apply Hr).
      rewrite Hraise in *. cbn in *. rewrite andb_false_r in Hst.
      rewrite !app_nil_r in *. split; [|split].
      * split; [done|]. intros HF. apply Forall_inv in HF. congruence.
      * done.
      * rewrite Hst. by destruct (stop_between_arg args); rewrite ?app_nil_r.
    + destruct Hs as (_ & Hr & Ha & Hst).
      assert (snapshot_raises w conc = false) as Hq.
      { destruct (snapshot_raises w conc); [|done]. by destruct (proj1 Hr). }
      rewrite Hq in *. cbn in Hst. rewrite andb_true_r in Hst.
      specialize (IH run1). destruct (main_loop w args rest run1) as [run' raised].
      destruct IH as (IHr & IHa & IHs). split; [|split].
      * rewrite IHr. split; [by constructor | by intros HF; apply Forall_inv_tail in HF].
      * rewrite IHa, Ha. cbn. by rewrite <- app_assoc.
      * rewrite IHs, Hst. destruct (stop_between_arg args); cbn;
          by rewrite <- ?app_assoc, ?app_nil_r.
Qed.

Lemma main_stopped_ids w args r :
  ping_answer w = PostReturns r ->
  stopped_ids (fst (main w args))
  = concat (map (ids_at w)
      (if stop_between_arg args then completed_levels w (ramp args)
       else reached w (ramp args))).
Proof.
  intros Hp. unfold main. rewrite Hp. cbn [ping].
  pose proof (main_loop_spec w args (ramp args)
    {| events := [Pinged; LimitSet (desired_limit args)]; steps := [];
       all_started_ids := [] |}) as Hl.
  destruct (main_loop _ _ _ _) as [run raised]. destruct Hl as (_ & Ha & Hs).
  cbn [events all_started_ids] in Ha, Hs.
  change (stopped_ids [Pinged; LimitSet (desired_limit args)]) with (@nil Json) in Hs.
  rewrite app_nil_l in Ha, Hs.
  assert (forall saved : list Event, stopped_ids saved = [] ->
    stopped_ids (events run ++ saved
        ++ (if stop_between_arg args then []
            else map Stopped (all_started_ids run))
        ++ (if do_cleanup args then [CleanedUp] else []))
    = concat (map (ids_at w)
        (if stop_between_arg args then completed_levels w (ramp args)
         else reached w (ramp args)))) as Hgen.
  { intros saved Hsaved. rewrite !stopped_ids_app, Hs, Hsaved, Ha.
    assert (stopped_ids (if do_cleanup args then [CleanedUp] else []) = [])
      as -> by (by destruct (do_cleanup args)).
    destruct (stop_between_arg args).
    - by rewrite !app_nil_r.
    - by rewrite stopped_ids_Stopped, app_nil_r. }
  destruct raised as [msg|]; [|destruct (save_raises w) as [msg|]];
    cbn [fst]; by apply Hgen.
Qed.

Lemma launched_levels_app evs1 evs2 :
  launched_levels (evs1 ++ evs2) = launched_levels evs1 ++ launched_levels evs2.
Proof. apply omap_app. Qed.

Lemma launched_levels_Stopped ids : launched_levels (map Stopped ids) = [].
Proof. by induction ids. Qed.

Lemma main_loop_launched w args levels :
  forall run,
  launched_levels (events (fst (main_loop w args levels run)))
  = launched_levels (events run) ++ reached w levels.
Proof.
  induction levels as [|conc rest IH]; intros run.
  - cbn. by rewrite app_nil_r.
  - cbn [main_loop reached].
    assert (launched_levels (events (fst (main_step w args run conc)))
            = launched_levels (events run) ++ [conc]) as Hl.
    { unfold main_step.
      destruct (print_snapshot _);
        [|cbn [fst events]; by rewrite launched_levels_app].
      destruct (_ && _); cbn [fst events];
        rewrite !launched_levels_app, ?launched_levels_Stopped, ?app_nil_r; done. }
    pose proof (main_step_spec w args run conc) as Hs.
    destruct (main_step w args run conc) as [run1 [msg|]].
    + destruct Hs as (_ & Hr & _). rewrite (proj2 Hr) by done. exact Hl.
    + destruct Hs as (_ & Hr & _).
      destruct (snapshot_raises w conc); [by destruct (proj1 Hr)|].
      rewrite IH. cbn [fst] in Hl. rewrite Hl. by rewrite <- app_assoc.
Qed.

Lemma main_launched_levels w args r :
  ping_answer w = PostReturns r ->
  launched_levels (fst (main w args)) = reached w (ramp args).
Proof.
  intros Hp. unfold main. rewrite Hp. cbn [ping].
  pose proof (main_loop_launched w args (ramp args)
    {| events := [Pinged; LimitSet (desired_limit args)]; steps := [];
       all_started_ids := [] |}) as Hl.
  destruct (main_loop _ _ _ _) as [run raised]. cbn [fst events] in Hl.
  change (launched_levels [Pinged; LimitSet (desired_limit args)]) with (@nil Z) in Hl.
  rewrite app_nil_l in Hl.
  assert (forall saved : list Event, launched_levels saved = [] ->
    launched_levels (events run ++ saved
        ++ (if stop_between_arg args then []
            else map Stopped (all_started_ids run))
        ++ (if do_cleanup args then [CleanedUp] else []))
    = reached w (ramp args)) as Hgen.
  { intros saved Hsaved. rewrite !launched_levels_app, Hl, Hsaved.
    assert (launched_levels (if do_cleanup args then [CleanedUp] else []) = [])
      as -> by (by destruct (do_cleanup args)).
    destruct (stop_between_arg args);
      by rewrite ?launched_levels_Stopped, !app_nil_r. }
  destruct raised as [msg|]; [|destruct (save_raises w) as [msg|]];
    cbn [fst]; by apply Hgen.
Qed.

Lemma main_raised w args r :
  ping_answer w = PostReturns r ->
  snd (main w args) = None
  <-> Forall (fun conc => snapshot_raises w conc = false) (ramp args)
      /\ save_raises w = None.
Proof.
  intros Hp. unfold main. rewrite Hp. cbn [ping].
  pose proof (main_loop_spec w args (ramp args)
    {| events := [Pinged; LimitSet (desired_limit args)]; steps := [];
       all_started_ids := [] |}) as Hl.
  destruct (main_loop _ _ _ _) as [run raised]. destruct Hl as (Hr & _).
  destruct raised as [msg|]; cbn [snd].
  - split; [done|]. intros [HF _]. by apply Hr in HF.
  - destruct (save_raises w) as [msg|]; cbn [snd].
    + split; [done | by intros [_ ?]].
    + split; [|done]. intros _. split; [by apply Hr | done].
Qed.

Lemma snapshot_raises_spec w conc :
  snapshot_raises w conc = true
  <-> exists r v, status_answer_at w conc = PostReturns r /\
        (status_code r = 200)%Z /\ json r = Some v /\ is_dict v = false.
Proof.
  unfold snapshot_raises, step_launch_and_hold.
  destruct (fold_left collect _ _) as [results ids].
  unfold status, call. destruct (status_answer_at w conc) as [msg|r].
  - cbn. split; [done | by intros (? & ? & ? & _)].
  - cbn [status_snapshot]. unfold ok.
    destruct (Z.eq_dec (status_code r) 200%Z) as [H200|Hn].
    + rewrite H200. cbn [Z.leb Z.ltb Z.compare andb negb].
      unfold print_snapshot. cbn. unfold body.
      destruct (json r) as [v|] eqn:Hj.
      * destruct v; cbn; (split; [intros; by eauto 10 | intros (? & ? & [= <-] & _ & Hv & Hd);
          rewrite Hj in Hv; by simplify_eq]).
      * cbn. split; [done|]. intros (? & ? & [= <-] & _ & Hv & _). congruence.
    + assert (print_snapshot
                (if negb ((400 <=? status_code r)%Z && (status_code r <? 600)%Z)
                 then [("status_code", JInt (status_code r)); ("data", body r)]
                 else [("ok", JBool false);
                       ("data", JDict [("status_code", JInt (status_code r));
                                       ("data", body r)])]) = Ret tt) as ->.
      { destruct (negb _); unfold print_snapshot; cbn; [|done].
        destruct (Z.eqb_spec (status_code r) 200%Z); done. }
      split; [done|]. intros (? & ? & [= <-] & ? & _). done.
Qed.

Lemma reached_split w before conc after :
  Forall (fun c => snapshot_raises w c = false) before ->
  snapshot_raises w conc = true ->
  reached w (before ++ conc :: after) = before ++ [conc] /\
  completed_levels w (before ++ conc :: after) = before.
Proof.
  intros HF Hc. induction HF as [|c before Hq _ IH]; cbn.
  - by rewrite Hc.
  - rewrite Hq. destruct IH as [-> ->]. done.
Qed.

Lemma reached_all w levels :
  Forall (fun c => snapshot_raises w c = false) levels ->
  reached w levels = levels /\ completed_levels w levels = levels.
Proof.
  intros HF. induction HF as [|c levels Hq _ IH]; cbn; [done|].
  rewrite Hq. by destruct IH as [-> ->].
Qed.

(** Every emulator a launched step started is handed to [stop_emulator]
    exactly once, in the order started, when the emulators are kept between
    steps or no snapshot line raises. *)
Theorem main_stops_every_started_emulator w args r :
  ping_answer w = PostReturns r ->
  stop_between_arg args = false
  \/ Forall (fun conc => snapshot_raises w conc = false) (ramp args) ->
  stopped_ids (fst (main w args))
  = concat (map (ids_at w) (launched_levels (fst (main w args)))).
Proof.
  intros Hp Hcase.
  rewrite (main_stopped_ids w args r Hp), (main_launched_levels w args r Hp).
  destruct Hcase as [-> | HF]; [done|].
  destruct (reached_all w (ramp args) HF) as [-> ->]. by destruct (stop_between_arg args).
Qed.

(** With stops between steps, a 200 answer to [/status] whose body is JSON
    but no object makes the snapshot line raise: [main] ends with that
    exception, and the emulators of that step are never stopped. *)
Theorem bad_snapshot_leaves_the_step_running w args rp before conc after r v :
  ping_answer w = PostReturns rp ->
  stop_between_arg args = true ->
  ramp args = before ++ conc :: after ->
  Forall (fun c => snapshot_raises w c = false) before ->
  status_answer_at w conc = PostReturns r ->
  (status_code r = 200)%Z ->
  json r = Some v ->
  is_dict v = false ->
  snd (main w args) <> None /\
  launched_levels (fst (main w args)) = before ++ [conc] /\
  stopped_ids (fst (main w args)) = concat (map (ids_at w) before).
Proof.
  intros Hp Hsb Hramp HF Hst H200 Hj Hd.
  assert (snapshot_raises w conc = true) as Hc
    by (apply snapshot_raises_spec; eauto 10).
  destruct (reached_split w before conc after HF Hc) as [Hreach Hdone].
  split; [|split].
  - rewrite (main_raised w args rp Hp). intros [HF' _].
    rewrite Hramp in HF'. apply Forall_app in HF' as [_ HF'].
    apply Forall_inv in HF'. congruence.
  - by rewrite (main_launched_levels w args rp Hp), Hramp.
  - by rewrite (main_stopped_ids w args rp Hp), Hsb, Hramp, Hdone.
Qed.

Lemma main_stops_every_started_emulator_witness :
  stopped_ids (fst (main list_status_world (two_steps true)))
  = [JStr "emu-a"; JStr "emu-b"; JStr "emu-c"].
Proof.
  rewrite (main_stops_every_started_emulator list_status_world (two_steps true)
             (plain 200 (JStr "pong"))).
  - reflexivity.
  - reflexivity.
  - left. reflexivity.
Defined.

Lemma bad_snapshot_leaves_the_step_running_witness :
  snd (main list_status_world (two_steps false)) <> None /\
  launched_levels (fst (main list_status_world (two_steps false))) = [1%Z; 2%Z] /\
  stopped_ids (fst (main list_status_world (two_steps false))) = [JStr "emu-a"].
Proof.
  apply (bad_snapshot_leaves_the_step_running list_status_world (two_steps false)
           (plain 200 (JStr "pong")) [1%Z] 2%Z [] (plain 200 (JList [])) (JList [])).
  - reflexivity.
  - reflexivity.
  - reflexivity.
  - constructor; [reflexivity | constructor].
  - reflexivity.
  - reflexivity.
  - reflexivity.
  - reflexivity.
Defined.

Lemma main_loop_events w args levels :
  forall run,
  exists more,
    events (fst (main_loop w args levels run)) = events run ++ more /\
    Forall (fun e => e <> ReportSaved /\ e <> CleanedUp) more.
Proof.
  induction levels as [|conc rest IH]; intros run.
  - exists []. by rewrite app_nil_r.
  - cbn [main_loop].
    assert (exists more,
      events (fst (main_step w args run conc)) = events run ++ more /\
      Forall (fun e => e <> ReportSaved /\ e <> CleanedUp) more) as (m1 & He & Hm1).
    { unfold main_step. destruct (print_snapshot _).
      - destruct (_ && _); cbn [fst events].
        + eexists. rewrite <- app_assoc. split; [done|].
          apply Forall_app. split; [by constructor|].
          apply Forall_forall. intros e [i [-> _]]%list_elem_of_fmap. done.
        + eexists. split; [done|]. by constructor.
      - cbn [fst events]. eexists. split; [done|]. by constructor. }
    destruct (main_step w args run conc) as [run1 [msg|]]; cbn [fst] in *.
    + by exists m1.
    + destruct (IH run1) as (m2 & He2 & Hm2). exists (m1 ++ m2).
      rewrite He2, He, <- app_assoc. split; [done|]. by apply Forall_app.
Qed.

(** The finishing part of [main] once the report directory exists. *)
Lemma main_finishing w args :
  match ping_answer w with
  | PostRaises _ => main w args = ([Pinged], None)
  | PostReturns _ =>
      (exists rest,
         fst (main w args) = Pinged :: LimitSet (desired_limit args) :: rest) /\
      ((ReportSaved ∈ fst (main w args)) <-> snd (main w args) = None) /\
      ((CleanedUp ∈ fst (main w args)) <-> do_cleanup args = true) /\
      (last (fst (main w args)) = Some CleanedUp <-> do_cleanup args = true)
  end.
Proof.
  unfold main. destruct (ping_answer w) as [msg|r]; [done|]. cbn [ping].
  destruct (main_loop_events w args (ramp args)
    {| events := [Pinged; LimitSet (desired_limit args)]; steps := [];
       all_started_ids := [] |}) as (more & He & Hmore).
  destruct (main_loop _ _ _ _) as [run raised]. cbn [fst events] in He.
  set (stops := if stop_between_arg args then []
                else map Stopped (all_started_ids run)).
  assert (ReportSaved ∉ events run) as Hno_report.
  { rewrite He. intros [H|H]%elem_of_app.
    - by repeat (apply elem_of_cons in H as [H|H]; [done|]); apply elem_of_nil in H.
    - rewrite Forall_forall in Hmore. by destruct (Hmore _ H). }
  assert (CleanedUp ∉ events run) as Hno_clean.
  { rewrite He. intros [H|H]%elem_of_app.
    - by repeat (apply elem_of_cons in H as [H|H]; [done|]); apply elem_of_nil in H.
    - rewrite Forall_forall in Hmore. by destruct (Hmore _ H). }
  assert ((ReportSaved ∉ stops) /\ (CleanedUp ∉ stops)) as [Hs1 Hs2].
  { unfold stops. destruct (stop_between_arg args).
    - split; apply not_elem_of_nil.
    - split; by intros [i [? _]]%list_elem_of_fmap. }
  assert (forall (saved : list Event) (raised' : option string),
    (ReportSaved ∈ saved <-> raised' = None) ->
    CleanedUp ∉ saved ->
    (exists rest,
       events run ++ saved ++ stops ++ (if do_cleanup args then [CleanedUp] else [])
       = Pinged :: LimitSet (desired_limit args) :: rest) /\
    (ReportSaved ∈ events run ++ saved ++ stops
        ++ (if do_cleanup args then [CleanedUp] else []) <-> raised' = None) /\
    (CleanedUp ∈ events run ++ saved ++ stops
        ++ (if do_cleanup args then [CleanedUp] else []) <-> do_cleanup args = true) /\
    (last (events run ++ saved ++ stops
        ++ (if do_cleanup args then [CleanedUp] else [])) = Some CleanedUp
     <-> do_cleanup args = true)) as Hgen.
  { intros saved raised' Hsaved Hclean. split; [|split; [|split]].
    - rewrite He. by eexists.
    - rewrite !elem_of_app, <- Hsaved.
      destruct (do_cleanup args); [rewrite list_elem_of_singleton | rewrite elem_of_nil];
        intuition congruence.
    - rewrite !elem_of_app.
      destruct (do_cleanup args); [rewrite list_elem_of_singleton | rewrite elem_of_nil];
        intuition congruence.
    - destruct (do_cleanup args) eqn:Hdc.
      + by rewrite !app_assoc, last_snoc.
      + split; [|done]. rewrite !app_nil_r. intros Hl. exfalso.
        apply last_Some in Hl as [l' Hl].
        assert (CleanedUp ∈ events run ++ saved ++ stops) as Hin
          by (rewrite Hl; apply elem_of_app; right; by left).
        rewrite !elem_of_app in Hin. intuition congruence. }
  destruct raised as [msg|]; [|destruct (save_raises w) as [msg|]]; cbn [fst snd];
    apply Hgen; try apply not_elem_of_nil.
  - split; [by intros ?%elem_of_nil | done].
  - split; [by intros ?%elem_of_nil | done].
  - split; [done | intros _; by apply list_elem_of_singleton].
  - by intros ?%list_elem_of_singleton.
Qed.

(** [main] as a whole: nothing but the ping happens when the ping raises;
    otherwise the limit is raised first and the report is written exactly
    when no exception escapes.  When [os.makedirs] of line 225 raises,
    [main] ends there with that exception: nothing is launched, stopped or
    saved, and [/cleanup] is not called although enabled.  Otherwise the
    server-side cleanup runs exactly when enabled, exception or not, as the
    last thing [main] does. *)
Theorem main_report_and_cleanup makedirs_raises w args :
  let ran := main_from_start makedirs_raises w args in
  match ping_answer w with
  | PostRaises _ => ran = ([Pinged], None)
  | PostReturns _ =>
      (exists rest, fst ran = Pinged :: LimitSet (desired_limit args) :: rest) /\
      ((ReportSaved ∈ fst ran) <-> snd ran = None) /\
      ((CleanedUp ∈ fst ran) <-> do_cleanup args = true /\ makedirs_raises = None) /\
      (last (fst ran) = Some CleanedUp
       <-> do_cleanup args = true /\ makedirs_raises = None) /\
      match makedirs_raises with
      | Some msg => ran = ([Pinged; LimitSet (desired_limit args)], Some msg)
      | None => ran = main w args
      end
  end.
Proof.
  intros ran. subst ran. unfold main_from_start.
  pose proof (main_finishing w args) as Hmain.
  destruct (ping_answer w) as [msg|r]; cbn [ping].
  - by destruct makedirs_raises.
  - destruct makedirs_raises as [msg|].
    + cbn [fst snd]. split; [by eexists|]. split; [|split; [|split]].
      * split; [|done]. intros H.
        by repeat (apply elem_of_cons in H as [H|H]; [done|]); apply elem_of_nil in H.
      * split; [|by intros [_ ?]]. intros H.
        by repeat (apply elem_of_cons in H as [H|H]; [done|]); apply elem_of_nil in H.
      * split; [done | by intros [_ ?]].
      * done.
    + destruct Hmain as (H1 & H2 & H3 & H4).
      split; [done|]. split; [done|]. split; [|split; [|done]].
      * rewrite H3. intuition.
      * rewrite H4. intuition.
Qed.

End ConcurrencyRunFacts.

(** ** The janitor: accounting, thresholds, dry runs, the image filter *)

Module JanitorSweepFacts.
Import Janitor JanitorFacts PyStrFacts.

Lemma outcome_cases now m d c :
  let young := match get_container_age_minutes now c with
               | Some a => (a <? m)%Z
               | None => false
               end in
  (is_removal (outcome now m d c) = true /\
   is_failure (outcome now m d c) = false /\ young = false) \/
  (is_removal (outcome now m d c) = false /\
   is_failure (outcome now m d c) = true /\ young = false) \/
  (is_removal (outcome now m d c) = false /\
   is_failure (outcome now m d c) = false /\ young = true).
Proof.
  unfold outcome. destruct (get_container_age_minutes now c) as [a|]; cbn; [|tauto].
  destruct (Z.ltb_spec a m) as [Hlt|Hge].
  - replace (a >=? m)%Z with false by lia. cbn. tauto.
  - replace (a >=? m)%Z with true by lia.
    destruct d; [|destruct (remove_raises c)]; cbn; tauto.
Qed.

Lemma count_outcomes now m d l :
  removed_count (process_all now m d l) + failed_count (process_all now m d l)
  + length (filter (fun c =>
      match get_container_age_minutes now c with
      | Some a => (a <? m)%Z
      | None => false
      end = true) l)
  = length l.
Proof.
  destruct (process_all_counts now m d l) as [-> ->].
  induction l as [|c l IH]; [done|]. rewrite !filter_cons. cbn [length].
  destruct (outcome_cases now m d c) as [(-> & -> & ->)|[(-> & -> & ->)|(-> & -> & ->)]];
    repeat case_decide; try done; cbn [length]; lia.
Qed.

(** The sweep handles exactly the listed containers whose image matches, in
    listing order; each of them is counted as removed, counted as failed, or
    too young, and nothing else is ever removed. *)
Theorem sweep_accounts_for_every_matching_container env now image_name m d :
  let s := remove_old_containers env now image_name m d in
  let listed := match env with Running all_containers => all_containers | _ => [] end in
  let matching := matching_containers image_name listed in
  map fst (trace s) = matching /\
  removed_count s + failed_count s
  + length (filter (fun c =>
      match get_container_age_minutes now c with
      | Some a => (a <? m)%Z
      | None => false
      end = true) matching)
  = length matching /\
  Forall (fun c => c ∈ listed /\ image_matches image_name c = true /\
                   remove_raises c = false /\ d = false) (removed s).
Proof.
  intros s listed matching. subst s listed matching.
  destruct env as [| |all_containers]; [by split; [|split; [|constructor]]..|].
  rewrite sweep_running. split; [|split].
  - rewrite process_all_trace, map_map. cbn. apply map_id.
  - apply count_outcomes.
  - apply Forall_forall. intros c (-> & Hin & Hr & _)%elem_of_removed.
    apply list_elem_of_filter in Hin as [Hm Hin]. done.
Qed.

Lemma filter_length_le_impl {A} (P Q : A -> Prop)
    `{forall x, Decision (P x)} `{forall x, Decision (Q x)} (l : list A) :
  (forall x, x ∈ l -> P x -> Q x) ->
  length (filter P l) <= length (filter Q l).
Proof.
  induction l as [|x l IH]; intros Himp; [done|].
  rewrite !filter_cons.
  assert (length (filter P l) <= length (filter Q l)) as Hle
    by (apply IH; intros y Hy; apply Himp; by right).
  case_decide as HP; case_decide as HQ; cbn [length]; try lia.
  destruct HQ. apply Himp; [by left | done].
Qed.

(** Raising the age threshold never selects, removes or fails more. *)
Theorem raising_the_threshold_never_removes_more env now image_name m1 m2 d :
  (m1 <= m2)%Z ->
  let s1 := remove_old_containers env now image_name m1 d in
  let s2 := remove_old_containers env now image_name m2 d in
  removed_count s2 <= removed_count s1 /\
  failed_count s2 <= failed_count s1 /\
  selected s2 ⊆ selected s1 /\
  removed s2 ⊆ removed s1.
Proof.
  intros Hle s1 s2. subst s1 s2.
  destruct env as [| |all_containers]; [done..|]. rewrite !sweep_running.
  set (l := matching_containers image_name all_containers).
  destruct (process_all_counts now m1 d l) as [-> ->].
  destruct (process_all_counts now m2 d l) as [-> ->].
  split; [|split; [|split]].
  - apply filter_length_le_impl. intros c _. unfold outcome.
    destruct (get_container_age_minutes now c) as [a|]; [|done].
    destruct (Z.geb_spec a m2); [|done].
    replace (a >=? m1)%Z with true by lia. done.
  - apply filter_length_le_impl. intros c _. unfold outcome.
    destruct (get_container_age_minutes now c) as [a|]; [|done].
    destruct (Z.geb_spec a m2); [|done].
    replace (a >=? m1)%Z with true by lia. done.
  - intros c (Hin & a & Ha & Hge)%elem_of_selected. apply elem_of_selected.
    split; [done|]. exists a. split; [done | lia].
  - intros c (Hd & Hin & Hr & a & Ha & Hge)%elem_of_removed. apply elem_of_removed.
    repeat split; try done. exists a. split; [done | lia].
Qed.

Lemma raising_the_threshold_never_removes_more_witness :
  let old := {| id := "3f2a9c41d07b";
                image := ImageTags ["happysixd/osworld-docker:latest"];
                created_dt := Some {| wall_us := 0; utcoffset_us := Some 0%Z |};
                remove_raises := false |} in
  let env := Running [old; old] in
  removed_count (remove_old_containers env 600000000 "osworld" 30 false)
  <= removed_count (remove_old_containers env 600000000 "osworld" 5 false).
Proof.
  intros old env.
  refine (proj1 (raising_the_threshold_never_removes_more env 600000000
                   "osworld" 5 30 false _)).
  lia.
Defined.

Lemma selected_cons now m d c l :
  selected (process_all now m d (c :: l))
  = (if is_removal (outcome now m d c) || is_failure (outcome now m d c)
        && negb (match outcome now m d c with Skipped => true | _ => false end)
     then [c] else [])
    ++ selected (process_all now m d l).
Proof.
  unfold selected. rewrite !process_all_trace. cbn [map omap list_omap snd fst].
  by destruct (outcome now m d c) as [| |[]|].
Qed.

Lemma outcome_dry_real_cases now m c :
  (outcome now m true c = WouldRemove /\
   outcome now m false c = RemoveCalled (negb (remove_raises c))) \/
  (outcome now m true c = TooYoung /\ outcome now m false c = TooYoung) \/
  (outcome now m true c = Skipped /\ outcome now m false c = Skipped).
Proof.
  unfold outcome. destruct (get_container_age_minutes now c) as [a|]; [|tauto].
  destruct (a >=? m)%Z; tauto.
Qed.

Lemma dry_real_counts now m l :
  removed_count (process_all now m true l)
  = removed_count (process_all now m false l)
    + length (filter (fun c => remove_raises c = true)
                (selected (process_all now m false l))) /\
  failed_count (process_all now m false l)
  = failed_count (process_all now m true l)
    + length (filter (fun c => remove_raises c = true)
                (selected (process_all now m false l))).
Proof.
  induction l as [|c l [IHr IHf]]; [done|].
  rewrite selected_cons, filter_app, length_app.
  destruct (process_all_counts now m true (c :: l)) as [-> ->].
  destruct (process_all_counts now m false (c :: l)) as [-> ->].
  destruct (process_all_counts now m true l) as [Hr1 Hf1].
  destruct (process_all_counts now m false l) as [Hr2 Hf2].
  rewrite Hr1, Hr2 in IHr. rewrite Hf1, Hf2 in IHf. clear Hr1 Hr2 Hf1 Hf2.
  rewrite !filter_cons.
  destruct (outcome_dry_real_cases now m c) as [[-> ->]|[[-> ->]|[-> ->]]].
  - destruct (remove_raises c) eqn:Hrr; cbn;
      repeat case_decide; try done; cbn [length];
      rewrite ?filter_cons, ?filter_nil; repeat case_decide; try congruence;
      cbn [length]; lia.
  - cbn. repeat case_decide; try done; cbn [length]; lia.
  - cbn. repeat case_decide; try done; cbn [length]; lia.
Qed.

(** A dry run removes nothing and predicts the real run: both handle the
    same containers and select the same ones.  The real run differs only by
    the selected containers whose removal raises: each moves one unit from
    the removed to the failed count, so the exit status of the dry run is
    never above that of the real run. *)
Theorem dry_run_predicts_the_real_run env now image_name m :
  let dry := remove_old_containers env now image_name m true in
  let real := remove_old_containers env now image_name m false in
  let raising := filter (fun c => remove_raises c = true) (selected real) in
  removed dry = [] /\
  map fst (trace dry) = map fst (trace real) /\
  selected dry = selected real /\
  removed_count dry = removed_count real + length raising /\
  failed_count real = failed_count dry + length raising /\
  (main env now {| min_age := m; dry_run := true; image_arg := image_name |}
   <= main env now {| min_age := m; dry_run := false; image_arg := image_name |})%Z.
Proof.
  intros dry real raising. subst dry real raising.
  destruct env as [| |all_containers]; [by repeat (split; [done|])..|].
  unfold main. cbn [Janitor.image_arg min_age dry_run result].
  rewrite !sweep_running.
  set (l := matching_containers image_name all_containers).
  destruct (dry_real_counts now m l) as [Hr Hf].
  split; [apply removed_dry|]. split; [by rewrite !process_all_trace, !map_map|].
  split; [apply selected_dry_real|]. split; [done|]. split; [done|].
  destruct (0 <? failed_count (process_all now m true l)) eqn:E;
    destruct (0 <? failed_count (process_all now m false l)) eqn:E'; try done.
  apply Nat.ltb_lt in E. apply Nat.ltb_ge in E'. lia.
Qed.

Lemma existsb_contains_spec image_name tags :
  existsb (PyStr.contains image_name) tags = true
  <-> exists tag before after,
        tag ∈ tags /\ tag = before +:+ image_name +:+ after.
Proof.
  rewrite existsb_exists. split.
  - intros (tag & Hin & (before & after & ->)%contains_spec).
    exists (before +:+ image_name +:+ after), before, after.
    split; [by apply list_elem_of_In | done].
  - intros (tag & before & after & Hin & ->).
    exists (before +:+ image_name +:+ after).
    split; [by apply list_elem_of_In|]. apply contains_spec. by eexists _, _.
Qed.

Lemma append_assoc_string (a b c : string) : (a +:+ b) +:+ c = a +:+ (b +:+ c).
Proof. induction a as [|x a IH]; [done|]. rewrite !append_String. by rewrite IH. Qed.

(** The image filter keeps a listed container iff the image name occurs
    anywhere inside one of its image's tags.  A container whose image cannot
    be looked up, has no image or no tag is never kept; the empty name keeps
    every container with a tag; a name occurring inside another keeps at
    least what the other keeps. *)
Theorem image_filter_is_substring_of_a_tag image_name all_containers :
  (forall c, c ∈ matching_containers image_name all_containers
     <-> c ∈ all_containers /\
         exists tags tag before after,
           image c = ImageTags tags /\ tag ∈ tags /\
           tag = before +:+ image_name +:+ after) /\
  (forall c, c ∈ matching_containers "" all_containers
     <-> c ∈ all_containers /\
         exists tag tags, image c = ImageTags (tag :: tags)) /\
  (forall before part after,
     matching_containers (before +:+ part +:+ after) all_containers
     ⊆ matching_containers part all_containers).
Proof.
  assert (forall name c, c ∈ matching_containers name all_containers
     <-> c ∈ all_containers /\
         exists tags tag before after,
           image c = ImageTags tags /\ tag ∈ tags /\
           tag = before +:+ name +:+ after) as Hchar.
  { intros name c. unfold matching_containers. rewrite list_elem_of_filter.
    unfold image_matches. destruct (image c) as [| |tags].
    - split; [by intros [? _] | by intros (_ & ? & ? & ? & ? & ? & _)].
    - split; [by intros [? _] | by intros (_ & ? & ? & ? & ? & ? & _)].
    - rewrite existsb_contains_spec. split.
      + intros [(tag & before & after & Hin & ->) Hc]. split; [done|].
        by exists tags, (before +:+ name +:+ after), before, after.
      + intros (Hc & tags' & tag & before & after & [= <-] & Hin & ->).
        split; [|done]. by eexists _, before, after. }
  split; [apply Hchar|]. split.
  - intros c. rewrite Hchar. split.
    + intros (Hc & tags & tag & before & after & Hi & Hin & _). split; [done|].
      destruct tags as [|t tags]; [by apply elem_of_nil in Hin|]. by exists t, tags.
    + intros (Hc & tag & tags & Hi). split; [done|].
      exists (tag :: tags), tag, "", tag. split; [done|]. split; [by left|].
      by rewrite !append_empty.
  - intros b1 part a1 c.
    rewrite !Hchar. intros (Hc & tags & tag & before & after & Hi & Hin & ->).
    split; [done|].
    exists tags, (before +:+ (b1 +:+ part +:+ a1) +:+ after),
      (before +:+ b1), (a1 +:+ after).
    split; [done|]. split; [done|].
    by rewrite !append_assoc_string.
Qed.

End JanitorSweepFacts.

(** ** The quota scripts against any service *)

Module ScriptFacts.
Import DesktopEnv.

Lemma load_attempts_counts {St} (svc : Service St) n :
  forall t st,
    let t' := fst (LoadTest.attempts svc n (t, st)) in
    LoadTest.success_count t' + LoadTest.failure_count t'
    = LoadTest.success_count t + LoadTest.failure_count t + n /\
    length (LoadTest.environments t') - LoadTest.success_count t'
    = length (LoadTest.environments t) - LoadTest.success_count t /\
    LoadTest.success_count t' - length (LoadTest.environments t')
    = LoadTest.success_count t - length (LoadTest.environments t) /\
    length (LoadTest.printed t') = length (LoadTest.printed t) + n.
Proof.
  induction n as [|n IH]; intros t st; [cbn; lia|].
  cbn [LoadTest.attempts]. cbv zeta. unfold LoadTest.attempt.
  destruct (new_env svc st) as [[env|msg|msg] st'];
    match goal with |- context [LoadTest.attempts svc n (?t1, st')] =>
      specialize (IH t1 st') end;
    cbv zeta in IH; cbn [LoadTest.environments LoadTest.success_count
      LoadTest.failure_count LoadTest.printed] in IH;
    rewrite ?length_app in IH; cbn [length] in IH; lia.
Qed.

(** Whatever the service answers, the load test counts every attempt once,
    as a success or as a failure, keeps one environment per success and
    prints one line per attempt; so its verdict is positive exactly when
    the number of started environments equals the expected maximum, whether
    the two other attempts failed on the quota or on anything else. *)
Theorem load_test_counts_every_attempt {St} (svc : Service St) max_attempts st :
  let t := fst (LoadTest.attempts svc (LoadTest.TOTAL_ATTEMPTS max_attempts)
                  (LoadTest.state0, st)) in
  LoadTest.success_count t + LoadTest.failure_count t = max_attempts + 2 /\
  length (LoadTest.environments t) = LoadTest.success_count t /\
  length (LoadTest.printed t) = max_attempts + 2 /\
  (LoadTest.passes max_attempts t = true
   <-> length (LoadTest.environments t) = max_attempts) /\
  fst (fst (LoadTest.script svc max_attempts st)) = t /\
  snd (fst (LoadTest.script svc max_attempts st)) = LoadTest.passes max_attempts t.
Proof.
  intros t. subst t. unfold LoadTest.script.
  pose proof (load_attempts_counts svc (LoadTest.TOTAL_ATTEMPTS max_attempts)
                LoadTest.state0 st) as H.
  destruct (LoadTest.attempts svc _ _) as [t st']. cbv zeta in H. cbn [fst snd] in *.
  unfold LoadTest.TOTAL_ATTEMPTS in H. cbn in H. destruct H as (H1 & H2 & H3 & H4).
  split; [exact H1|]. split; [lia|]. split; [exact H4|]. split; [|done].
  unfold LoadTest.passes. rewrite andb_true_iff, !Nat.eqb_eq. lia.
Qed.

Import MultiLoadTest MultiFacts.

Lemma multi_attempts_counts {St} (svc : Service St) n :
  forall t st,
    let t' := fst (attempts svc n (t, st)) in
    success_count t' + failure_count t' = success_count t + failure_count t + n.
Proof.
  induction n as [|n IH]; intros t st; [cbn; lia|].
  cbn [attempts]. cbv zeta. unfold attempt.
  destruct (new_env svc st) as [[env|msg|msg] st'];
    match goal with |- context [attempts svc n (?t1, st')] =>
      specialize (IH t1 st') end;
    cbv zeta in IH; cbn [success_count failure_count] in IH; lia.
Qed.

Lemma count_on_pos envs env :
  env ∈ envs -> 0 < count_on (remote_docker_server env) envs.
Proof.
  intros Hin. unfold count_on.
  assert (env ∈ filter (fun e => remote_docker_server e
                                 = remote_docker_server env) envs) as Hf
    by (by apply list_elem_of_filter).
  destruct (filter _ envs); [by apply elem_of_nil in Hf | cbn; lia].
Qed.

(** The usage counts add up to the number of environments. *)
Lemma length_sum_tally envs :
  length envs
  = sum_list (map (fun k => count_on k envs) (map fst (map_to_list (tally envs)))).
Proof.
  apply length_sum_counts.
  - apply NoDup_fst_map_to_list.
  - apply Forall_forall. intros env Hin.
    apply list_elem_of_fmap.
    pose proof (count_on_pos envs env Hin) as Hpos.
    exists (remote_docker_server env, count_on (remote_docker_server env) envs).
    split; [done|]. apply elem_of_map_to_list. rewrite tally_lookup.
    destruct (Nat.eqb_spec (count_on (remote_docker_server env) envs) 0); [lia | done].
Qed.

Lemma tally_all_equal envs q :
  map_Forall (fun _ count => count = q) (tally envs) ->
  length envs = q * size (tally envs).
Proof.
  intros Hall. rewrite length_sum_tally.
  rewrite (sum_all_equal (fun k => count_on k envs) q).
  - by rewrite length_map, length_map_to_list.
  - intros k [[k' c] [-> Hk]]%list_elem_of_fmap. cbn.
    apply elem_of_map_to_list in Hk. pose proof (Hall _ _ Hk) as Hq. cbn in Hq.
    rewrite tally_lookup in Hk.
    destruct (count_on k' envs =? 0); congruence.
Qed.

(** Whatever the service answers and whatever the server list, the
    multi-server test counts every attempt once; its quota verdict is
    positive exactly when the number of successes is the expected maximum;
    the usage counts add up to the number of successes; and a balanced
    distribution already implies that the number of servers used equals the
    number configured, so the polling verdict is the best one exactly when
    the distribution is balanced, and then the quota verdict is positive as
    well. *)
Theorem multi_test_verdicts {St} (svc : Service St) (urls : list string) st :
  let t := fst (script svc urls st) in
  success_count t + failure_count t = PER_URL_QUOTA * length urls + 2 /\
  length (environments t) = success_count t /\
  (passes urls t = true <-> success_count t = PER_URL_QUOTA * length urls) /\
  (forall key, server_usage t !! key
     = if count_on key (environments t) =? 0 then None
       else Some (count_on key (environments t))) /\
  (polling_verdict urls t = PollingOk <-> balanced_distribution urls t = true) /\
  (balanced_distribution urls t = true
   <-> passes urls t = true /\
       map_Forall (fun _ count => count = PER_URL_QUOTA) (server_usage t)).
Proof.
  intros t. subst t. unfold script.
  pose proof (multi_attempts_counts svc (TOTAL_ATTEMPTS urls) state0 st) as Hc.
  pose proof (attempts_tally svc (TOTAL_ATTEMPTS urls) state0 st eq_refl eq_refl)
    as [Hu Hs].
  cbv zeta in Hc, Hu, Hs.
  set (t := fst (attempts svc (TOTAL_ATTEMPTS urls) (state0, st))) in *.
  unfold TOTAL_ATTEMPTS, MAX_ATTEMPTS, URL_COUNT in Hc. cbn [success_count failure_count state0] in Hc.
  assert (passes urls t = true <-> success_count t = PER_URL_QUOTA * length urls)
    as Hpass.
  { unfold passes, MAX_ATTEMPTS, URL_COUNT. rewrite andb_true_iff, !Nat.eqb_eq. lia. }
  assert (balanced_distribution urls t = true -> all_servers_used urls t = true)
    as Hused.
  { intros [Hsucc Hall]%balanced_iff. unfold all_servers_used, URL_COUNT.
    apply Nat.eqb_eq. rewrite Hu in Hall |- *.
    pose proof (tally_all_equal _ _ Hall) as Hlen.
    rewrite <- Hs, Hsucc in Hlen. unfold PER_URL_QUOTA in Hlen. lia. }
  split; [lia|]. split; [done|]. split; [done|]. split; [|split].
  - intros key. rewrite Hu. apply tally_lookup.
  - unfold polling_verdict.
    destruct (balanced_distribution urls t) eqn:Hb.
    + rewrite Hused by done. done.
    + rewrite andb_false_r. by destruct (all_servers_used urls t).
  - rewrite balanced_iff, Hpass. tauto.
Qed.

Import ParallelTest.

(** The verdict of the parallel test depends only on how many of the three
    constructor calls returned, not on which ones nor on the order in which
    the two threads finish: it passes exactly when two environments
    started, also when the first environment is the one that failed; with
    three started it fails and reports a suspected over-commit. *)
Theorem parallel_verdict_counts_the_starts env1 o2 o3 quota_after :
  let started := fun o => match o with Started _ => 1 | _ => 0 end in
  let n := started env1 + started o2 + started o3 in
  ParallelTest.script env1 [("concurrent_env2", o2); ("concurrent_env3", o3)] quota_after
  = ParallelTest.script env1 [("concurrent_env3", o3); ("concurrent_env2", o2)] quota_after /\
  ParallelTest.script env1 [("concurrent_env2", o2); ("concurrent_env3", o3)] quota_after
  = if n =? 2 then
      Passed (match quota_after with
              | Some q => if (current q =? 2)%Z then Some true
                          else if (current q >? 2)%Z then Some false else None
              | None => None
              end)
    else Failed (n =? 3).
Proof.
  intros started n. subst started n.
  destruct env1 as [e1|m1|m1], o2 as [e2|m2|m2], o3 as [e3|m3|m3];
    (split; [vm_compute; reflexivity|]);
    destruct quota_after as [[cur lim]|];
    unfold ParallelTest.script, verify;
    match goal with
    | |- context [ParallelTest.success_count ?t] =>
        let s := eval vm_compute in (ParallelTest.success_count t) in
        let f := eval vm_compute in (ParallelTest.failure_count t) in
        change (ParallelTest.success_count t) with s;
        change (ParallelTest.failure_count t) with f
    end; cbn; try reflexivity;
    destruct (cur =? 2)%Z; try reflexivity; destruct (cur >? 2)%Z; reflexivity.
Qed.

End ScriptFacts.

(** ** Which environments the scripts close *)

Module CloseFacts.
Import DesktopEnv ReleaseTest Recorded.

Section Recording.
Context {St : Type} (svc : Service St).





Lemma cleanup_recorded envs : forall st log,
  fold_left (fun s env => snd (close (recorded svc) env s)) envs (st, log)
  = (fold_left (fun s env => snd (close svc env s)) envs st, log ++ envs).
Proof.
  induction envs as [|env envs IH]; intros st log.
  - cbn. by rewrite app_nil_r.
  - cbn [fold_left]. unfold recorded at 2. cbn [close fst snd].
    destruct (close svc env st) as [closed st']. cbn [snd].
    rewrite IH, <- app_assoc. done.
Qed.





Lemma load_attempts_envs n : forall t st,
  length (LoadTest.environments (fst (LoadTest.attempts svc n (t, st))))
  + LoadTest.success_count t
  = LoadTest.success_count (fst (LoadTest.attempts svc n (t, st)))
    + length (LoadTest.environments t).
Proof.
  induction n as [|n IH]; intros t st; [cbn; lia|].
  cbn [LoadTest.attempts]. unfold LoadTest.attempt.
  destruct (new_env svc st) as [[env|msg|msg] st'];
    match goal with |- context [LoadTest.attempts svc n (?t1, st')] =>
      specialize (IH t1 st') end;
    cbn [LoadTest.environments LoadTest.success_count] in IH;
    rewrite ?length_app in IH; cbn [length] in IH; lia.
Qed.

Lemma load_attempt_recorded t st log :
  LoadTest.attempt (recorded svc) (t, (st, log))
  = (fst (LoadTest.attempt svc (t, st)), (snd (LoadTest.attempt svc (t, st)), log)).
Proof.
  unfold LoadTest.attempt, recorded. cbn [new_env fst snd].
  by destruct (new_env svc st) as [[env|msg|msg] st'].
Qed.

Lemma load_attempts_recorded n : forall t st log,
  LoadTest.attempts (recorded svc) n (t, (st, log))
  = (fst (LoadTest.attempts svc n (t, st)),
     (snd (LoadTest.attempts svc n (t, st)), log)).
Proof.
  induction n as [|n IH]; intros t st log; [done|].
  cbn [LoadTest.attempts]. rewrite load_attempt_recorded.
  destruct (LoadTest.attempt svc (t, st)) as [t1 st1]. apply IH.
Qed.

End Recording.


(** The load test calls [close] once on each environment it started, in
    the order started, and on nothing else, also when a close fails.
    Recording the calls does not change the run. *)
Theorem load_test_closes_what_it_started {St} (svc : Service St) max_attempts st :
  let run := LoadTest.script (recorded svc) max_attempts (st, []) in
  let t := fst (fst run) in
  snd (snd run) = LoadTest.environments t /\
  length (snd (snd run)) = LoadTest.success_count t /\
  LoadTest.script svc max_attempts st = (fst run, fst (snd run)).
Proof.
  intros run t. subst run t. unfold LoadTest.script.
  rewrite load_attempts_recorded.
  pose proof (load_attempts_envs svc (LoadTest.TOTAL_ATTEMPTS max_attempts)
                LoadTest.state0 st) as Hlen.
  destruct (LoadTest.attempts svc _ (LoadTest.state0, st)) as [t st'].
  cbn [fst snd] in *. unfold LoadTest.cleanup. rewrite cleanup_recorded.
  cbn [fst snd app]. split; [done|]. split; [|done].
  cbn in Hlen. lia.
Qed.

End CloseFacts.

(** ** Running the examples: closing, the summary, finding a payload *)

Module ExampleRunnerFacts.
Import ConcurrencyTest ExampleRunner.

Lemma escaped_closes msg done :
  Constructed ∉ done -> WroteError ∉ done -> Closed ∉ done ->
  closes_by_status (escaped msg done).
Proof.
  intros Hc Hw Hcl. unfold closes_by_status, closes, has_status, escaped.
  cbn [returned events].
  assert (filter (fun e => e = Closed) done = []) as ->.
  { induction done as [|e done IH]; [done|].
    rewrite filter_cons. case_decide as He; [subst; set_solver|].
    apply IH; set_solver. }
  rewrite bool_decide_eq_false_2 by done.
  split; [done|]. split; [done|]. split; [|done].
  split; [by intros [?|?] | by intros [? ?]].
Qed.

Lemma with_env_closes name a done :
  Constructed ∉ done -> WroteError ∉ done -> Closed ∉ done ->
  closes_by_status (with_env (JStr name) a done).
Proof.
  intros Hc Hw Hcl. unfold with_env.
  assert (filter (fun e => e = Closed) done = []) as Hf.
  { induction done as [|e done IH]; [done|].
    rewrite filter_cons. case_decide as He; [subst; set_solver|].
    apply IH; set_solver. }
  destruct (constructor_raises a) as [m1|].
  - destruct (error_json_raises a) as [m3|]; [by apply escaped_closes|].
    unfold closes_by_status, closes, has_status. cbn [returned events].
    rewrite filter_app, Hf. rewrite bool_decide_eq_false_2 by set_solver.
    split; [done|]. split; [split; [done | set_solver]|].
    split; [|by eexists]. split; [by eexists | by right].
  - destruct (body a) as [score|m2].
    + unfold closes_by_status, closes, has_status. cbn [returned events].
      rewrite filter_app, Hf. rewrite bool_decide_eq_true_2 by set_solver.
      split; [done|]. split; [split; [set_solver | done]|].
      split; [|by eexists]. split; [by eexists | by left].
    + destruct (error_json_raises a) as [m3|].
      * unfold closes_by_status, closes, has_status, escaped. cbn [returned events].
        rewrite filter_app, Hf. rewrite bool_decide_eq_true_2 by set_solver.
        split; [done|]. split; [split; [set_solver | done]|].
        split; [|done]. split; [by intros [?|?] | by intros [? ?]].
      * unfold closes_by_status, closes, has_status. cbn [returned events].
        rewrite filter_app, Hf. rewrite bool_decide_eq_true_2 by set_solver.
        split; [done|]. split; [split; [done | set_solver]|].
        split; [|by eexists]. split; [by eexists | by right].
Qed.

Lemma py_or_string v name :
  (exists s, py_or v (JStr name) = JStr s) \/
  (exists msg, path_join (py_or v (JStr name)) = Raise msg).
Proof.
  unfold py_or. destruct (truthy v); [|left; by eexists].
  destruct v; try (right; by eexists). left. by eexists.
Qed.

Lemma from_payload_closes task_id a :
  closes_by_status (run_single_example_from_payload task_id a).
Proof.
  unfold run_single_example_from_payload.
  destruct task_id; cbn [path_join]; try (apply escaped_closes; set_solver).
  destruct (mkdir_raises a); [apply escaped_closes; set_solver|].
  destruct (copy_raises a), (import_raises a);
    (apply escaped_closes || apply with_env_closes); set_solver.
Qed.

Lemma run_single_example_closes loaded stem a :
  closes_by_status (run_single_example loaded stem a).
Proof.
  unfold run_single_example.
  destruct loaded as [example_data|msg]; [|apply escaped_closes; set_solver].
  destruct (attr_get example_data "id") as [v|msg];
    [|apply escaped_closes; set_solver]. cbv zeta.
  destruct (py_or_string v stem) as [[s ->]|[msg ->]];
    [|apply escaped_closes; set_solver]. cbn [path_join].
  destruct (mkdir_raises a); [apply escaped_closes; set_solver|].
  destruct (copy_raises a); [apply escaped_closes; set_solver|].
  destruct (import_raises a); [apply escaped_closes; set_solver|].
  apply with_env_closes; set_solver.
Qed.

Lemma prepare_and_run_closes tid found a :
  closes_by_status (_prepare_and_run tid found a).
Proof.
  unfold _prepare_and_run.
  destruct tid; cbn [path_join]; try (apply escaped_closes; set_solver).
  destruct found as [example_data|].
  - destruct (attr_get example_data "id") as [v|msg];
      [|apply escaped_closes; set_solver].
    apply from_payload_closes.
  - destruct (mkdir_raises a); [apply escaped_closes; set_solver|].
    destruct (error_json_raises a); [apply escaped_closes; set_solver|].
    unfold closes_by_status, closes, has_status. cbn [returned events].
    rewrite bool_decide_eq_false_2 by set_solver.
    split; [done|]. split; [split; [done | set_solver]|].
    split; [|by eexists]. split; [by eexists | by right].
Qed.

(** A run of one example by run_all_examples.py or by rerun_failures.py
    never closes an environment it did not construct, closes a constructed
    one once when the run succeeds or ends with an exception, and twice when
    the run is reported as failed; it writes [error.json] exactly when it
    reports the failure, and reports a string as task id.  run_uitars.py
    closes a constructed environment exactly once, whatever the status. *)
Theorem failed_runs_close_twice loaded stem a tid found example_id agent :
  closes_by_status (run_single_example loaded stem a) /\
  closes_by_status (_prepare_and_run tid found a) /\
  closes (run_one_example example_id agent)
  = (if bool_decide (Constructed ∈ events (run_one_example example_id agent))
     then 1 else 0) /\
  (WroteError ∈ events (run_one_example example_id agent)
   <-> has_status (run_one_example example_id agent) "failed" = true).
Proof.
  split; [apply run_single_example_closes|].
  split; [apply prepare_and_run_closes|].
  unfold run_one_example, run_in_env, report, closes, has_status, escaped.
  destruct example_id; cbn [os_path_join returned events];
    try (rewrite bool_decide_eq_false_2 by set_solver; split; [done|];
         split; [set_solver | done]).
  destruct (makedirs_raises agent); cbn [returned events];
    [rewrite bool_decide_eq_false_2 by set_solver; split; [done|];
     split; [set_solver | done]|].
  destruct (example agent) as [example_data|msg]; cbn [returned events];
    [|rewrite bool_decide_eq_false_2 by set_solver; split; [done|];
      split; [set_solver | done]].
  destruct example_data; cbn [attr_get_default returned events];
    try (rewrite bool_decide_eq_false_2 by set_solver; split; [done|];
         split; [set_solver | done]).
  destruct (agent_raises agent); cbn [returned events];
    [rewrite bool_decide_eq_false_2 by set_solver; split; [done|];
     split; [set_solver | done]|].
  destruct (env_raises agent); cbn [returned events];
    [rewrite bool_decide_eq_false_2 by set_solver; split; [done|];
     split; [set_solver | done]|].
  destruct (run_raises agent); cbn [returned events app];
    [destruct (traj_raises agent); cbn [returned events app]|];
    rewrite bool_decide_eq_true_2 by set_solver;
    (split; [done|]); (split; [set_solver || done | set_solver || done]).
Qed.

Lemma collect_fold_summary completed : forall s,
  successes (fold_left tally_result completed s)
  = successes s
    ++ omap (fun res => match res with
                        | Ret d => if py_eq_str (dict_get "status" d) "success"
                                   then Some (dict_get "task_id" d) else None
                        | Raise _ => None
                        end) completed /\
  failures (fold_left tally_result completed s)
  = failures s
    ++ omap (fun res => match res with
                        | Ret d => if py_eq_str (dict_get "status" d) "success"
                                   then None else Some (dict_get "task_id" d)
                        | Raise _ => None
                        end) completed.
Proof.
  induction completed as [|res completed IH]; intros s.
  - cbn. by rewrite !app_nil_r.
  - cbn [fold_left omap list_omap]. destruct (IH (tally_result s res)) as [-> ->].
    unfold tally_result. destruct res as [d|msg]; [|done].
    destruct (py_eq_str (dict_get "status" d) "success"); cbn [successes failures];
      by rewrite <- ?app_assoc.
Qed.

Lemma py_eq_str_spec v literal :
  py_eq_str v literal = true <-> v = JStr literal.
Proof.
  destruct v; cbn; try (split; [done | by intros ?]).
  rewrite String.eqb_eq. split; [by intros -> | by intros [= ->]].
Qed.

(** The two lists of the summary as a selection from the dicts returned. *)
Lemma collect_results_lists completed :
  let answers :=
    omap (fun res => match res with Ret d => Some d | Raise _ => None end)
      completed in
  successes (collect_results completed)
  = map (dict_get "task_id")
      (filter (fun d => py_eq_str (dict_get "status" d) "success" = true) answers) /\
  failures (collect_results completed)
  = map (dict_get "task_id")
      (filter (fun d => py_eq_str (dict_get "status" d) "success" = false) answers).
Proof.
  intros answers. subst answers. unfold collect_results.
  destruct (collect_fold_summary completed {| successes := []; failures := [] |})
    as [-> ->].
  cbn [successes failures app].
  induction completed as [|res completed [IHs IHf]]; [done|].
  cbn [omap list_omap]. destruct res as [d|msg]; [|done].
  rewrite !filter_cons.
  destruct (py_eq_str (dict_get "status" d) "success") eqn:Hst.
  - rewrite decide_True by done. rewrite decide_False by done.
    cbn [map]. by rewrite IHs, IHf.
  - rewrite decide_False by done. rewrite decide_True by done.
    cbn [map]. by rewrite IHs, IHf.
Qed.

(** The summary lists every run that returned exactly once, in completion
    order: its task id is under successes when its status is the string
    "success" and under failures otherwise; a run that ended with an
    exception is in neither list, so the two counts add up to the total
    only when no run raised.  The counts do not depend on the order in
    which the runs complete, and the lists only up to order. *)
Theorem summary_accounts_for_returned_runs (completed reordered : list (Py PyDict)) :
  completed ≡ₚ reordered ->
  let s := collect_results completed in
  let s' := collect_results reordered in
  let raised :=
    filter (fun res => match res with Raise _ => true | Ret _ => false end = true)
      completed in
  let answers :=
    omap (fun res => match res with Ret d => Some d | Raise _ => None end)
      completed in
  successes s
  = map (dict_get "task_id")
      (filter (fun d => py_eq_str (dict_get "status" d) "success" = true) answers) /\
  failures s
  = map (dict_get "task_id")
      (filter (fun d => py_eq_str (dict_get "status" d) "success" = false) answers) /\
  (forall v, py_eq_str v "success" = true <-> v = JStr "success") /\
  length (successes s) + length (failures s) + length raised = length completed /\
  successes s ≡ₚ successes s' /\
  failures s ≡ₚ failures s' /\
  length (successes s) = length (successes s') /\
  length (failures s) = length (failures s').
Proof.
  intros Hperm s s' raised answers. subst s s' raised answers.
  split; [apply collect_results_lists|].
  split; [apply collect_results_lists|].
  split; [intros v; apply py_eq_str_spec|].
  unfold collect_results.
  destruct (collect_fold_summary completed {| successes := []; failures := [] |})
    as [-> ->].
  destruct (collect_fold_summary reordered {| successes := []; failures := [] |})
    as [-> ->].
  cbn [successes failures app].
  split; [|split; [|split; [|split]]].
  - clear. induction completed as [|res completed IH]; [done|].
    cbn [omap list_omap length]. rewrite filter_cons.
    destruct res as [d|msg].
    + case_decide as Hr; [done|].
      destruct (py_eq_str (dict_get "status" d) "success"); cbn [length]; lia.
    + case_decide as Hr; [|done]. cbn [length]. lia.
  - by rewrite Hperm.
  - by rewrite Hperm.
  - by rewrite Hperm.
  - by rewrite Hperm.
Qed.

Lemma summary_accounts_for_returned_runs_witness :
  let done := Ret (succeeded (JStr "a1") JNull) in
  let broke := Ret (failed (JStr "b2")) in
  let lost := Raise "disk full" in
  successes (collect_results [done; lost; broke]) = [JStr "a1"] /\
  failures (collect_results [done; lost; broke]) = [JStr "b2"] /\
  length (successes (collect_results [done; lost; broke]))
  + length (failures (collect_results [done; lost; broke]))
  + length (filter (fun res => match res with Raise _ => true | Ret _ => false end
                              = true) [done; lost; broke])
  = 3.
Proof.
  intros done broke lost.
  assert ([done; lost; broke] ≡ₚ [broke; done; lost]) as Hperm.
  { symmetry. apply (Permutation_cons_append [done; lost] broke). }
  pose proof (summary_accounts_for_returned_runs [done; lost; broke]
                [broke; done; lost] Hperm) as (Hs & Hf & _ & Hcount & _).
  split; [exact Hs|]. split; [exact Hf | exact Hcount].
Defined.

(** [run_all_examples.py] calls [sys.exit(1)] exactly when the output
    directory could be made and the ping is not ok; it writes the summary
    exactly when making the directory, the ping, the listing of the
    examples and the write all succeed, and only then does the process end
    with status 0: what [mkdir], the listing or the write raise escapes
    [main].  What [rerun_failures.py] reads back from the summary written
    is the list of failures, in order; every entry is a string, having been
    the name of an output directory, and the two counts of the summary
    never exceed the number of examples. *)
Theorem rerun_reads_back_the_failures
    (runs : list (Py Json * string * Attempt)) w token max_workers_arg
    t0 t1 t2 summary_path :
  let completed :=
    map (fun run => returned (run_single_example run.1.1 run.1.2 run.2)) runs in
  let s := collect_results completed in
  let ending := main w token max_workers_arg completed t0 t1 t2 in
  (ending = Exited 1
   <-> out_base_raises w = None /\ ping (ping_answer w) = false) /\
  ((exists written, ending = SummaryWritten written)
   <-> out_base_raises w = None /\ ping (ping_answer w) = true /\
       listing_raises w = None /\ summary_raises w = None) /\
  (exit_status ending = 0%Z <-> exists written, ending = SummaryWritten written) /\
  match ending with
  | Exited status => status = 1%Z
  | Raised msg =>
      out_base_raises w = Some msg \/
      out_base_raises w = None /\ ping (ping_answer w) = true /\
      (listing_raises w = Some msg \/
       listing_raises w = None /\ summary_raises w = Some msg)
  | SummaryWritten written =>
      load_failures summary_path (Some (Ret (JDict written))) = Ret (failures s) /\
      dict_get "examples_total" written = JInt (Z.of_nat (length runs)) /\
      dict_get "success_count" written = JInt (Z.of_nat (length (successes s))) /\
      dict_get "failure_count" written = JInt (Z.of_nat (length (failures s)))
  end /\
  Forall (fun tid => exists name, tid = JStr name) (successes s ++ failures s) /\
  length (successes s) + length (failures s) <= length runs.
Proof.
  intros completed s ending. subst completed s ending.
  split; [|split; [|split; [|split; [|split]]]].
  - unfold main. destruct (out_base_raises w); [split; [done | by intros [? _]]|].
    destruct (ping (ping_answer w)); [|done].
    destruct (listing_raises w); [split; [done | by intros [_ ?]]|].
    destruct (summary_raises w); split; (done || by intros [_ ?]).
  - unfold main. destruct (out_base_raises w);
      [split; [by intros [? ?] | by intros [? _]]|].
    destruct (ping (ping_answer w));
      [|split; [by intros [? ?] | by intros (_ & ? & _)]].
    destruct (listing_raises w);
      [split; [by intros [? ?] | by intros (_ & _ & ? & _)]|].
    destruct (summary_raises w);
      [split; [by intros [? ?] | by intros (_ & _ & _ & ?)]|].
    split; [done | intros _; by eexists].
  - unfold main. destruct (out_base_raises w);
      [split; [done | by intros [? ?]]|].
    destruct (ping (ping_answer w)); [|split; [done | by intros [? ?]]].
    destruct (listing_raises w); [split; [done | by intros [? ?]]|].
    destruct (summary_raises w); [split; [done | by intros [? ?]]|].
    split; [intros _; by eexists | done].
  - unfold main. destruct (out_base_raises w); [by left|].
    destruct (ping (ping_answer w)); [|done].
    destruct (listing_raises w); [right; by eauto|].
    destruct (summary_raises w); [right; by eauto|].
    split; [done|]. split; [|done]. cbn. by rewrite length_map.
  - unfold collect_results.
    match goal with |- context [fold_left tally_result ?c ?s0] =>
      destruct (collect_fold_summary c s0) as [-> ->] end.
    cbn [successes failures app]. apply Forall_app. split.
    + apply Forall_forall. intros tid [res [Hres Hin]]%list_elem_of_omap.
      apply list_elem_of_fmap in Hres as [[[loaded stem] a] [-> _]].
      cbn [fst snd] in Hin.
      destruct (run_single_example_closes loaded stem a) as (_ & _ & _ & Hd).
      destruct (returned (run_single_example loaded stem a)) as [d|]; [|done].
      destruct (py_eq_str (dict_get "status" d) "success"); [|done].
      injection Hin as <-. exact Hd.
    + apply Forall_forall. intros tid [res [Hres Hin]]%list_elem_of_omap.
      apply list_elem_of_fmap in Hres as [[[loaded stem] a] [-> _]].
      cbn [fst snd] in Hin.
      destruct (run_single_example_closes loaded stem a) as (_ & _ & _ & Hd).
      destruct (returned (run_single_example loaded stem a)) as [d|]; [|done].
      destruct (py_eq_str (dict_get "status" d) "success"); [done|].
      injection Hin as <-. exact Hd.
  - unfold collect_results.
    match goal with |- context [fold_left tally_result ?c ?s0] =>
      destruct (collect_fold_summary c s0) as [-> ->] end.
    cbn [successes failures app].
    induction runs as [|run runs IH]; [done|].
    cbn [map omap list_omap length].
    destruct (returned _) as [d|]; [|lia].
    destruct (py_eq_str (dict_get "status" d) "success"); cbn [length]; lia.
Qed.




End ExampleRunnerFacts.

(** ** Resuming an experiment *)

Module UitarsFacts.
Import ConcurrencyTest Uitars.

Lemma visit_example_spec example_id node :
  visit_example example_id node
  = if blocked example_id node then Raise "Is a directory"
    else Ret (swept_example example_id node,
              negb (String.eqb example_id "onboard") &&
              match node with Dir files => has_result files | File => false end).
Proof.
  unfold visit_example, blocked, swept_example, is_unfinished, remove_files.
  destruct (String.eqb example_id "onboard"); [done|].
  destruct node as [|files]; [done|]. cbn [negb andb].
  destruct (has_result files); [done|]. cbn [negb].
  by destruct (bool_decide (map_Forall _ files)).
Qed.

Lemma visit_domain_spec examples :
  match visit_domain examples with
  | Raise _ => exists id node, examples !! id = Some node /\ blocked id node = true
  | Ret (seen, finished) =>
      (forall id node, examples !! id = Some node -> blocked id node = false) /\
      (forall id, seen !! id = swept_example id <$> examples !! id) /\
      (forall id, id ∈ finished
         <-> id <> "onboard" /\
             exists files, examples !! id = Some (Dir files) /\ has_result files = true)
  end.
Proof.
  unfold visit_domain.
  apply (map_fold_weak_ind (fun r (m : gmap string Node) =>
    match r with
    | Raise _ => exists id node, m !! id = Some node /\ blocked id node = true
    | Ret (seen, finished) =>
        (forall id node, m !! id = Some node -> blocked id node = false) /\
        (forall id, seen !! id = swept_example id <$> m !! id) /\
        (forall id, id ∈ finished
           <-> id <> "onboard" /\
               exists files, m !! id = Some (Dir files) /\ has_result files = true)
    end)).
  - split; [by intros ? ? ?%lookup_empty_Some|]. split.
    + intros id. by rewrite !lookup_empty.
    + intros id. split; [by intros ?%elem_of_nil|].
      by intros (_ & ? & ?%lookup_empty_Some & _).
  - intros i x m r Hi IH. destruct r as [[seen finished]|msg].
    + destruct IH as (Hb & Hseen & Hfin). cbn.
      rewrite visit_example_spec. destruct (blocked i x) eqn:Hbi.
      * cbn. exists i, x. by rewrite lookup_insert_eq.
      * cbn. split; [|split].
        -- intros id node. destruct (decide (id = i)) as [->|Hne].
           ++ rewrite lookup_insert_eq. by intros [= <-].
           ++ rewrite lookup_insert_ne by done. apply Hb.
        -- intros id. destruct (decide (id = i)) as [->|Hne].
           ++ by rewrite !lookup_insert_eq.
           ++ rewrite !lookup_insert_ne by done. apply Hseen.
        -- intros id. destruct (decide (id = i)) as [->|Hne].
           ++ rewrite lookup_insert_eq.
              destruct (String.eqb_spec i "onboard") as [->|Hon]; cbn [negb andb].
              ** rewrite Hfin, Hi. split; [by intros (? & ? & ? & _) | by intros [? _]].
              ** destruct x as [|files].
                 --- rewrite Hfin, Hi.
                     split; [by intros (? & ? & ? & _) | by intros (? & ? & ? & _)].
                 --- destruct (has_result files) eqn:Hres.
                     +++ rewrite elem_of_app, list_elem_of_singleton.
                         split; [intros _; split; [done | by exists files] | by right].
                     +++ rewrite Hfin, Hi. split; [by intros (? & ? & ? & _)|].
                         intros (_ & files' & [= <-] & Hr). congruence.
           ++ rewrite lookup_insert_ne by done.
              assert (id ∈ (if negb (i =? "onboard")%string &&
                               match x with Dir files => has_result files | File => false end
                            then finished ++ [i] else finished)
                      <-> id ∈ finished) as ->; [|apply Hfin].
              destruct (_ && _); [|done].
              rewrite elem_of_app, list_elem_of_singleton. tauto.
    + destruct IH as (id & node & Hid & Hbl). cbn. exists id, node.
      split; [|done]. rewrite lookup_insert_ne; [done|]. intros ->. congruence.
Qed.

(** What the walk of the target directory gives. *)
Lemma visit_target_spec domains :
  match visit_target domains with
  | Raise _ =>
      exists domain examples id node,
        domains !! domain = Some (Dir examples) /\
        examples !! id = Some node /\ blocked id node = true
  | Ret (seen, finished) =>
      (forall domain examples id node,
         domains !! domain = Some (Dir examples) ->
         examples !! id = Some node -> blocked id node = false) /\
      (forall domain, seen !! domain = swept_domain <$> domains !! domain) /\
      (forall domain,
         match domains !! domain with
         | None => finished !! domain = None
         | Some File => finished !! domain = Some []
         | Some (Dir examples) =>
             exists done,
               finished !! domain = Some done /\
               forall id, id ∈ done
                 <-> id <> "onboard" /\
                     exists files, examples !! id = Some (Dir files) /\
                                   has_result files = true
         end)
  end.
Proof.
  unfold visit_target.
  apply (map_fold_weak_ind (fun r (m : gmap string Node) =>
    match r with
    | Raise _ =>
        exists domain examples id node,
          m !! domain = Some (Dir examples) /\
          examples !! id = Some node /\ blocked id node = true
    | Ret (seen, finished) =>
        (forall domain examples id node,
           m !! domain = Some (Dir examples) ->
           examples !! id = Some node -> blocked id node = false) /\
        (forall domain, seen !! domain = swept_domain <$> m !! domain) /\
        (forall domain,
           match m !! domain with
           | None => finished !! domain = None
           | Some File => finished !! domain = Some []
           | Some (Dir examples) =>
               exists done,
                 finished !! domain = Some done /\
                 forall id, id ∈ done
                   <-> id <> "onboard" /\
                       exists files, examples !! id = Some (Dir files) /\
                                     has_result files = true
           end)
    end)).
  - split; [by intros ? ? ? ? ?%lookup_empty_Some|]. split.
    + intros d. by rewrite !lookup_empty.
    + intros d. by rewrite !lookup_empty.
  - intros i x m r Hi IH. destruct r as [[seen finished]|msg].
    + destruct IH as (Hb & Hseen & Hfin). cbn. destruct x as [|examples].
      * cbn. split; [|split].
        -- intros d ex id node. destruct (decide (d = i)) as [->|Hne].
           ++ by rewrite lookup_insert_eq.
           ++ rewrite lookup_insert_ne by done. apply Hb.
        -- intros d. destruct (decide (d = i)) as [->|Hne].
           ++ by rewrite !lookup_insert_eq.
           ++ rewrite !lookup_insert_ne by done. apply Hseen.
        -- intros d. destruct (decide (d = i)) as [->|Hne].
           ++ by rewrite !lookup_insert_eq.
           ++ rewrite !lookup_insert_ne by done. apply Hfin.
      * pose proof (visit_domain_spec examples) as Hd.
        destruct (visit_domain examples) as [[examples' done]|msg]; cbn.
        -- destruct Hd as (Hdb & Hdseen & Hdfin). split; [|split].
           ++ intros d ex id node. destruct (decide (d = i)) as [->|Hne].
              ** rewrite lookup_insert_eq. intros [= <-]. apply Hdb.
              ** rewrite lookup_insert_ne by done. apply Hb.
           ++ intros d. destruct (decide (d = i)) as [->|Hne].
              ** rewrite !lookup_insert_eq. cbn. do 2 f_equal.
                 apply map_eq. intros id. rewrite Hdseen, map_lookup_imap.
                 by destruct (examples !! id).
              ** rewrite !lookup_insert_ne by done. apply Hseen.
           ++ intros d. destruct (decide (d = i)) as [->|Hne].
              ** rewrite !lookup_insert_eq. by exists done.
              ** rewrite !lookup_insert_ne by done. apply Hfin.
        -- destruct Hd as (id & node & Hid & Hbl). exists i, examples, id, node.
           by rewrite lookup_insert_eq.
    + destruct IH as (d & ex & id & node & Hd & Hid & Hbl). cbn.
      exists d, ex, id, node. split; [|done].
      rewrite lookup_insert_ne; [done|]. intros ->. congruence.
Qed.

Lemma prune_spec finished total domain :
  prune finished total !! domain
  = match finished !! domain with
    | Some examples => filter (fun x => not_in x examples = true) <$> total !! domain
    | None => total !! domain
    end.
Proof.
  unfold prune.
  apply (map_fold_weak_ind (fun r (m : gmap string (list string)) =>
    forall domain,
      r !! domain
      = match m !! domain with
        | Some examples => filter (fun x => not_in x examples = true) <$> total !! domain
        | None => total !! domain
        end)).
  - intros d. by rewrite lookup_empty.
  - intros i x m r Hi IH d. destruct (decide (d = i)) as [->|Hne].
    + rewrite lookup_insert_eq. rewrite (IH i), Hi.
      destruct (total !! i) as [ids|] eqn:Ht.
      * by rewrite lookup_insert_eq.
      * by rewrite IH, Hi, Ht.
    + rewrite lookup_insert_ne by done.
      destruct (r !! i); [rewrite lookup_insert_ne by done|]; apply IH.
Qed.

Lemma filter_all {A} (P : A -> Prop) `{!forall x, Decision (P x)} (l : list A) :
  (forall x, P x) -> filter P l = l.
Proof.
  intros HP. induction l as [|x l IH]; [done|].
  rewrite filter_cons. rewrite decide_True by done. by rewrite IH.
Qed.

(** The dict [finished] against the directory. *)
Lemma not_in_finished domains (finished : gmap string (list string)) domain x :
  (forall domain,
     match domains !! domain with
     | None => finished !! domain = None
     | Some File => finished !! domain = Some []
     | Some (Dir examples) =>
         exists done,
           finished !! domain = Some done /\
           forall id, id ∈ done
             <-> id <> "onboard" /\
                 exists files, examples !! id = Some (Dir files) /\
                               has_result files = true
     end) ->
  match finished !! domain with
  | Some examples => not_in x examples
  | None => true
  end = negb (is_finished domains domain x).
Proof.
  intros Hfin. specialize (Hfin domain). unfold is_finished, not_in.
  destruct (domains !! domain) as [[|examples]|].
  - rewrite Hfin. destruct x; try done; cbn;
      by rewrite bool_decide_eq_false_2 by apply not_elem_of_nil.
  - destruct Hfin as (done & -> & Hdone). destruct x as [| | | |id| |]; try done.
    f_equal. specialize (Hdone id).
    destruct (String.eqb_spec id "onboard") as [->|Hon]; cbn [negb andb].
    + apply bool_decide_eq_false_2. rewrite Hdone. by intros [? _].
    + destruct (examples !! id) as [[|files]|] eqn:Hex.
      * apply bool_decide_eq_false_2. rewrite Hdone. by intros (_ & ? & ? & _).
      * destruct (has_result files) eqn:Hres.
        -- apply bool_decide_eq_true_2. rewrite Hdone. split; [done | by exists files].
        -- apply bool_decide_eq_false_2. rewrite Hdone.
           intros (_ & files' & [= <-] & Hr). congruence.
      * apply bool_decide_eq_false_2. rewrite Hdone. by intros (_ & ? & ? & _).
  - rewrite Hfin. by destruct x.
Qed.

Lemma swept_example_idem id node :
  swept_example id (swept_example id node) = swept_example id node /\
  blocked id (swept_example id node) = false /\
  is_unfinished id (swept_example id node) = is_unfinished id node.
Proof.
  unfold swept_example, blocked, is_unfinished.
  destruct (String.eqb id "onboard"); [done|]. cbn [negb andb].
  destruct node as [|files]; [done|].
  destruct (has_result files) eqn:Hres; cbn [negb].
  - by rewrite Hres.
  - assert (has_result ∅ = false) as Hempty by done. rewrite Hempty. cbn [negb andb].
    split; [done|]. split; [|done].
    rewrite bool_decide_eq_true_2; [done|]. apply map_Forall_empty.
Qed.

Lemma is_finished_swept domains domain x :
  is_finished (swept_domain <$> domains) domain x = is_finished domains domain x.
Proof.
  unfold is_finished. destruct x as [| | | |id| |]; try done.
  rewrite lookup_fmap. destruct (domains !! domain) as [[|examples]|]; try done.
  cbn. rewrite map_lookup_imap.
  destruct (String.eqb id "onboard") eqn:Hon; [done|]. cbn [negb andb].
  destruct (examples !! id) as [node|]; [|done]. cbn.
  unfold swept_example, is_unfinished. rewrite Hon. cbn [negb andb].
  destruct node as [|files]; [done|].
  destruct (has_result files) eqn:Hres; cbn [negb]; [by rewrite Hres | done].
Qed.

Lemma swept_domain_idem node : swept_domain (swept_domain node) = swept_domain node.
Proof.
  destruct node as [|examples]; [done|]. cbn. f_equal.
  apply map_eq. intros id. rewrite !map_lookup_imap.
  destruct (examples !! id) as [node|]; [|done]. cbn.
  by destruct (swept_example_idem id node) as [-> _].
Qed.

(** The walk succeeds when nothing blocks it. *)
Lemma get_unfinished_ret domains total :
  (forall domain examples id node,
     domains !! domain = Some (Dir examples) ->
     examples !! id = Some node -> blocked id node = false) ->
  exists remaining,
    get_unfinished (Some (Dir domains)) total
    = Ret (remaining, Some (Dir (swept_domain <$> domains))) /\
    forall domain,
      remaining !! domain
      = filter (fun x => is_finished domains domain x = false) <$> total !! domain.
Proof.
  intros Hfree. unfold get_unfinished.
  pose proof (visit_target_spec domains) as Hv.
  destruct (visit_target domains) as [[seen finished]|msg].
  - destruct Hv as (_ & Hseen & Hfin). cbn.
    assert (seen = swept_domain <$> domains) as ->
      by (apply map_eq; intros d; by rewrite Hseen, lookup_fmap).
    assert (forall domain,
      match finished !! domain with
      | Some examples => filter (fun x => not_in x examples = true) <$> total !! domain
      | None => total !! domain
      end
      = filter (fun x => is_finished domains domain x = false) <$> total !! domain)
      as Hlook.
    { intros d. pose proof (fun x => not_in_finished domains finished d x Hfin) as Hx.
      destruct (finished !! d) as [examples|].
      - destruct (total !! d) as [ids|]; [|done]. cbn. f_equal.
        apply list_filter_iff. intros x. rewrite (Hx x).
        by destruct (is_finished domains d x).
      - destruct (total !! d) as [ids|]; [|done]. cbn. f_equal. symmetry.
        apply filter_all. intros x. specialize (Hx x).
        by destruct (is_finished domains d x). }
    case_bool_decide as Hempty.
    + exists total. split; [done|]. intros d. rewrite <- Hlook, Hempty.
      by rewrite lookup_empty.
    + exists (prune finished total). split; [done|]. intros d.
      by rewrite prune_spec, Hlook.
  - destruct Hv as (d & ex & id & node & Hd & Hid & Hbl).
    rewrite (Hfree _ _ _ _ Hd Hid) in Hbl. done.
Qed.

(** [get_unfinished] on an existing result directory: when it returns, it
    has dropped from every domain of the index exactly the examples that
    have a directory with a [result.txt], [onboard] never counting as
    finished, and has kept the others in their order; it has emptied the
    directories of the other examples and left the rest of the tree as it
    was; and running it again changes nothing.  It raises only when the
    directory of an unfinished example contains a directory: [os.remove]
    cannot delete it. *)
Theorem get_unfinished_resumes domains total :
  match get_unfinished (Some (Dir domains)) total with
  | Ret (remaining, after) =>
      (forall domain,
         remaining !! domain
         = filter (fun x => is_finished domains domain x = false)
             <$> total !! domain) /\
      after = Some (Dir (swept_domain <$> domains)) /\
      get_unfinished after remaining = Ret (remaining, after)
  | Raise _ =>
      exists domain examples id node,
        domains !! domain = Some (Dir examples) /\
        examples !! id = Some node /\ blocked id node = true
  end.
Proof.
  pose proof (visit_target_spec domains) as Hv.
  destruct (get_unfinished (Some (Dir domains)) total) as [[remaining after]|msg] eqn:Hg.
  - assert (forall domain examples id node,
              domains !! domain = Some (Dir examples) ->
              examples !! id = Some node -> blocked id node = false) as Hfree.
    { unfold get_unfinished in Hg.
      destruct (visit_target domains) as [[seen finished]|]; [|done].
      by destruct Hv as (Hfree & _). }
    destruct (get_unfinished_ret domains total Hfree) as (remaining' & Hret & Hleft).
    rewrite Hret in Hg. injection Hg as -> <-.
    split; [done|]. split; [done|].
    destruct (get_unfinished_ret (swept_domain <$> domains) remaining) as (remaining2 & -> & Hleft2).
    { intros d ex id node. rewrite lookup_fmap.
      destruct (domains !! d) as [[|examples]|]; cbn; try done.
      intros [= <-]. rewrite map_lookup_imap.
      destruct (examples !! id) as [n|]; cbn; [|done]. intros [= <-].
      by destruct (swept_example_idem id n) as (_ & -> & _). }
    assert (remaining2 = remaining) as ->.
    { apply map_eq. intros d. rewrite Hleft2, Hleft.
      destruct (total !! d) as [ids|]; [|done]. cbn. f_equal.
      rewrite (list_filter_iff
                 (fun x => is_finished (swept_domain <$> domains) d x = false)
                 (fun x => is_finished domains d x = false))
        by (intros x; by rewrite is_finished_swept).
      by apply list_filter_filter_r. }
    assert (swept_domain <$> (swept_domain <$> domains) = swept_domain <$> domains)
      as ->; [|done].
    apply map_eq. intros d. rewrite !lookup_fmap.
    destruct (domains !! d) as [node|]; [|done]. cbn.
    by rewrite swept_domain_idem.
  - unfold get_unfinished in Hg.
    destruct (visit_target domains) as [[seen finished]|]; [|done].
    cbn in Hg. by case_bool_decide.
Qed.

Lemma elem_of_sorted key keys : key ∈ sorted keys <-> key ∈ keys.
Proof. unfold sorted. by rewrite merge_sort_Permutation. Qed.

Lemma NoDup_sorted keys : NoDup keys -> NoDup (sorted keys).
Proof. unfold sorted. by rewrite merge_sort_Permutation. Qed.

Lemma elem_of_tasks (m : gmap string (list Json)) d x :
  (d, x) ∈ tasks m <-> exists ids, m !! d = Some ids /\ x ∈ ids.
Proof.
  unfold tasks. rewrite list_elem_of_In, in_flat_map. split.
  - intros (domain & Hdom & Hin). apply list_elem_of_In in Hin.
    apply list_elem_of_fmap in Hin as (y & [= -> ->] & Hy).
    destruct (m !! domain) as [ids|]; [by exists ids | by apply elem_of_nil in Hy].
  - intros (ids & Hm & Hx). exists d. split.
    + apply list_elem_of_In, elem_of_sorted, list_elem_of_fmap.
      exists (d, ids). split; [done|]. by apply elem_of_map_to_list.
    + apply list_elem_of_In, list_elem_of_fmap. exists x. by rewrite Hm.
Qed.

(** The tasks of one domain, in submission order. *)
Lemma tasks_of_domain (m : gmap string (list Json)) d :
  omap (fun t => if decide (t.1 = d) then Some t.2 else None) (tasks m)
  = default [] (m !! d).
Proof.
  unfold tasks.
  assert (forall order, NoDup order ->
    omap (fun t : string * Json => if decide (t.1 = d) then Some t.2 else None)
      (flat_map (fun domain => map (pair domain) (default [] (m !! domain))) order)
    = if decide (d ∈ order) then default [] (m !! d) else []) as Hgen.
  { induction 1 as [|domain order Hnin Hnd IH]; [done|].
    cbn [flat_map]. rewrite omap_app, IH.
    assert (forall ids : list Json,
      omap (fun t : string * Json => if decide (t.1 = d) then Some t.2 else None)
        (map (pair domain) ids)
      = if decide (domain = d) then ids else []) as Hone.
    { intros ids. induction ids as [|y ids IHy];
        [by destruct (decide (domain = d))|].
      cbn [map omap list_omap fst snd]. rewrite IHy.
      by destruct (decide (domain = d)). }
    rewrite Hone. destruct (decide (domain = d)) as [->|Hne].
    - rewrite decide_False by done. rewrite decide_True by (by left).
      by rewrite app_nil_r.
    - destruct (decide (d ∈ order)) as [Hin|Hout].
      + rewrite decide_True by (by right). done.
      + rewrite decide_False; [done|]. intros [->|?]%elem_of_cons; done. }
  rewrite Hgen by apply NoDup_sorted, NoDup_fst_map_to_list.
  destruct (m !! d) as [ids|] eqn:Hm.
  - rewrite decide_True; [done|]. apply elem_of_sorted, list_elem_of_fmap.
    exists (d, ids). split; [done|]. by apply elem_of_map_to_list.
  - by case_decide.
Qed.

(** After [get_unfinished], [test] submits nothing when the ping fails, and
    otherwise exactly the tasks of the index that the result directory does
    not show as finished: each of them as often as the index lists it and,
    within a domain, in the order of the index. *)
Theorem resumed_tasks_are_the_unfinished answer domains total :
  match get_unfinished (Some (Dir domains)) total with
  | Ret (remaining, _) =>
      (forall d x,
         (d, x) ∈ test answer remaining
         <-> ping answer = true /\
             (exists ids, total !! d = Some ids /\ x ∈ ids) /\
             is_finished domains d x = false) /\
      (forall d,
         omap (fun t => if decide (t.1 = d) then Some t.2 else None)
           (test answer remaining)
         = if ping answer
           then filter (fun x => is_finished domains d x = false)
                  (default [] (total !! d))
           else [])
  | Raise _ =>
      exists domain examples id node,
        domains !! domain = Some (Dir examples) /\
        examples !! id = Some node /\ blocked id node = true
  end.
Proof.
  pose proof (visit_target_spec domains) as Hv.
  destruct (get_unfinished (Some (Dir domains)) total) as [[remaining after]|msg] eqn:Hg.
  - assert (forall domain examples id node,
              domains !! domain = Some (Dir examples) ->
              examples !! id = Some node -> blocked id node = false) as Hfree.
    { unfold get_unfinished in Hg.
      destruct (visit_target domains) as [[seen finished]|]; [|done].
      by destruct Hv as (Hfree & _). }
    destruct (get_unfinished_ret domains total Hfree) as (remaining' & Hret & Hleft).
    rewrite Hret in Hg. injection Hg as -> <-. unfold test.
    split.
    + intros d x. destruct (ping answer).
      * rewrite !elem_of_tasks, Hleft. split.
        -- intros (ids & Hids & Hx). destruct (total !! d) as [ids0|]; [|done].
           injection Hids as <-. apply list_elem_of_filter in Hx as [Hfin Hx].
           split; [done|]. split; [by exists ids0 | done].
        -- intros (_ & (ids & Hids & Hx) & Hfin). rewrite Hids. eexists.
           split; [done|]. by apply list_elem_of_filter.
      * split; [by intros ?%elem_of_nil | by intros [? _]].
    + intros d. destruct (ping answer); [|done].
      rewrite !tasks_of_domain, Hleft. by destruct (total !! d).
  - unfold get_unfinished in Hg.
    destruct (visit_target domains) as [[seen finished]|]; [|done].
    cbn in Hg. by case_bool_decide.
Qed.

Lemma first_failure_app l1 l2 :
  first_failure (l1 ++ l2)
  = match first_failure l1 with
    | Some msg => Some msg
    | None => first_failure l2
    end.
Proof. induction l1 as [|[|msg|data] l1 IH]; done. Qed.

Lemma first_failure_None files :
  first_failure files = None <-> Forall (fun f => exists data, f = Parsed data) files.
Proof.
  induction files as [|[|msg|data] files IH]; cbn.
  - split; [by constructor | done].
  - split; [done | by intros [[? ?] _]%Forall_cons].
  - split; [done | by intros [[? ?] _]%Forall_cons].
  - rewrite IH, Forall_cons. split; [intros ?; split; [by eexists | done] | by intros [_ ?]].
Qed.

Lemma first_failure_Some files :
  (exists msg, first_failure files = Some msg)
  <-> Exists (fun f => forall data, f <> Parsed data) files.
Proof.
  induction files as [|[|msg|data] files IH]; cbn.
  - split; [by intros [? ?] | by intros ?%Exists_nil].
  - split; [intros _; by left | intros _; by eexists].
  - split; [intros _; by left | intros _; by eexists].
  - rewrite IH, Exists_cons. split; [by right|]. intros [H|H]; [|done].
    by specialize (H data).
Qed.

Lemma load_samples_spec strict file_of ids : forall acc,
  load_samples strict file_of ids acc
  = match (if strict then first_failure (map file_of ids) else None) with
    | Some msg => Raise msg
    | None => Ret (acc ++ omap parsed_data (map file_of ids))
    end.
Proof.
  induction ids as [|sample_id ids IH]; intros acc.
  - cbn. rewrite app_nil_r. by destruct strict.
  - cbn [load_samples map omap list_omap first_failure].
    destruct (file_of sample_id) as [|msg|data]; cbn [parsed_data].
    + destruct strict; [done | apply IH].
    + destruct strict; [done | apply IH].
    + rewrite IH, <- app_assoc. done.
Qed.

Lemma load_apps_spec strict file_at index_data apps : forall acc,
  load_apps strict file_at index_data apps acc
  = match (if strict then first_failure (named_files file_at index_data apps)
           else None) with
    | Some msg => Raise msg
    | None => Ret (acc ++ omap parsed_data (named_files file_at index_data apps))
    end.
Proof.
  induction apps as [|app apps IH]; intros acc.
  - cbn. rewrite app_nil_r. by destruct strict.
  - cbn [load_apps named_files flat_map].
    change (flat_map _ apps) with (named_files file_at index_data apps).
    destruct (dict_get app index_data) as [| | | | |ids|]; try apply IH.
    rewrite load_samples_spec, first_failure_app, omap_app.
    destruct strict.
    + destruct (first_failure (map (file_at app) ids)); [done|].
      rewrite IH, <- app_assoc. done.
    + rewrite IH, <- app_assoc. done.
Qed.

(** [load_data_json_list] reads the files the index names for the chosen
    apps, in the order of the sorted apps and of the index.  Without
    [strict] it never raises: it returns the data of the files that parse,
    in that order, and the empty list when the index is missing, unreadable
    or no object.  With [strict] it raises for such an index, and otherwise
    raises for the first file that is missing or does not parse; it returns
    exactly when every named file parses, and then what the lenient call
    returns. *)
Theorem strict_loading_refines_lenient index file_at keys :
  let lenient := load_data_json_list index file_at keys false in
  let strict := load_data_json_list index file_at keys true in
  match index with
  | Some (Ret (JDict index_data)) =>
      let files := named_files file_at index_data (target_keys keys index_data) in
      lenient = Ret (omap parsed_data files) /\
      strict = match first_failure files with
               | Some msg => Raise msg
               | None => Ret (omap parsed_data files)
               end /\
      (strict = lenient
       <-> Forall (fun f => exists data, f = Parsed data) files) /\
      ((exists msg, strict = Raise msg)
       <-> Exists (fun f => forall data, f <> Parsed data) files)
  | _ => lenient = Ret [] /\ exists msg, strict = Raise msg
  end /\
  (exists l,
     lenient = Ret l /\
     Forall (fun data => exists app sample_id, file_at app sample_id = Parsed data) l) /\
  match strict with
  | Ret l =>
      lenient = Ret l /\
      exists index_data, index = Some (Ret (JDict index_data))
  | Raise _ => True
  end.
Proof.
  intros lenient strict. subst lenient strict.
  assert (forall index_data,
    load_data_json_list (Some (Ret (JDict index_data))) file_at keys false
    = Ret (omap parsed_data
             (named_files file_at index_data (target_keys keys index_data))) /\
    load_data_json_list (Some (Ret (JDict index_data))) file_at keys true
    = match first_failure
              (named_files file_at index_data (target_keys keys index_data)) with
      | Some msg => Raise msg
      | None => Ret (omap parsed_data
                       (named_files file_at index_data (target_keys keys index_data)))
      end) as Hdict.
  { intros index_data. unfold load_data_json_list.
    change (sorted _) with (target_keys keys index_data).
    by rewrite !load_apps_spec. }
  split; [|split].
  - destruct index as [[data|msg]|]; try (split; [done | by eexists]).
    destruct data; try (split; [done | by eexists]).
    destruct (Hdict members) as [-> ->]. cbv zeta.
    set (files := named_files file_at members (target_keys keys members)).
    split; [done|]. split; [done|]. split.
    + rewrite <- first_failure_None.
      destruct (first_failure files); split; done.
    + rewrite <- first_failure_Some.
      destruct (first_failure files) as [msg|].
      * split; intros _; by eexists.
      * split; [by intros [? ?] | by intros [? ?]].
  - destruct index as [[data|msg]|]; try (exists []; by split).
    destruct data; try (exists []; by split).
    destruct (Hdict members) as [-> _]. eexists. split; [done|].
    apply Forall_forall. intros data [f [Hf Hd]]%list_elem_of_omap.
    destruct f as [| |data']; try done. injection Hd as ->.
    unfold named_files in Hf. apply list_elem_of_In, in_flat_map in Hf
      as (app & _ & Hin).
    destruct (dict_get app members); try done.
    apply in_map_iff in Hin as (sample_id & Heq & _). by exists app, sample_id.
  - destruct index as [[data|msg]|]; try done.
    destruct data; try done.
    destruct (Hdict members) as [-> ->].
    destruct (first_failure _); [done|]. split; [done | by eexists].
Qed.

End UitarsFacts.
